(** * SpiderForce4AI: the concurrent conversion pipeline

    A shallow embedding of [src/utils/converter.js] and of the reconciling
    [src/utils/concurrent-crawler.js] (the [ConcurrentCrawler] class with
    [processedUrlsMap]), and the properties of the specification checked
    against them; then of the Firecrawl adapter ([src/utils/firecrawl.js]),
    of the cleaner ([src/utils/cleaner.js]) and of [parseSelectors] and
    [convertUrlToMarkdown] of the server ([src/index.js]), with the
    properties that the code itself shows.

    Conventions.
    - A JavaScript string handled by regular expressions is a list of UTF-16
      code units ([jsstring]); URLs, keys and messages are [string].
    - A JavaScript [Map] is an association list in insertion order ([JSMap]).
    - External collaborators (Turndown, JSDOM, the browser, the network) are
      section variables: oracles that either return or throw.
    - An [await] is a point where other tasks may run; the order in which
      started tasks finish is given by a schedule oracle. *)

From Stdlib Require Import String Ascii ZArith NArith Bool Arith Lia.
From Stdlib Require Import List Permutation.
Import ListNotations.

Local Open Scope list_scope.

(* ================================================================== *)
(** * Part I: the program *)

(* ------------------------------------------------------------------ *)
(** * Strings *)

Module JsStr.

(** A JavaScript string: a sequence of UTF-16 code units. *)
Definition jsstring := list N.

Definition js (s : string) : jsstring :=
  List.map N_of_ascii (list_ascii_of_string s).

Definition NL : N := 10%N.         (* \n *)
Definition PIPE : N := 124%N.      (* | *)
Definition BACKSLASH : N := 92%N.
Definition BACKTICK : N := 96%N.
Definition SPACE : N := 32%N.

(** ECMAScript LineTerminator: LF, CR, LS, PS.  [.] matches anything else,
    and with the [m] flag [^] and [$] match next to one. *)
Definition is_line_terminator (c : N) : bool :=
  (c =? 10)%N || (c =? 13)%N || (c =? 8232)%N || (c =? 8233)%N.

(** ECMAScript [\s]: WhiteSpace and LineTerminator. *)
Definition is_space (c : N) : bool :=
  (c =? 9)%N || (c =? 10)%N || (c =? 11)%N || (c =? 12)%N || (c =? 13)%N ||
  (c =? 32)%N || (c =? 160)%N || (c =? 5760)%N ||
  ((8192 <=? c)%N && (c <=? 8202)%N) ||
  (c =? 8232)%N || (c =? 8233)%N || (c =? 8239)%N || (c =? 8287)%N ||
  (c =? 12288)%N || (c =? 65279)%N.

(** ECMAScript [\w]: [A-Za-z0-9_]. *)
Definition is_word (c : N) : bool :=
  ((65 <=? c)%N && (c <=? 90)%N) || ((97 <=? c)%N && (c <=? 122)%N) ||
  ((48 <=? c)%N && (c <=? 57)%N) || (c =? 95)%N.

Definition is_pipe (c : N) : bool := (c =? PIPE)%N.

Fixpoint starts_with (p s : jsstring) : bool :=
  match p, s with
  | [], _ => true
  | _ :: _, [] => false
  | a :: p', b :: s' => (a =? b)%N && starts_with p' s'
  end.

(** [String.prototype.includes]. *)
Fixpoint includes (needle hay : jsstring) : bool :=
  starts_with needle hay ||
  match hay with
  | [] => false
  | _ :: hay' => includes needle hay'
  end.

(** The maximal prefix satisfying [p], and what follows it. *)
Fixpoint span (p : N -> bool) (s : jsstring) : jsstring * jsstring :=
  match s with
  | c :: s' => if p c then let (a, b) := span p s' in (c :: a, b) else ([], s)
  | [] => ([], [])
  end.

(** [includes] on [string] (URLs and error messages). *)
Fixpoint str_includes (needle hay : string) : bool :=
  String.prefix needle hay ||
  match hay with
  | EmptyString => false
  | String _ hay' => str_includes needle hay'
  end.

End JsStr.

(* ------------------------------------------------------------------ *)
(** * The Markdown converter ([src/utils/converter.js]) *)

Module Converter.
Import JsStr.

Definition is_nl (c : N) : bool := (c =? NL)%N.
Definition is_backtick (c : N) : bool := (c =? BACKTICK)%N.
Definition LBRACKET : N := 91%N.
Definition RBRACKET : N := 93%N.
Definition LPAREN : N := 40%N.
Definition RPAREN : N := 41%N.

(** ** [s.replace(/^.*\|.*$/gm, '')]

    A line is a maximal run of characters that are not line terminators;
    a line holding a pipe is matched whole and replaced by nothing, the
    terminators stay. *)
Definition emit_line (line : jsstring) : jsstring :=
  if existsb is_pipe line then [] else line.

Fixpoint strip_pipe_lines_from (line s : jsstring) : jsstring :=
  match s with
  | [] => emit_line line
  | c :: s' =>
      if is_line_terminator c
      then emit_line line ++ c :: strip_pipe_lines_from [] s'
      else strip_pipe_lines_from (line ++ [c]) s'
  end.

Definition strip_pipe_lines (s : jsstring) : jsstring :=
  strip_pipe_lines_from [] s.

(** ** [s.replace(/\|[\s\S]*?\|/g, '')]

    From a pipe to the nearest later pipe, both included.  [inside] holds
    what followed an opening pipe that has not met its closing pipe yet:
    without one, nothing matched there and the text stays. *)
Fixpoint remove_pipe_spans_from (inside : option jsstring) (s : jsstring) : jsstring :=
  match s with
  | [] => match inside with None => [] | Some buf => PIPE :: buf end
  | c :: s' =>
      match inside with
      | None =>
          if is_pipe c then remove_pipe_spans_from (Some []) s'
          else c :: remove_pipe_spans_from None s'
      | Some buf =>
          if is_pipe c then remove_pipe_spans_from None s'
          else remove_pipe_spans_from (Some (buf ++ [c])) s'
      end
  end.

Definition remove_pipe_spans (s : jsstring) : jsstring :=
  remove_pipe_spans_from None s.

(** ** [s.replace(/\\([_\\`'])/g, '$1')] *)
Definition is_escapable (c : N) : bool :=
  (c =? 95)%N || (c =? BACKSLASH)%N || (c =? BACKTICK)%N || (c =? 39)%N.

Fixpoint unescape (s : jsstring) : jsstring :=
  match s with
  | [] => []
  | c1 :: s' =>
      match s' with
      | c2 :: s'' =>
          if (c1 =? BACKSLASH)%N && is_escapable c2
          then c2 :: unescape s''
          else c1 :: unescape s'
      | [] => [c1]
      end
  end.

(** The pre-pass of lines 14-23, guarded by [html && typeof html === 'string']:
    the empty string is falsy. *)
Definition prepass (html : jsstring) : jsstring :=
  match html with
  | [] => []
  | _ => unescape (remove_pipe_spans (strip_pipe_lines html))
  end.

(** ** [md.replace(/\n{3,}/g, '\n\n')]; [run] newlines are pending. *)
Definition emit_newlines (run : nat) : jsstring :=
  if 3 <=? run then [NL; NL] else repeat NL run.

Fixpoint collapse_newlines_from (run : nat) (s : jsstring) : jsstring :=
  match s with
  | [] => emit_newlines run
  | c :: s' =>
      if is_nl c then collapse_newlines_from (S run) s'
      else emit_newlines run ++ c :: collapse_newlines_from 0 s'
  end.

Definition collapse_newlines (s : jsstring) : jsstring :=
  collapse_newlines_from 0 s.

(** ** The opening-fence pass

    [md.replace(re, '```$1\n')] where [re] is: three or more backticks, a
    captured run of word characters, two or more newlines (flag [g]).

    Every quantifier is greedy and the three classes are disjoint, so a
    match at a position takes the whole run of backticks, of word characters
    and of newlines there.  Each step consumes a character: [fuel] starts at
    the length of the text. *)
Fixpoint fence_open (fuel : nat) (s : jsstring) : jsstring :=
  match fuel with
  | 0 => s
  | S fuel' =>
      match s with
      | [] => []
      | c :: s' =>
          let (ticks, r1) := span is_backtick s in
          let (word, r2) := span is_word r1 in
          let (nls, r3) := span is_nl r2 in
          if (3 <=? length ticks) && (2 <=? length nls)
          then [BACKTICK; BACKTICK; BACKTICK] ++ word ++ [NL] ++ fence_open fuel' r3
          else c :: fence_open fuel' s'
      end
  end.

(** ** [md.replace(/\n\n+`{3,}/g, '\n```')] *)
Fixpoint fence_close (fuel : nat) (s : jsstring) : jsstring :=
  match fuel with
  | 0 => s
  | S fuel' =>
      match s with
      | [] => []
      | c :: s' =>
          let (nls, r1) := span is_nl s in
          let (ticks, r2) := span is_backtick r1 in
          if (2 <=? length nls) && (3 <=? length ticks)
          then [NL; BACKTICK; BACKTICK; BACKTICK] ++ fence_close fuel' r2
          else c :: fence_close fuel' s'
      end
  end.

(** The first occurrence of [pat] reached from the start of [s] without
    crossing a line terminator: what precedes it and what follows it. *)
Fixpoint find_on_line (pat s : jsstring) : option (jsstring * jsstring) :=
  if starts_with pat s then Some ([], skipn (length pat) s)
  else
    match s with
    | [] => None
    | c :: s' =>
        if is_line_terminator c then None
        else
          match find_on_line pat s' with
          | Some (a, b) => Some (c :: a, b)
          | None => None
          end
    end.

(** ** [md.replace(/\\\[(.*?)\\\]\((.*?)\)/g, '[$1]($2)')]

    Both groups are lazy and stay on one line: the first ends at the first
    [\](] and the second at the first [)] after it. *)
Fixpoint fix_links (fuel : nat) (s : jsstring) : jsstring :=
  match fuel with
  | 0 => s
  | S fuel' =>
      match s with
      | [] => []
      | c :: s' =>
          if starts_with [BACKSLASH; LBRACKET] s then
            match find_on_line [BACKSLASH; RBRACKET; LPAREN] (skipn 2 s) with
            | Some (g1, r1) =>
                match find_on_line [RPAREN] r1 with
                | Some (g2, r2) =>
                    [LBRACKET] ++ g1 ++ [RBRACKET; LPAREN] ++ g2 ++ [RPAREN]
                      ++ fix_links fuel' r2
                | None => c :: fix_links fuel' s'
                end
            | None => c :: fix_links fuel' s'
            end
          else c :: fix_links fuel' s'
      end
  end.

(** The post-processing of lines 123-136, in the order of the source. *)
Definition postpass (md : jsstring) : jsstring :=
  let md := collapse_newlines md in
  let md := fence_open (length md) md in
  let md := fence_close (length md) md in
  let md := fix_links (length md) md in
  strip_pipe_lines md.

(** ** [text.replace(/\s+/g, ' ').trim()] *)
Fixpoint collapse_spaces_from (in_ws : bool) (s : jsstring) : jsstring :=
  match s with
  | [] => if in_ws then [SPACE] else []
  | c :: s' =>
      if is_space c then collapse_spaces_from true s'
      else (if in_ws then [SPACE] else []) ++ c :: collapse_spaces_from false s'
  end.

Fixpoint trim_start (s : jsstring) : jsstring :=
  match s with
  | c :: s' => if is_space c then trim_start s' else s
  | [] => []
  end.

Definition trim (s : jsstring) : jsstring :=
  rev (trim_start (rev (trim_start s))).

Definition normalize_text (s : jsstring) : jsstring :=
  trim (collapse_spaces_from false s).

(** ** The [tables] rule (lines 102-115)

    [rows_length] is [node.rows.length]; [content] is the Markdown that the
    GFM plugin produced for the rows of the table. *)
Definition BLANK : jsstring := [NL; NL].

Definition tables_replacement (content : jsstring) (rows_length : nat) : jsstring :=
  if (20 <? rows_length) || includes (js "|---") content then BLANK
  else content.

(** The service of lines 27-118 is the library configured with the rules
    of the source.  Of these the [tables] rule is modelled: [library] is
    what Turndown makes of an HTML text, handed the replacement function
    that it calls on every table ([None] when it throws). *)
Definition turndownService
           (library : (jsstring -> nat -> jsstring) -> jsstring -> option jsstring)
  : jsstring -> option jsstring :=
  library tables_replacement.

Section Convert.
(** [turndownService.turndown] as configured on lines 27-118 (the options
    of the caller are part of that configuration); [None] when it throws. *)
Variable turndown : jsstring -> option jsstring.
(** [new JSDOM(html).window.document.body.textContent || '']; [None] when
    JSDOM throws. *)
Variable body_text : jsstring -> option jsstring.

Definition fallback_text (html : jsstring) : jsstring :=
  match body_text html with
  | Some text => normalize_text text
  | None => js "Error converting content to markdown."
  end.

Definition convertToMarkdown (html : jsstring) : jsstring :=
  let html := prepass html in
  match turndown html with
  | Some markdown => postpass markdown
  | None => fallback_text html
  end.
End Convert.

(** The lines of a text, split at every line terminator. *)
Fixpoint lines_from (line s : jsstring) : list jsstring :=
  match s with
  | [] => [line]
  | c :: s' =>
      if is_line_terminator c then line :: lines_from [] s'
      else lines_from (line ++ [c]) s'
  end.

Definition lines (s : jsstring) : list jsstring := lines_from [] s.

Definition has_pipe (s : jsstring) : bool := existsb is_pipe s.

End Converter.

(* ------------------------------------------------------------------ *)
(** * The layered cache ([initRedis], [getCacheByKey], [setCacheByKey]) *)

Module Cache.

Local Open Scope string_scope.

(** The variables of [process.env] that the cache reads; [None] is an
    unset variable ([undefined]). *)
Record Env := mkEnv {
  USE_REDIS : option string;
  EXTERNAL_REDIS_URL : option string;
  DISABLE_ALL_CACHING : option string
}.

Definition lower_ascii (a : ascii) : ascii :=
  let n := nat_of_ascii a in
  if ((65 <=? n)%nat && (n <=? 90)%nat)%bool then ascii_of_nat (n + 32) else a.

Fixpoint toLowerCase (s : string) : string :=
  match s with
  | EmptyString => EmptyString
  | String a s' => String (lower_ascii a) (toLowerCase s')
  end.

(** [process.env.USE_REDIS || 'none']: unset and empty are falsy. *)
Definition redisMode (e : Env) : string :=
  match USE_REDIS e with
  | None => "none"
  | Some "" => "none"
  | Some m => m
  end.

Definition mode_is_none (e : Env) : bool :=
  (redisMode e =? "none") || (toLowerCase (redisMode e) =? "none").

Definition env_is (v : option string) (s : string) : bool :=
  match v with
  | Some x => (x =? s)
  | None => false
  end.

Section Store.
(** The cached record (a processing result); the shared tier stores its
    JSON text, read back by [JSON.parse]. *)
Variable V : Type.

(** The in-process [LRUCache] ([max: 1000]), most recently used first.
    Expiry by age is left out: it only removes entries. *)
Definition LRU := list (string * V).
Definition LRU_MAX : nat := 1000.

Fixpoint lru_remove (k : string) (c : LRU) : LRU :=
  match c with
  | [] => []
  | (k', v) :: c' => if (k' =? k) then lru_remove k c' else (k', v) :: lru_remove k c'
  end.

Fixpoint lru_find (k : string) (c : LRU) : option V :=
  match c with
  | [] => None
  | (k', v) :: c' => if (k' =? k) then Some v else lru_find k c'
  end.

Definition lru_has (k : string) (c : LRU) : bool :=
  match lru_find k c with Some _ => true | None => false end.

Definition lru_set (k : string) (v : V) (c : LRU) : LRU :=
  firstn LRU_MAX ((k, v) :: lru_remove k c).

(** [get] returns the value and marks the entry as the most recent. *)
Definition lru_get (k : string) (c : LRU) : LRU * option V :=
  match lru_find k c with
  | Some v => ((k, v) :: lru_remove k c, Some v)
  | None => (c, None)
  end.

(** The module state of [concurrent-crawler.js] and the crawler's own
    cache.  [redisStore] is the content of the shared tier, and
    [redisHealthy] says whether its commands answer or throw. *)
Record State := mkState {
  env : Env;
  useRedis : bool;
  redisClient : bool;            (* [redisClient !== null] *)
  redisInitialized : bool;
  resultsCache : LRU;
  redisStore : list (string * V);
  redisHealthy : bool
}.

Definition with_redis (st : State) (use client : bool) : State :=
  mkState (env st) use client true (resultsCache st) (redisStore st) (redisHealthy st).

Definition set_disable_all (st : State) : State :=
  mkState (mkEnv (USE_REDIS (env st)) (EXTERNAL_REDIS_URL (env st)) (Some "true"))
          (useRedis st) (redisClient st) (redisInitialized st)
          (resultsCache st) (redisStore st) (redisHealthy st).

(** [initRedis] (lines 266-462).  [connects] is the outcome of loading
    [ioredis], connecting within ten seconds and passing the set/get
    probe. *)
Definition initRedis (connects : bool) (st : State) : State :=
  if redisInitialized st then st
  else if mode_is_none (env st) then
    let st := if env_is (DISABLE_ALL_CACHING (env st)) "false"
              then st else set_disable_all st in
    with_redis st false false
  else if (redisMode (env st) =? "internal") then
    with_redis st connects connects
  else if (redisMode (env st) =? "external") then
    match EXTERNAL_REDIS_URL (env st) with
    | None | Some "" => with_redis st false false
    | Some _ => with_redis st connects connects
    end
  else with_redis st false false.

(** [isRedisEnabled] (lines 499-505). *)
Definition isRedisEnabled (st : State) : bool :=
  if mode_is_none (env st) then false
  else useRedis st && redisClient st.

Definition set_lru (st : State) (c : LRU) : State :=
  mkState (env st) (useRedis st) (redisClient st) (redisInitialized st)
          c (redisStore st) (redisHealthy st).

Definition set_redis (st : State) (r : list (string * V)) : State :=
  mkState (env st) (useRedis st) (redisClient st) (redisInitialized st)
          (resultsCache st) r (redisHealthy st).

(** [getCacheByKey] (lines 528-547): the value found, or [None] for
    [null]; an error of the shared tier is caught and reads as a miss. *)
Definition getCacheByKey (st : State) (key : string) : State * option V :=
  if env_is (DISABLE_ALL_CACHING (env st)) "true" then (st, None)
  else if isRedisEnabled st then
    if redisHealthy st then (st, lru_find key (redisStore st)) else (st, None)
  else if lru_has key (resultsCache st) then
    let (c, v) := lru_get key (resultsCache st) in (set_lru st c, v)
  else (st, None).

(** [setCacheByKey] (lines 556-575): whether the entry was stored. *)
Definition setCacheByKey (st : State) (key : string) (data : V)
           (bypassCache : bool) : State * bool :=
  if env_is (DISABLE_ALL_CACHING (env st)) "true" || bypassCache then (st, false)
  else if isRedisEnabled st then
    if redisHealthy st
    then (set_redis st ((key, data) :: lru_remove key (redisStore st)), true)
    else (st, false)
  else (set_lru st (lru_set key data (resultsCache st)), true).

End Store.

Arguments mkState {V}.
Arguments env {V}.
Arguments useRedis {V}.
Arguments redisClient {V}.
Arguments redisInitialized {V}.
Arguments resultsCache {V}.
Arguments redisStore {V}.
Arguments redisHealthy {V}.
Arguments initRedis {V}.
Arguments isRedisEnabled {V}.
Arguments getCacheByKey {V}.
Arguments setCacheByKey {V}.
Arguments lru_find {V}.
Arguments lru_remove {V}.
Arguments lru_set {V}.
Arguments lru_get {V}.
Arguments lru_has {V}.

(** [createCacheKey] (line 585); the selector lists are given by their
    JSON text. *)
Definition createCacheKey (url targetSelectors removeSelectors : string) : string :=
  "sf4ai:" ++ url ++ "-" ++ targetSelectors ++ "-" ++ removeSelectors.

End Cache.

(* ------------------------------------------------------------------ *)
(** * JavaScript values *)

Module Js.

Local Open Scope string_scope.

#[local] Set Warnings "-register-all".

(** The values that travel through [processInBatches].  Numbers are
    integers here ([NaN] does not occur in the results of the crawler). *)
Inductive value :=
| VUndefined
| VNull
| VBool (b : bool)
| VNum (n : Z)
| VStr (s : string)
| VArr (elems : list value)
| VObj (fields : list (string * value)).

(** [Boolean(v)]. *)
Definition truthy (v : value) : bool :=
  match v with
  | VUndefined | VNull => false
  | VBool b => b
  | VNum n => negb (n =? 0)%Z
  | VStr s => negb (s =? "")
  | VArr _ | VObj _ => true
  end.

Definition is_array (v : value) : bool :=
  match v with VArr _ => true | _ => false end.

(** [Array.prototype.flat()], depth 1. *)
Definition flat (l : list value) : list value :=
  flat_map (fun v => match v with VArr elems => elems | _ => [v] end) l.

(** What [await f(item)] gives inside a [try]: a value, or an exception
    with its [message]. *)
Inductive outcome :=
| Returned (v : value)
| Threw (message : string).

End Js.

(* ------------------------------------------------------------------ *)
(** * The bounded worker group ([processInBatches], lines 1051-1084)

    The driver starts one task per item.  A task runs [processFn(item)] up to
    its first suspension when it is created ([start]); the rest of it
    ([finish]: the remainder of [processFn], the [catch], and the [finally]
    that removes the task from [pendingPromises]) runs while the driver is
    suspended, at [await Promise.race] or [await Promise.all].  Which started
    tasks finish during a wait, and in which order, is decided by the event
    loop: the schedule [sched] names them by task number for every wait. *)

Module Worker.
Import Js.

Section ProcessInBatches.
Variables I St K : Type.
(** The item as it appears in the error record. *)
Variable item_value : I -> value.
Variable start : St -> I -> St * K.
Variable finish : St -> K -> St * outcome.
(** The limit is an integer here; a limit that is not ([NaN], a fraction in
    the body of the request) is outside this model. *)
Variable concurrencyLimit : Z.
Variable sched : nat -> list nat.

Record task := mkTask { t_id : nat; t_item : I; t_cont : K }.

(** The value a task's promise resolves with (lines 1058-1063): the
    exception of [processFn] is caught and becomes a record. *)
Definition settle (item : I) (o : outcome) : value :=
  match o with
  | Returned v => v
  | Threw message => VObj [("error"%string, VStr message); ("item"%string, item_value item)]
  end.

Fixpoint find_task (id : nat) (pending : list task) : option task :=
  match pending with
  | [] => None
  | t :: pending' => if (t_id t =? id) then Some t else find_task id pending'
  end.

Definition remove_task (id : nat) (pending : list task) : list task :=
  filter (fun t => negb (t_id t =? id)) pending.

Definition remove_tasks (done pending : list task) : list task :=
  fold_left (fun p t => remove_task (t_id t) p) done pending.

(** The pending tasks that the schedule names, in its order. *)
Fixpoint chosen (ids : list nat) (pending : list task) : list task :=
  match ids with
  | [] => []
  | id :: ids' =>
      match find_task id pending with
      | Some t => t :: chosen ids' (remove_task id pending)
      | None => chosen ids' pending
      end
  end.

(** The tasks that finish during a wait on [Promise.race]: those named by
    the schedule; the wait ends only when a task has finished, so when
    the schedule names none it is the oldest one. *)
Definition finishing (wait : nat) (pending : list task) : list task :=
  match chosen (sched wait) pending with
  | [] => firstn 1 pending
  | ts => ts
  end.

(** Run the rest of each task, in the order given. *)
Fixpoint run_finish (st : St) (ts : list task) : St * list (nat * value) :=
  match ts with
  | [] => (st, [])
  | t :: ts' =>
      let (st1, o) := finish st (t_cont t) in
      let (st2, vs) := run_finish st1 ts' in
      (st2, (t_id t, settle (t_item t) o) :: vs)
  end.

Fixpoint value_of (id : nat) (vs : list (nat * value)) : value :=
  match vs with
  | [] => VUndefined
  | (id', v) :: vs' => if (id' =? id) then v else value_of id vs'
  end.

(** The [for] loop and the final [Promise.all].  [id] numbers the tasks,
    [wait] counts the waits of the driver; the result is the state and the
    [results] array before [flat] and [filter]. *)
Fixpoint drive (items : list I) (id wait : nat) (st : St)
         (pending : list task) (results : list value) : St * list value :=
  match items with
  | [] =>
      let first := chosen (sched wait) pending in
      let order := first ++ remove_tasks first pending in
      let (st', vs) := run_finish st order in
      (st', results ++ map (fun t => value_of (t_id t) vs) pending)
  | item :: items' =>
      let (st1, k) := start st item in
      let pending1 := pending ++ [mkTask id item k] in
      if (concurrencyLimit <=? Z.of_nat (length pending1))%Z then
        let done := finishing wait pending1 in
        let (st2, vs) := run_finish st1 done in
        drive items' (S id) (S wait) st2 (remove_tasks done pending1)
              (results ++ map snd (firstn 1 vs))
      else
        drive items' (S id) wait st1 pending1 results
  end.

Definition processInBatches_raw (items : list I) (st : St) : St * list value :=
  drive items 0 0 st [] [].

(** [return results.flat().filter(Boolean)]. *)
Definition processInBatches (items : list I) (st : St) : St * list value :=
  let (st', results) := processInBatches_raw items st in
  (st', filter truthy (flat results)).

End ProcessInBatches.

Arguments mkTask {I K}.
Arguments t_id {I K}.
Arguments t_item {I K}.
Arguments t_cont {I K}.
Arguments settle {I}.
Arguments find_task {I K}.
Arguments remove_task {I K}.
Arguments remove_tasks {I K}.
Arguments chosen {I K}.
Arguments finishing {I K}.
Arguments run_finish {I St K}.
Arguments drive {I St K}.
Arguments processInBatches_raw {I St K}.
Arguments processInBatches {I St K}.

(** A processing function without effects on shared state: its outcome
    depends on the item only. *)
Section Pure.
Variable I : Type.
Variable item_value : I -> value.
Variable f : I -> outcome.

Definition pure_start (st : unit) (item : I) : unit * outcome := (st, f item).
Definition pure_finish (st : unit) (o : outcome) : unit * outcome := (st, o).

Definition processInBatches_pure (concurrencyLimit : Z) (sched : nat -> list nat)
           (items : list I) : list value :=
  snd (processInBatches item_value pure_start pure_finish concurrencyLimit sched items tt).

Definition processInBatches_pure_raw (concurrencyLimit : Z) (sched : nat -> list nat)
           (items : list I) : list value :=
  snd (processInBatches_raw item_value pure_start pure_finish concurrencyLimit sched
                            items tt).
End Pure.

Arguments processInBatches_pure {I}.
Arguments processInBatches_pure_raw {I}.

End Worker.

(* ------------------------------------------------------------------ *)
(** * JavaScript [Map] with string keys *)

Module JSMap.

(** Entries in insertion order; a key occurs once. *)
Definition t (V : Type) := list (string * V).

Section Ops.
Context {V : Type}.

Definition empty : t V := [].

Fixpoint get (k : string) (m : t V) : option V :=
  match m with
  | [] => None
  | (k', v) :: m' => if (k' =? k)%string then Some v else get k m'
  end.

Definition has (k : string) (m : t V) : bool :=
  match get k m with Some _ => true | None => false end.

(** [set] keeps the position of a key that is present and appends a new
    key at the end. *)
Fixpoint set (k : string) (v : V) (m : t V) : t V :=
  match m with
  | [] => [(k, v)]
  | (k', v') :: m' =>
      if (k' =? k)%string then (k, v) :: m' else (k', v') :: set k v m'
  end.

Definition keys (m : t V) : list string := map fst m.
Definition values (m : t V) : list V := map snd m.
Definition size (m : t V) : nat := length m.
End Ops.

End JSMap.

(* ------------------------------------------------------------------ *)
(** * The crawler ([src/utils/concurrent-crawler.js], the class with
      [processedUrlsMap]) *)

Module Crawler.
Import Js.

Local Open Scope string_scope.

(** ** Results and configuration *)

(** The result object of [processUrl]; the [timestamp] is left out. *)
Record ProcessingResult := mkResult {
  url : string;
  success : bool;
  metadata : option string;
  content : option string;
  error : option string
}.

Definition opt_value (o : option string) : value :=
  match o with Some s => VStr s | None => VUndefined end.

Definition result_value (r : ProcessingResult) : value :=
  VObj [("url", VStr (url r)); ("success", VBool (success r));
        ("metadata", opt_value (metadata r)); ("content", opt_value (content r));
        ("error", opt_value (error r))].

Record Webhook := mkWebhook {
  wh_url : option string;
  progressUpdates : bool
}.

(** The request handed to [createJob]: [None] is an absent field. *)
Record Request := mkRequest {
  rq_sitemapUrl : option string;
  rq_urls : option (list string);
  rq_nocache : option bool;
  rq_maxConcurrent : option Z;
  rq_batchSize : option Z;
  rq_processingDelay : option Z;
  rq_retryCount : option Z;
  rq_retryDelay : option Z;
  rq_targetSelectors : string;      (* JSON text of the list *)
  rq_removeSelectors : string;
  rq_webhook : option Webhook
}.

(** The [DEFAULT_*] variables of [process.env], read by [parseInt]; [None]
    is an unset variable. *)
Record Defaults := mkDefaults {
  DEFAULT_USE_CACHE : option string;
  DEFAULT_MAX_CONCURRENT : option Z;
  DEFAULT_BATCH_SIZE : option Z;
  DEFAULT_PROCESSING_DELAY : option Z;
  DEFAULT_RETRY_COUNT : option Z;
  DEFAULT_RETRY_DELAY : option Z
}.

Record Config := mkConfig {
  sitemapUrl : option string;
  urls : option (list string);
  nocache : bool;
  maxConcurrent : Z;
  batchSize : Z;
  processingDelay : Z;
  retryCount : Z;
  retryDelay : Z;
  targetSelectors : string;
  removeSelectors : string;
  webhook : option Webhook
}.

(** [x || d] on a number that may be absent: [undefined] and [0] are falsy. *)
Definition num_or (x : option Z) (d : Z) : Z :=
  match x with
  | Some n => if (n =? 0)%Z then d else n
  | None => d
  end.

(** [parseInt(process.env.X || 'd', 10)]. *)
Definition env_int (x : option Z) (d : Z) : Z :=
  match x with Some n => n | None => d end.

(** The [config] of the job built by [createJob] (lines 607-621). *)
Definition createJob_config (d : Defaults) (rq : Request) : Config :=
  mkConfig
    (rq_sitemapUrl rq) (rq_urls rq)
    (match rq_nocache rq with
     | Some b => b
     | None => negb (Cache.env_is (DEFAULT_USE_CACHE d) "true")
     end)
    (num_or (rq_maxConcurrent rq) (env_int (DEFAULT_MAX_CONCURRENT d) 5))
    (num_or (rq_batchSize rq) (env_int (DEFAULT_BATCH_SIZE d) 10))
    (num_or (rq_processingDelay rq) (env_int (DEFAULT_PROCESSING_DELAY d) 100))
    (num_or (rq_retryCount rq) (env_int (DEFAULT_RETRY_COUNT d) 2))
    (num_or (rq_retryDelay rq) (env_int (DEFAULT_RETRY_DELAY d) 3000))
    (rq_targetSelectors rq) (rq_removeSelectors rq) (rq_webhook rq).

(** ** [processUrl] (lines 901-1042) *)

(** A thrown value that is no [Error]: one whose [message] is [undefined]
    (a string, a number, an object without the field), or [null] or
    [undefined], on which reading [message] throws.  (A value whose
    [message] is neither a string nor [undefined] is left out.) *)
Inductive Stray :=
| NoMessage
| Nullish.

Definition is_nullish (v : Stray) : bool :=
  match v with
  | Nullish => true
  | NoMessage => false
  end.

(** One pass through the browser pipeline (create the page, navigate,
    extract the metadata, clean, convert): the Markdown with its metadata,
    the message of the [Error] thrown on the way, or the other value
    thrown. *)
Inductive PageOutcome :=
| PageOk (formattedMetadata markdown : string)
| PageErr (message : string)
| PageThrew (v : Stray).

Record Metrics := mkMetrics {
  totalProcessed : nat;
  successCount : nat;
  failCount : nat
}.

(** How a call ended; not a value of the program, kept to state the
    properties. *)
Inductive Ending :=
| FromCache
| Converted
| GaveUp (message : option string)
| Crashed.

Definition transient (message : string) : bool :=
  JsStr.str_includes "net::" message ||
  JsStr.str_includes "Navigation timeout" message ||
  JsStr.str_includes "Protocol error" message.

(** [job?.config?.retryCount || 2]. *)
Definition retry_limit (c : Config) : Z := num_or (Some (retryCount c)) 2.

Definition failure_result (u message : string) : ProcessingResult :=
  mkResult u false None None (Some message).

(** The failure record of a thrown value whose [message] is [undefined]. *)
Definition failure_without_message (u : string) : ProcessingResult :=
  mkResult u false None None None.

(** What the promise of [processUrl] settles to: the record returned, or
    the [TypeError] thrown by the [catch] block itself (line 1003 calls
    [error.message.includes], line 1018 reads [error.message]). *)
Inductive Settled :=
| Resolved (r : ProcessingResult)
| Rejected.

Record UrlRun := mkUrlRun {
  ur_cache : Cache.State ProcessingResult;
  ur_metrics : Metrics;
  ur_result : Settled;
  ur_ending : Ending;
  ur_retried : list string     (* the errors that were followed by a retry *)
}.

Section ProcessUrl.
(** The outcome of the pipeline at the attempt numbered by [retryCount]. *)
Variable browse : nat -> string -> PageOutcome.

Fixpoint processUrl_from (fuel : nat) (cs : Cache.State ProcessingResult)
         (m : Metrics) (u : string) (c : Config) (retryCount : nat)
         (retried : list string) : option UrlRun :=
  match fuel with
  | 0 => None
  | S fuel' =>
      let cacheKey := Cache.createCacheKey u (targetSelectors c) (removeSelectors c) in
      let bypassCache := nocache c in
      let (cs1, cachedResult) :=
        if bypassCache then (cs, None) else Cache.getCacheByKey cs cacheKey in
      match cachedResult with
      | Some r => Some (mkUrlRun cs1 m (Resolved r) FromCache retried)
      | None =>
          match browse retryCount u with
          | PageOk formattedMetadata markdown =>
              let result := mkResult u true (Some formattedMetadata) (Some markdown) None in
              let cs2 :=
                if bypassCache then cs1
                else fst (Cache.setCacheByKey cs1 cacheKey result false) in
              Some (mkUrlRun cs2
                      (mkMetrics (S (totalProcessed m)) (S (successCount m)) (failCount m))
                      (Resolved result) Converted retried)
          | PageErr message =>
              let shouldRetry :=
                (Z.of_nat retryCount <? retry_limit c)%Z && transient message in
              if shouldRetry then
                processUrl_from fuel' cs1 m u c (S retryCount) (retried ++ [message])
              else
                Some (mkUrlRun cs1
                        (mkMetrics (S (totalProcessed m)) (successCount m) (S (failCount m)))
                        (Resolved (failure_result u message)) (GaveUp (Some message))
                        retried)
          | PageThrew v =>
              (* [retryCount < limit && error.message.includes(...)]: the
                 right operand throws, and is evaluated only below the
                 limit; at the limit [error.message] is read for the
                 failure record. *)
              if (Z.of_nat retryCount <? retry_limit c)%Z || is_nullish v then
                Some (mkUrlRun cs1 m Rejected Crashed retried)
              else
                Some (mkUrlRun cs1
                        (mkMetrics (S (totalProcessed m)) (successCount m) (S (failCount m)))
                        (Resolved (failure_without_message u)) (GaveUp None) retried)
          end
      end
  end.

(** [processUrl(url, job)]: the retry count starts at 0 and a retry needs
    [retryCount < limit], so [limit + 1] calls are enough. *)
Definition processUrl (cs : Cache.State ProcessingResult) (m : Metrics)
           (u : string) (c : Config) : option UrlRun :=
  processUrl_from (S (Z.to_nat (retry_limit c))) cs m u c 0 [].
End ProcessUrl.

End Crawler.

(* ------------------------------------------------------------------ *)
(** * The job orchestrator ([createJob], [processJob], [saveJobState],
      [getJobStatus], [cancelJob]) *)

Module Orchestrator.
Import Js Crawler.

Inductive Status := Pending | Processing | Completed | Failed | Cancelled.

Definition is_completed (s : Status) : bool :=
  match s with Completed => true | _ => false end.

Definition is_cancelled (s : Status) : bool :=
  match s with Cancelled => true | _ => false end.

(** The job object.  [job_map] is [processedUrlsMap]; the sets
    [processedUrls], [successfulUrls] and [failedUrls] are written and never
    read, and are left out with the time stamps. *)
Record Job := mkJob {
  job_status : Status;
  job_cfg : Config;
  job_results : list ProcessingResult;
  job_processed : nat;
  job_success : nat;
  job_failed : nat;
  job_total : nat;
  job_map : JSMap.t ProcessingResult;
  job_batches : list (list string);
  job_currentBatch : nat;
  job_error : option string
}.

Definition set_status (s : Status) (j : Job) : Job :=
  mkJob s (job_cfg j) (job_results j) (job_processed j) (job_success j) (job_failed j)
        (job_total j) (job_map j) (job_batches j) (job_currentBatch j) (job_error j).

Definition set_error (e : string) (j : Job) : Job :=
  mkJob (job_status j) (job_cfg j) (job_results j) (job_processed j) (job_success j)
        (job_failed j) (job_total j) (job_map j) (job_batches j) (job_currentBatch j)
        (Some e).

Definition set_total (n : nat) (j : Job) : Job :=
  mkJob (job_status j) (job_cfg j) (job_results j) (job_processed j) (job_success j)
        (job_failed j) n (job_map j) (job_batches j) (job_currentBatch j) (job_error j).

Definition set_currentBatch (n : nat) (j : Job) : Job :=
  mkJob (job_status j) (job_cfg j) (job_results j) (job_processed j) (job_success j)
        (job_failed j) (job_total j) (job_map j) (job_batches j) n (job_error j).

Definition set_batches (bs : list (list string)) (j : Job) : Job :=
  mkJob (job_status j) (job_cfg j) (job_results j) (job_processed j) (job_success j)
        (job_failed j) (job_total j) (job_map j) bs (job_currentBatch j) (job_error j).

Definition set_map (m : JSMap.t ProcessingResult) (j : Job) : Job :=
  mkJob (job_status j) (job_cfg j) (job_results j) (job_processed j) (job_success j)
        (job_failed j) (job_total j) m (job_batches j) (job_currentBatch j) (job_error j).

Definition set_results (rs : list ProcessingResult) (j : Job) : Job :=
  mkJob (job_status j) (job_cfg j) rs (job_processed j) (job_success j)
        (job_failed j) (job_total j) (job_map j) (job_batches j) (job_currentBatch j)
        (job_error j).

Definition set_counts (p s f : nat) (j : Job) : Job :=
  mkJob (job_status j) (job_cfg j) (job_results j) p s f
        (job_total j) (job_map j) (job_batches j) (job_currentBatch j) (job_error j).

(** The summary object of a saved state and of a status report. *)
Record Summary := mkSummary {
  total : nat;
  processed : nat;
  successful : nat;
  failed : nat;
  currentBatch : nat;
  totalBatches : nat
}.

Record SavedState := mkSaved {
  saved_status : Status;
  saved_summary : Summary;
  saved_results : list ProcessingResult;
  saved_error : option string
}.

Definition summary_of (j : Job) : Summary :=
  mkSummary (job_total j) (job_processed j) (job_success j) (job_failed j)
            (job_currentBatch j) (length (job_batches j)).

(** [saveJobState] (lines 1090-1127): the job after the call and the state
    handed to [fs.writeFile]. *)
Definition saveJobState (j : Job) : Job * SavedState :=
  let j := if is_completed (job_status j) && negb (job_total j =? job_processed j)
           then set_total (job_processed j) j else j in
  (j, mkSaved (job_status j) (summary_of j) (job_results j) (job_error j)).

Record StatusReport := mkReport {
  rep_status : Status;
  rep_summary : Summary;
  rep_results : option (list ProcessingResult);
  hasResults : bool;
  rep_error : option string
}.

(** [getJobStatus] (lines 1280-1326) for a job held in memory. *)
Definition getJobStatus (j : Job) : StatusReport :=
  let summary := summary_of j in
  let summary :=
    if is_completed (job_status j) && negb (total summary =? processed summary)
    then mkSummary (processed summary) (processed summary) (successful summary)
                   (failed summary) (currentBatch summary) (totalBatches summary)
    else summary in
  mkReport (job_status j) summary
           (if job_processed j <=? 50 then Some (job_results j) else None)
           (0 <? length (job_results j)) (job_error j).

Record CancelReport := mkCancelReport {
  cr_status : Status;
  cr_processed : nat;
  cr_total : nat
}.

(** [cancelJob] (lines 1333-1353) for a job held in memory. *)
Definition cancelJob (j : Job) : Job * CancelReport :=
  let j := set_status Cancelled j in
  (j, mkCancelReport (job_status j) (job_processed j) (job_total j)).

Record FinalPayload := mkFinal {
  fp_status : Status;
  fp_summary : Summary;
  fp_successful : list ProcessingResult;
  fp_failed : list ProcessingResult
}.

(** The payload of [sendProgressWebhook] (the percentage is left out). *)
Definition progress_payload (j : Job) (batchIndex : nat) : Summary :=
  mkSummary (job_total j) (job_processed j) (job_success j) (job_failed j)
            (batchIndex + 1) (length (job_batches j)).

(** The payload of [sendWebhook] (lines 1194-1235). *)
Definition final_payload (j : Job) : FinalPayload :=
  mkFinal (job_status j) (summary_of j)
          (filter success (job_results j))
          (filter (fun r => negb (success r)) (job_results j)).

(** ** The driver and its environment *)

(** The points where [processJob] is suspended. *)
Inductive AwaitPoint :=
| AwSitemap
| AwBatch (batchIndex : nat)
| AwSave (batchIndex : nat)
| AwProgress (batchIndex : nat)
| AwDelay (batchIndex : nat)
| AwFinalSave
| AwFinalWebhook
| AwFailSave.

Inductive UrlOutcome :=
| UrlDone (r : ProcessingResult)
| UrlThrew (message : string).

(** Everything the driver does not decide: what the sitemap holds (or the
    error of the fetch), what the [n]-th call of [processUrl] gives, in which
    order the workers of a batch finish, and during which suspensions of the
    driver [cancelJob] is called. *)
Record World := mkWorld {
  fetchSitemapUrls : string -> string + list string;
  processUrl_outcome : nat -> string -> UrlOutcome;
  sched : nat -> nat -> list nat;
  cancel_at : AwaitPoint -> bool
}.

(** What an observer can see of a run. *)
Inductive Event :=
| Observed (p : AwaitPoint) (j : Job)       (* the job while the driver waits *)
| CancelReturned (r : CancelReport)
| Persisted (j : Job) (s : SavedState)      (* [saveJobState] wrote [s] *)
| ProgressSent (payload : Summary)
| FinalSent (payload : FinalPayload).

Record Driver := mkDriver {
  d_job : Job;
  d_trace : list Event;
  d_invoked : list string;     (* the URLs [processUrl] was called on, in order *)
  d_calls : nat
}.

Definition on_job (f : Job -> Job) (d : Driver) : Driver :=
  mkDriver (f (d_job d)) (d_trace d) (d_invoked d) (d_calls d).

Definition log (es : list Event) (d : Driver) : Driver :=
  mkDriver (d_job d) (d_trace d ++ es) (d_invoked d) (d_calls d).

(** A suspension of the driver: the job is visible to [getJobStatus], and
    [cancelJob] may be called. *)
Definition await (w : World) (p : AwaitPoint) (d : Driver) : Driver :=
  if cancel_at w p then
    let (j', r) := cancelJob (d_job d) in
    on_job (fun _ => j') (log [Observed p (d_job d); CancelReturned r; Observed p j'] d)
  else log [Observed p (d_job d)] d.

Definition save (d : Driver) : Driver :=
  let (j, s) := saveJobState (d_job d) in
  on_job (fun _ => j) (log [Persisted j s] d).

(** ** One batch: the processing function of lines 791-804 *)

Record BatchState := mkBatch {
  b_map : JSMap.t ProcessingResult;
  b_invoked : list string;
  b_calls : nat
}.

(** A started worker: it returns the entry it found, or waits for
    [processUrl]. *)
Inductive Cont :=
| Skip (r : ProcessingResult)
| Proc (u : string) (call : nat).

Definition start_url (st : BatchState) (u : string) : BatchState * Cont :=
  match JSMap.get u (b_map st) with
  | Some r => (st, Skip r)
  | None => (mkBatch (b_map st) (b_invoked st ++ [u]) (S (b_calls st)),
             Proc u (b_calls st))
  end.

Definition finish_url (w : World) (st : BatchState) (k : Cont) : BatchState * outcome :=
  match k with
  | Skip r => (st, Returned (result_value r))
  | Proc u call =>
      match processUrl_outcome w call u with
      | UrlDone r =>
          (mkBatch (JSMap.set u r (b_map st)) (b_invoked st) (b_calls st),
           Returned (result_value r))
      | UrlThrew message => (st, Threw message)
      end
  end.

Definition run_batch (w : World) (batchIndex : nat) (batch : list string)
           (d : Driver) : Driver :=
  let j := d_job d in
  let (st, _) :=
    Worker.processInBatches VStr start_url (finish_url w)
                            (maxConcurrent (job_cfg j)) (sched w batchIndex) batch
                            (mkBatch (job_map j) (d_invoked d) (d_calls d)) in
  mkDriver (set_map (b_map st) j) (d_trace d) (b_invoked st) (b_calls st).

(** Lines 809-814 and 873-875: the counts are read off the map. *)
Definition recount (j : Job) : Job :=
  let vs := JSMap.values (job_map j) in
  set_counts (JSMap.size (job_map j))
             (length (filter success vs))
             (length (filter (fun r => negb (success r)) vs)) j.

Definition results_from_map (j : Job) : Job :=
  set_results (JSMap.values (job_map j)) j.

Definition send_progress (batchIndex : nat) (d : Driver) : Driver :=
  match webhook (job_cfg (d_job d)) with
  | Some wh =>
      match wh_url wh with
      | None | Some ""%string => d
      | Some _ => log [ProgressSent (progress_payload (d_job d) batchIndex)] d
      end
  | None => d
  end.

Definition wants_progress (j : Job) : bool :=
  match webhook (job_cfg j) with
  | Some wh => progressUpdates wh
  | None => false
  end.

(** The loop of lines 775-837; [batchIndex] is the index of the head of
    [bs].  A cancelled status ends the loop. *)
Fixpoint run_batches (w : World) (batchIndex : nat) (bs : list (list string))
         (d : Driver) : Driver :=
  match bs with
  | [] => d
  | batch :: bs' =>
      let d := on_job (set_currentBatch (batchIndex + 1)) d in
      if is_cancelled (job_status (d_job d)) then d
      else
        let d := await w (AwBatch batchIndex) d in
        let d := run_batch w batchIndex batch d in
        let d := on_job (fun j => recount (results_from_map j)) d in
        let d := await w (AwSave batchIndex) (save d) in
        let d := if wants_progress (d_job d)
                 then await w (AwProgress batchIndex) (send_progress batchIndex d)
                 else d in
        let d := if (batchIndex <? length (job_batches (d_job d)) - 1)
                    && (0 <? processingDelay (job_cfg (d_job d)))%Z
                 then await w (AwDelay batchIndex) d
                 else d in
        run_batches w (S batchIndex) bs' d
  end.

(** ** Enumeration, batching and the end of the job *)

(** [[...new Set(urls)]]: the first occurrence of each URL, in order. *)
Fixpoint distinct (seen l : list string) : list string :=
  match l with
  | [] => []
  | u :: l' =>
      if existsb (String.eqb u) seen then distinct seen l'
      else u :: distinct (u :: seen) l'
  end.

(** The loop of lines 768-770 from index [i]; it ends because the batch
    size is positive, within [length urls] steps. *)
Fixpoint batches_from (fuel : nat) (urls : list string) (batchSize i : nat)
  : list (list string) :=
  match fuel with
  | 0 => []
  | S fuel' =>
      if i <? length urls
      then firstn batchSize (skipn i urls) :: batches_from fuel' urls batchSize (i + batchSize)
      else []
  end.

(** [None]: with a negative batch size the index never reaches the length
    and the loop does not end ([0] is replaced by the default in
    [createJob]). *)
Definition make_batches (batchSize : Z) (urls : list string)
  : option (list (list string)) :=
  if (batchSize <=? 0)%Z then None
  else Some (batches_from (length urls) urls (Z.to_nat batchSize) 0).

Definition SKIPPED : string := "URL was skipped during processing"%string.

Definition add_skipped (j : Job) (u : string) : Job :=
  let failResult := failure_result u SKIPPED in
  set_counts (job_processed j) (job_success j) (job_failed j + 1)
    (set_map (JSMap.set u failResult (job_map j))
       (set_results (job_results j ++ [failResult]) j)).

(** The consistency check of lines 845-870. *)
Definition reconcile (urls : list string) (j : Job) : Job :=
  if job_success j + job_failed j =? job_total j then j
  else
    let processedUrls := map url (job_results j) in
    let missingUrls :=
      filter (fun u => negb (existsb (String.eqb u) processedUrls)) (distinct [] urls) in
    fold_left add_skipped missingUrls j.

Definition send_final (d : Driver) : Driver :=
  match webhook (job_cfg (d_job d)) with
  | Some wh =>
      match wh_url wh with
      | None | Some ""%string => d
      | Some _ => log [FinalSent (final_payload (d_job d))] d
      end
  | None => d
  end.

(** Lines 839-886. *)
Definition finalize (w : World) (urls : list string) (d : Driver) : Driver :=
  let d := on_job (fun j => recount (reconcile urls (set_status Completed j))) d in
  let d := await w AwFinalSave (save d) in
  match webhook (job_cfg (d_job d)) with
  | Some _ => await w AwFinalWebhook (send_final d)
  | None => d
  end.

(** The [catch] of lines 887-892. *)
Definition fail_job (w : World) (message : string) (d : Driver) : Driver :=
  let d := on_job (fun j => set_error message (set_status Failed j)) d in
  await w AwFailSave (save d).

Definition start_job (urls : list string) (j : Job) : Job :=
  set_map JSMap.empty (set_results [] (set_total (length urls) j)).

(** Lines 744-753: the URLs of the sitemap, or the URLs of the request;
    [inl] is the error thrown by the fetch. *)
Definition enumerate (w : World) (j : Job) : string + list string :=
  match sitemapUrl (job_cfg j) with
  | Some ""%string | None =>
      inr (match urls (job_cfg j) with Some l => l | None => [] end)
  | Some s => fetchSitemapUrls w s
  end.

Definition fetches_sitemap (j : Job) : bool :=
  match sitemapUrl (job_cfg j) with
  | Some ""%string | None => false
  | Some _ => true
  end.

(** Where the driver stands when the loop over the batches is reached. *)
Inductive Prepared :=
| Ready (d : Driver) (urls : list string) (bs : list (list string))
| Fails (d : Driver) (message : string)
| Diverges.

(** Lines 740-772: enumerate the URLs, set [total], reset the results and
    the map, cut the batches. *)
Definition prepare (w : World) (j : Job) : Prepared :=
  let d := mkDriver (set_status Processing j) [] [] 0 in
  let d := if fetches_sitemap j then await w AwSitemap d else d in
  match enumerate w j with
  | inl message => Fails d message
  | inr [] => Fails d "No valid URLs found"%string
  | inr urls =>
      match make_batches (batchSize (job_cfg j)) urls with
      | None => Diverges
      | Some bs => Ready (on_job (fun j => set_batches bs (start_job urls j)) d) urls bs
      end
  end.

(** [processJob] (lines 735-893).  [None] is a run that does not end. *)
Definition processJob (w : World) (j : Job) : option Driver :=
  match prepare w j with
  | Ready d urls bs => Some (finalize w urls (run_batches w 0 bs d))
  | Fails d message => Some (fail_job w message d)
  | Diverges => None
  end.

(** The job of [createJob] (lines 604-634) and its run. *)
Definition new_job (defaults : Defaults) (rq : Request) : Job :=
  mkJob Pending (createJob_config defaults rq) [] 0 0 0 0 JSMap.empty [] 0 None.

Definition createJob (w : World) (defaults : Defaults) (rq : Request) : option Driver :=
  processJob w (new_job defaults rq).

End Orchestrator.

(* ------------------------------------------------------------------ *)
(** * The loop that cuts the batches ([processJob], lines 766-770)

    The loop as it is written, on integers: the index starts at 0 and grows
    by [batchSize], which [createJob] takes from the request without a test
    of its sign.  A [batchSize] that is not an integer (a fraction in the
    body of the request) is outside this model. *)

Module Batching.

(** [Array.prototype.slice(start, end)] on integer arguments: a negative
    index counts from the end, and both are clamped to the array. *)
Definition slice {A : Type} (l : list A) (start stop : Z) : list A :=
  let len := Z.of_nat (length l) in
  let from := if (start <? 0)%Z then Z.max (len + start) 0 else Z.min start len in
  let to := if (stop <? 0)%Z then Z.max (len + stop) 0 else Z.min stop len in
  firstn (Z.to_nat (to - from)) (skipn (Z.to_nat from) l).

(** [for (let i = 0; i < urls.length; i += batchSize)
       job.batches.push(urls.slice(i, i + batchSize))]
    run for at most [passes] tests of the condition: the batches when the
    loop has ended by then, [None] when it is still running. *)
Fixpoint batch_loop (passes : nat) (urls : list string) (batchSize i : Z)
         (batches : list (list string)) : option (list (list string)) :=
  match passes with
  | 0 => None
  | S passes' =>
      if (i <? Z.of_nat (length urls))%Z
      then batch_loop passes' urls batchSize (i + batchSize)
                      (batches ++ [slice urls i (i + batchSize)])
      else Some batches
  end.

End Batching.

(* ------------------------------------------------------------------ *)
(** * The Firecrawl adapter ([src/utils/firecrawl.js], lines 179-226) *)

Module Firecrawl.
Import Crawler Orchestrator.

Local Open Scope string_scope.

Definition CHUNK_SIZE : nat := 10.

Definition status_name (s : Status) : string :=
  match s with
  | Pending => "pending"
  | Processing => "processing"
  | Completed => "completed"
  | Failed => "failed"
  | Cancelled => "cancelled"
  end.

(** [_mapStatus] (lines 217-226) on the statuses of a job. *)
Definition _mapStatus (internalStatus : Status) : string :=
  match internalStatus with
  | Pending => "queued"
  | Processing => "scraping"
  | s => status_name s
  end.

(** What [concurrentCrawler.getJobStatus(jobId)] hands to the adapter: the
    report of a job held in memory, the state read from the report file of
    a job that is not, or [{status: 'not_found'}]. *)
Inductive StatusAnswer :=
| Live (r : StatusReport)
| Stored (s : SavedState)
| NotFound.

(** The errors [getCrawlStatus] throws: [Error('Job not found')], and the
    [TypeError] of [status.results.slice] when [results] is [null]. *)
Inductive CrawlError :=
| JobNotFound
| ResultsIsNull.

(** An element of [data]; the fields read off [result.metadata] are left
    out. *)
Record PageData := mkPage {
  markdown : option string;
  sourceURL : string;
  statusCode : Z;
  pd_error : option string
}.

(** [result.error || null]: the empty string is falsy. *)
Definition error_or_null (e : option string) : option string :=
  match e with
  | None | Some "" => None
  | Some m => Some m
  end.

Definition page_of (result : ProcessingResult) : PageData :=
  mkPage (content result) (url result) (if success result then 200 else 500)
         (error_or_null (error result)).

(** The answer of [getCrawlStatus]; [next] is the [skip] of the link
    [/v1/crawl/<jobId>?skip=<n>], [expiresAt] is left out. *)
Record CrawlStatus := mkCrawlStatus {
  status : string;
  cs_total : nat;
  completed : nat;
  creditsUsed : nat;
  next : option nat;
  data : option (list PageData)
}.

(** Lines 188-210.  Neither a report nor a stored state has a field [skip],
    so [Number(status.skip || 0)] is 0. *)
Definition crawl_status (st : Status) (summary : Summary)
           (results : option (list ProcessingResult)) : CrawlError + CrawlStatus :=
  let skip := 0 in
  let hasMore := (CHUNK_SIZE <? total summary - skip)%nat in
  let answer :=
    mkCrawlStatus (_mapStatus st) (total summary) (processed summary) (processed summary)
                  (if hasMore then Some (skip + CHUNK_SIZE)%nat else None) in
  if is_completed st then
    match results with
    | Some rs => inr (answer (Some (map page_of (firstn CHUNK_SIZE (skipn skip rs)))))
    | None => inl ResultsIsNull
    end
  else inr (answer None).

(** [getCrawlStatus] (lines 179-215). *)
Definition getCrawlStatus (a : StatusAnswer) : CrawlError + CrawlStatus :=
  match a with
  | NotFound => inl JobNotFound
  | Live r => crawl_status (rep_status r) (rep_summary r) (rep_results r)
  | Stored s => crawl_status (saved_status s) (saved_summary s) (Some (saved_results s))
  end.

End Firecrawl.

(* ------------------------------------------------------------------ *)
(** * The results of a job ([getJobResults], lines 1377-1403) *)

Module Results.
Import Crawler Orchestrator.

(** The [summary] of [getJobResults]: four counts. *)
Record Counts := mkCounts {
  c_total : nat;
  c_processed : nat;
  c_successful : nat;
  c_failed : nat
}.

Record JobResults := mkJobResults {
  jr_status : Status;
  jr_results : list ProcessingResult;
  jr_summary : Counts
}.

(** [getJobResults] for a job held in memory: the fields of the job as
    they are. *)
Definition getJobResults (j : Job) : JobResults :=
  mkJobResults (job_status j) (job_results j)
               (mkCounts (job_total j) (job_processed j) (job_success j) (job_failed j)).

End Results.

(* ------------------------------------------------------------------ *)
(** * The content cleaner ([src/utils/cleaner.js]) *)

Module Cleaner.
Import JsStr Converter.

Definition is_backslash (c : N) : bool := (c =? BACKSLASH)%N.

(** The class [[\\`_]] without the backslash: a run of backslashes is
    maximal, so the character after it is not one. *)
Definition is_tick_or_underscore (c : N) : bool := (c =? BACKTICK)%N || (c =? 95)%N.

(** What a run of [n] backslashes leaves when no backtick or underscore
    follows it: a run of two or more matches (its last backslash is the
    captured character) and becomes one backslash; a single backslash does
    not match and stays. *)
Definition emit_backslashes (n : nat) : jsstring :=
  match n with
  | 0 => []
  | S _ => [BACKSLASH]
  end.

(** [s.replace(/\\+([\\`_])/g, '$1')]; [n] backslashes are pending. *)
Fixpoint unescape_runs_from (n : nat) (s : jsstring) : jsstring :=
  match s with
  | [] => emit_backslashes n
  | c :: s' =>
      if is_backslash c then unescape_runs_from (S n) s'
      else if (0 <? n) && is_tick_or_underscore c then c :: unescape_runs_from 0 s'
      else emit_backslashes n ++ c :: unescape_runs_from 0 s'
  end.

Definition unescape_runs (s : jsstring) : jsstring := unescape_runs_from 0 s.

(** [finalContentCleanup] (lines 141-154) on a string; the empty string is
    falsy and is returned as it is. *)
Definition finalContentCleanup (content : jsstring) : jsstring :=
  match content with
  | [] => []
  | _ =>
      let cleaned := strip_pipe_lines content in
      let cleaned := unescape_runs cleaned in
      collapse_newlines cleaned
  end.

(** ** The chain at the end of [cleanTextContent] (lines 179-187) *)

(** What a run of whitespace leaves under [/\s{2,}/g -> ' ']. *)
Definition emit_spaces (run : jsstring) : jsstring :=
  match run with
  | [] => []
  | [c] => [c]
  | _ => [SPACE]
  end.

(** [s.replace(/\s{2,}/g, ' ')]; [run] is the pending whitespace. *)
Fixpoint squeeze_from (run s : jsstring) : jsstring :=
  match s with
  | [] => emit_spaces run
  | c :: s' =>
      if is_space c then squeeze_from (run ++ [c]) s'
      else emit_spaces run ++ c :: squeeze_from [] s'
  end.

Definition squeeze (s : jsstring) : jsstring := squeeze_from [] s.

(** [[.,;:!?]] *)
Definition is_punct (c : N) : bool :=
  (c =? 46)%N || (c =? 44)%N || (c =? 59)%N || (c =? 58)%N || (c =? 33)%N || (c =? 63)%N.

(** [s.replace(/\s+([.,;:!?])/g, '$1')]: a run of whitespace goes when a
    punctuation mark follows it. *)
Fixpoint tighten_from (run s : jsstring) : jsstring :=
  match s with
  | [] => run
  | c :: s' =>
      if is_space c then tighten_from (run ++ [c]) s'
      else (if is_punct c then [] else run) ++ c :: tighten_from [] s'
  end.

Definition tighten (s : jsstring) : jsstring := tighten_from [] s.

(** What follows the last newline of [run], when it has one. *)
Fixpoint after_last_nl (run : jsstring) : option jsstring :=
  match run with
  | [] => None
  | c :: run' =>
      match after_last_nl run' with
      | Some b => Some b
      | None => if is_nl c then Some run' else None
      end
  end.

(** [s.replace(/\n\s+\n/g, '\n\n')].  At a newline, [\s+] takes the
    whitespace that follows and gives back as little as it must for a
    newline to come next: the match ends with the last newline of that
    whitespace, which is not its first character. *)
Fixpoint fix_paragraphs (fuel : nat) (s : jsstring) : jsstring :=
  match fuel with
  | 0 => s
  | S fuel' =>
      match s with
      | [] => []
      | c :: s' =>
          if is_nl c then
            let (run, rest) := span is_space s' in
            match run with
            | _ :: run' =>
                match after_last_nl run' with
                | Some b => NL :: NL :: fix_paragraphs fuel' (b ++ rest)
                | None => c :: fix_paragraphs fuel' s'
                end
            | [] => c :: fix_paragraphs fuel' s'
            end
          else c :: fix_paragraphs fuel' s'
      end
  end.

(** ** [cleanDocumentation] and [cleanTextContent] (lines 115-190) *)

Definition is_dash (c : N) : bool := (c =? 45)%N || (c =? 95)%N.

(** The line holds ten or more [-] or [_] in a row; [n] are pending. *)
Fixpoint has_rule_from (n : nat) (line : jsstring) : bool :=
  match line with
  | [] => 10 <=? n
  | c :: line' =>
      if is_dash c then has_rule_from (S n) line'
      else (10 <=? n) || has_rule_from 0 line'
  end.

Definition emit_unruled (line : jsstring) : jsstring :=
  if has_rule_from 0 line then [] else line.

(** [s.replace(/^.*[-_]{10,}.*$/gm, '')] *)
Fixpoint drop_ruled_lines_from (line s : jsstring) : jsstring :=
  match s with
  | [] => emit_unruled line
  | c :: s' =>
      if is_line_terminator c
      then emit_unruled line ++ c :: drop_ruled_lines_from [] s'
      else drop_ruled_lines_from (line ++ [c]) s'
  end.

Definition drop_ruled_lines (s : jsstring) : jsstring := drop_ruled_lines_from [] s.

(** [rules.formatPatterns]: the patterns come from [FORMAT_PATTERNS.json]
    or from the defaults, so each field is the effect of the [replace] that
    uses the pattern, with the replacement of the place where it is used. *)
Record Rules := mkRules {
  anyTableLine : jsstring -> jsstring;
  functionCallsWithPipes : jsstring -> jsstring;
  escapeChars : jsstring -> jsstring;
  trailingBackslashes : jsstring -> jsstring;
  pipeWithDashes : jsstring -> jsstring;
  excessiveNewlines : jsstring -> jsstring;
  markdownTags : jsstring -> jsstring;
  documentationArtifacts : jsstring -> jsstring;
  typeAnnotations : jsstring -> jsstring
}.

Definition cleanDocumentation (rules : Rules) (content : jsstring) : jsstring :=
  match content with
  | [] => []
  | _ =>
      let cleaned := anyTableLine rules content in
      let cleaned := functionCallsWithPipes rules cleaned in
      let cleaned := escapeChars rules cleaned in
      let cleaned := trailingBackslashes rules cleaned in
      let cleaned := pipeWithDashes rules cleaned in
      let cleaned := drop_ruled_lines cleaned in
      excessiveNewlines rules cleaned
  end.

Definition cleanTextContent (rules : Rules) (textContent : jsstring) : jsstring :=
  match textContent with
  | [] => []
  | _ =>
      let cleaned := cleanDocumentation rules textContent in
      let cleaned := markdownTags rules cleaned in
      let cleaned := documentationArtifacts rules cleaned in
      let cleaned := typeAnnotations rules cleaned in
      let cleaned := squeeze cleaned in
      let cleaned := tighten cleaned in
      let cleaned := fix_paragraphs (length cleaned) cleaned in
      trim cleaned
  end.

(** ** [cleanContent] (lines 195-524) *)

(** The options [cleanContent] reads; [None] is a field that is absent. *)
Record Options := mkOptions {
  aggressive_cleaning : option bool;
  clean_formatting : option bool
}.

(** What the page gives: [document.body.innerHTML] as the fast path and the
    last [catch] read it ([None] when [page.evaluate] is rejected), the
    inner HTML of the body after the removals of lines 211-424 (the empty
    string when that read is rejected), and the HTML returned by the
    clean-up run in the browser ([None] when it is rejected). *)
Record Page := mkPage {
  raw_html : option jsstring;
  raw_html_again : option jsstring;
  pruned_html : jsstring;
  browser_cleaned : option jsstring
}.

Definition cleanContent (rules : Rules) (page : Page) (options : Options) : jsstring :=
  match aggressive_cleaning options with
  | Some false =>
      match raw_html page with
      | Some html => html
      | None =>
          match raw_html_again page with
          | Some html => html
          | None => []
          end
      end
  | _ =>
      let cleanFormatting :=
        match clean_formatting options with Some false => false | _ => true end in
      let cleanedHtml := pruned_html page in
      match cleanFormatting, cleanedHtml with
      | true, _ :: _ =>
          let cleanedHtml :=
            match browser_cleaned page with
            | Some (c :: result) => c :: result
            | _ => cleanedHtml
            end in
          finalContentCleanup (cleanTextContent rules cleanedHtml)
      | _, _ => cleanedHtml
      end
  end.

End Cleaner.

(* ------------------------------------------------------------------ *)
(** * The server ([src/index.js]): [parseSelectors] and
      [convertUrlToMarkdown] *)

Module Server.
Import JsStr.

(** ** [parseSelectors] (lines 367-371) *)

Definition COMMA : N := 44%N.

(** [input.split(',')]; [piece] is the piece being read. *)
Fixpoint split_from (piece s : jsstring) : list jsstring :=
  match s with
  | [] => [piece]
  | c :: s' =>
      if (c =? COMMA)%N then piece :: split_from [] s'
      else split_from (piece ++ [c]) s'
  end.

Definition split_commas (s : jsstring) : list jsstring := split_from [] s.

(** The [input] of [parseSelectors], as the routes hand it over: a field
    that is absent, an array of strings, or a string. *)
Inductive SelectorInput :=
| Absent
| Listed (l : list jsstring)
| Text (s : jsstring).

(** [Boolean] on a string. *)
Definition truthy (s : jsstring) : bool :=
  match s with
  | [] => false
  | _ :: _ => true
  end.

Definition parseSelectors (input : SelectorInput) : list jsstring :=
  match input with
  | Absent => []
  | Listed l => l
  | Text [] => []
  | Text s => filter truthy (map Converter.trim (split_commas s))
  end.

(** ** [convertUrlToMarkdown] (lines 107-361) *)

Local Open Scope string_scope.

Definition MAX_RETRIES : nat := 2.

(** The fields of [options] that are read outside the browser pipeline.
    [nocache] is [options.nocache === true]; the selector lists are given
    by the JSON text of [options.x || []]; the two lengths are numbers,
    [None] when absent. *)
Record Options := mkOptions {
  nocache : bool;
  targetSelectors : string;
  removeSelectors : string;
  min_content_length : option Z;
  minContentLength : option Z
}.

(** [options.nocache = true] *)
Definition force_nocache (o : Options) : Options :=
  mkOptions true (targetSelectors o) (removeSelectors o)
            (min_content_length o) (minContentLength o).

(** [options.min_content_length || options.minContentLength ||
    parseInt(process.env.MIN_CONTENT_LENGTH, 10) || 500]; [env_min] is the
    number read by [parseInt], [None] for [NaN]. *)
Definition min_length (o : Options) (env_min : option Z) : Z :=
  Crawler.num_or (min_content_length o)
    (Crawler.num_or (minContentLength o) (Crawler.num_or env_min 500)).

Definition LF : string := String (ascii_of_nat 10) "".

(** The template of the returned document:
    [URL: ${url}\n\n${formattedMetadata}\n\n---\n\n${contentMarkdown}]. *)
Definition document (url formattedMetadata contentMarkdown : string) : string :=
  "URL: " ++ url ++ LF ++ LF ++ formattedMetadata ++ LF ++ LF ++ "---" ++ LF ++ LF
  ++ contentMarkdown.

(** The cache is the one of the crawler, reached through [isRedisEnabled],
    [getRedisClient] and [getLRUCache]. *)
Definition Store := Cache.State Crawler.ProcessingResult.

(** The record cached after a conversion: [{url, success: true, content:
    result, timestamp}]. *)
Definition cacheData (url result : string) : Crawler.ProcessingResult :=
  Crawler.mkResult url true None (Some result) None.

(** The read of the cache (lines 116-139, and again 327-347): an error of
    the shared tier is caught and reads as a miss. *)
Definition lookup (cs : Store) (cacheKey : string)
  : Store * option Crawler.ProcessingResult :=
  if Cache.isRedisEnabled cs then
    if Cache.redisHealthy cs
    then (cs, Cache.lru_find cacheKey (Cache.redisStore cs))
    else (cs, None)
  else if Cache.lru_has cacheKey (Cache.resultsCache cs) then
    let (c, v) := Cache.lru_get cacheKey (Cache.resultsCache cs) in
    (Cache.set_lru _ cs c, v)
  else (cs, None).

(** The write of the cache (lines 283-305); an error is caught. *)
Definition store (cs : Store) (cacheKey : string) (data : Crawler.ProcessingResult)
  : Store :=
  if Cache.isRedisEnabled cs then
    if Cache.redisHealthy cs
    then Cache.set_redis _ cs ((cacheKey, data) :: Cache.lru_remove cacheKey (Cache.redisStore cs))
    else cs
  else Cache.set_lru _ cs (Cache.lru_set cacheKey data (Cache.resultsCache cs)).

(** What a call can throw: the value that the pipeline threw, thrown
    again by line 355 (an [Error] with its message, or another value), or
    the [TypeError] of the test of lines 318-322, which calls
    [error.message.includes]. *)
Inductive Thrown :=
| ErrorOf (message : string)
| StrayValue (v : Crawler.Stray)
| TypeError.

(** What the promise settles to: the value returned ([None] is
    [undefined], the [content] of a cached record that has none), or the
    value thrown. *)
Inductive Outcome :=
| Returned (content : option string)
| Threw (e : Thrown).

(** How a call ended; not a value of the program, kept to state the
    properties. *)
Inductive Ending :=
| Hit
| Fresh (fallbackStage : nat)
| Rescued
| Failed.

Record Conversion := mkConversion {
  cv_cache : Store;
  cv_outcome : Outcome;
  cv_ending : Ending;
  cv_runs : list (nat * nat)   (* [(retryCount, fallbackStage)] of the pipeline runs *)
}.

Section Convert.
(** The outcome of the browser pipeline (create the page, navigate, scroll,
    extract the metadata, clean, convert) in the call with the given
    [retryCount] and [fallbackStage]. *)
Variable browse : nat -> nat -> string -> Crawler.PageOutcome.
(** [contentMarkdown.length] *)
Variable text_length : string -> Z.
(** [parseInt(process.env.MIN_CONTENT_LENGTH, 10)] *)
Variable MIN_CONTENT_LENGTH : option Z.

Fixpoint convertUrlToMarkdown_from (fuel : nat) (cs : Store) (url : string)
         (options : Options) (retryCount fallbackStage : nat)
         (runs : list (nat * nat)) : option Conversion :=
  match fuel with
  | 0 => None
  | S fuel' =>
      let options :=
        if Cache.env_is (Cache.DISABLE_ALL_CACHING (Cache.env cs)) "true"
        then force_nocache options else options in
      let bypassCache := nocache options in
      let cacheKey :=
        Cache.createCacheKey url (targetSelectors options) (removeSelectors options) in
      let (cs1, cached) :=
        if bypassCache then (cs, None) else lookup cs cacheKey in
      match cached with
      | Some cachedResult =>
          Some (mkConversion cs1 (Returned (Crawler.content cachedResult)) Hit runs)
      | None =>
          let min := min_length options MIN_CONTENT_LENGTH in
          let runs1 := (runs ++ [(retryCount, fallbackStage)])%list in
          match browse retryCount fallbackStage url with
          | Crawler.PageOk formattedMetadata contentMarkdown =>
              let short := (text_length contentMarkdown <? min)%Z in
              if short && (fallbackStage =? 0)%nat then
                convertUrlToMarkdown_from fuel' cs1 url options retryCount 1 runs1
              else if short && (fallbackStage =? 1)%nat then
                convertUrlToMarkdown_from fuel' cs1 url options retryCount 2 runs1
              else
                let result := document url formattedMetadata contentMarkdown in
                let cs2 :=
                  if bypassCache then cs1
                  else store cs1 cacheKey (cacheData url result) in
                Some (mkConversion cs2 (Returned (Some result)) (Fresh fallbackStage) runs1)
          | Crawler.PageErr message =>
              if (retryCount <? MAX_RETRIES)%nat && Crawler.transient message then
                convertUrlToMarkdown_from fuel' cs1 url options (S retryCount)
                                          fallbackStage runs1
              else
                let (cs2, cached2) :=
                  if bypassCache then (cs1, None) else lookup cs1 cacheKey in
                match cached2 with
                | Some cachedResult =>
                    Some (mkConversion cs2 (Returned (Crawler.content cachedResult))
                                       Rescued runs1)
                | None => Some (mkConversion cs2 (Threw (ErrorOf message)) Failed runs1)
                end
          | Crawler.PageThrew v =>
              (* [retryCount < MAX_RETRIES && error.message.includes(...)]:
                 the right operand throws, and is evaluated only below the
                 limit. *)
              if (retryCount <? MAX_RETRIES)%nat then
                Some (mkConversion cs1 (Threw TypeError) Failed runs1)
              else
                let (cs2, cached2) :=
                  if bypassCache then (cs1, None) else lookup cs1 cacheKey in
                match cached2 with
                | Some cachedResult =>
                    Some (mkConversion cs2 (Returned (Crawler.content cachedResult))
                                       Rescued runs1)
                | None => Some (mkConversion cs2 (Threw (StrayValue v)) Failed runs1)
                end
          end
      end
  end.

(** [convertUrlToMarkdown(url, options)]: a call that calls itself has
    raised [retryCount], which was below 2, or [fallbackStage], which was
    below 2, so five calls are enough. *)
Definition convertUrlToMarkdown (cs : Store) (url : string) (options : Options)
  : option Conversion :=
  convertUrlToMarkdown_from 5 cs url options 0 0 [].

End Convert.

End Server.

(* ================================================================== *)
(** * Part II: the vocabulary of the properties and sample inputs *)

Module ConverterSpec.
Import JsStr Converter.

(** A Turndown that returns a table row and a line of text. *)
Definition turndown_table : jsstring -> option jsstring :=
  fun _ => Some (js "| a | b |" ++ [NL] ++ js "text").

(** An input of the fallback path: Turndown throws, and JSDOM decodes the
    character reference [&#124;] of the paragraph to a pipe. *)
Definition sample_html : jsstring := js "<p>a &#124; b</p>".

(** A Turndown that throws. *)
Definition turndown_throws : jsstring -> option jsstring := fun _ => None.

(** The text JSDOM finds in the body of [sample_html]. *)
Definition jsdom_text : jsstring -> option jsstring :=
  fun html => if starts_with sample_html html then Some (js "a | b") else Some [].

(** How far the line being read has come: nothing read, characters but no
    pipe, or a pipe. *)
Inductive LineState :=
| EmptyLine
| NoPipeYet
| WithPipe.

Definition state_of (line : jsstring) : LineState :=
  if has_pipe line then WithPipe
  else match line with
       | [] => EmptyLine
       | _ :: _ => NoPipeYet
       end.

(** The line may end here: it is empty or holds a pipe. *)
Definition may_end (q : LineState) : bool :=
  match q with
  | NoPipeYet => false
  | EmptyLine | WithPipe => true
  end.

Definition after (q : LineState) (c : N) : LineState :=
  if is_pipe c then WithPipe
  else match q with
       | WithPipe => WithPipe
       | EmptyLine | NoPipeYet => NoPipeYet
       end.

(** Every line of [s] is empty or holds a pipe, the line being read at the
    start of [s] having come to [q]. *)
Fixpoint rows_from (q : LineState) (s : jsstring) : bool :=
  match s with
  | [] => may_end q
  | c :: s' =>
      if is_line_terminator c then may_end q && rows_from EmptyLine s'
      else rows_from (after q c) s'
  end.

(** A text made of rows of GFM tables and blank lines only: every line is
    empty or holds a pipe. *)
Definition table_rows_only (s : jsstring) : Prop :=
  Forall (fun l => l = [] \/ has_pipe l = true) (lines s).

(** A text made of line terminators only. *)
Definition blank (s : jsstring) : Prop :=
  Forall (fun c => is_line_terminator c = true) s.

(** [s'] is [s] with some characters deleted, none of them a pipe. *)
Inductive Thinned : jsstring -> jsstring -> Prop :=
| thin_nil : Thinned [] []
| thin_keep (c : N) (s s' : jsstring) : Thinned s s' -> Thinned (c :: s) (c :: s')
| thin_drop (c : N) (s s' : jsstring) :
    is_pipe c = false -> Thinned s s' -> Thinned (c :: s) s'.

(** Turndown on a body that is one table, of [rows_length] rows that the
    GFM plugin renders as [content]: what the rule makes of the table. *)
Definition one_table (rows_length : nat) (content : jsstring)
  : (jsstring -> nat -> jsstring) -> jsstring -> option jsstring :=
  fun rule _ => Some (rule content rows_length).

(** A table of a header row and one row of cells, and its GFM rendering. *)
Definition small_table_html : jsstring :=
  js "<table><tr><th>a</th><th>b</th></tr><tr><td>1</td><td>2</td></tr></table>".

Definition small_table_gfm : jsstring :=
  js "| a | b |" ++ [NL] ++ js "| --- | --- |" ++ [NL] ++ js "| 1 | 2 |".

End ConverterSpec.

Module CacheSpec.
Import Cache.
Local Open Scope string_scope.

(** A process started with [USE_REDIS=none] and no [DISABLE_ALL_CACHING]. *)
Definition unset_switch : State nat :=
  mkState (mkEnv (Some "none") None None) false false false [("k", 7)] [] true.

(** A process started with [USE_REDIS=none] and [DISABLE_ALL_CACHING=false]. *)
Definition explicit_false : State nat :=
  mkState (mkEnv (Some "none") None (Some "false")) false false false [] [] true.

(** The configuration asks for the shared tier: mode [internal], or mode
    [external] with a URL. *)
Definition redis_configured (e : Env) : bool :=
  (redisMode e =? "internal") ||
  ((redisMode e =? "external") &&
   match EXTERNAL_REDIS_URL e with
   | None | Some "" => false
   | Some _ => true
   end).

(** The tier that is in use answers: the shared tier is healthy, or the
    in-process tier is the one in use. *)
Definition tier_answers {V} (st : State V) : Prop :=
  isRedisEnabled st = true -> redisHealthy st = true.

(** A process in mode [external] without [EXTERNAL_REDIS_URL]. *)
Definition external_without_url : State nat :=
  mkState (mkEnv (Some "external") None None) false false false [] [] true.

(** An initialised process on the in-process tier. *)
Definition on_lru : State nat :=
  mkState (mkEnv (Some "none") None (Some "false")) false false true [("a", 1)] [] true.

End CacheSpec.

Module WorkerSpec.
Import Js Worker.

(** The numbers of the pending tasks. *)
Definition ids {I K : Type} (pending : list (task I K)) : list nat := map t_id pending.

Section PureValues.
Context {I : Type}.
Variable item_value : I -> value.
Variable f : I -> outcome.

(** What the promise of the task for [item] resolves with. *)
Definition result_of (item : I) : value := settle item_value item (f item).

(** What the promise of a started task resolves with. *)
Definition val (t : task I outcome) : value :=
  settle item_value (t_item t) (t_cont t).

(** The values of finished tasks, with the numbers of the tasks. *)
Definition tagged (ts : list (task I outcome)) : list (nat * value) :=
  map (fun t => (t_id t, val t)) ts.

End PureValues.

Local Open Scope string_scope.

(** The sub-sitemap fan-out of [fetchSitemapUrls]: the processing function
    returns the array of the URLs of a sitemap. *)
Definition two_urls (submap : string) : outcome :=
  Returned (VArr [VStr "https://a.example/1"; VStr "https://a.example/2"]).

(** A processing function that returns its item. *)
Definition echo (item : string) : outcome := Returned (VStr item).

(** A processing function that returns [null]. *)
Definition nothing (item : string) : outcome := Returned VNull.

(** The second task finishes before the first one. *)
Definition second_first (wait : nat) : list nat := [1; 0].

(** Accounting of a run of the group: a processing function that counts the
    tasks in flight.  [running] goes up when a task is started and down when
    it has finished; [peak] is the highest value [running] has had; [begun]
    lists the items in the order [processFn] was called on them; [ended]
    counts the tasks that have finished. *)
Section Accounting.
Context {I : Type}.

Record Load := mkLoad {
  running : nat;
  peak : nat;
  begun : list I;
  ended : nat
}.

Definition idle : Load := mkLoad 0 0 [] 0.

Definition load_start (l : Load) (item : I) : Load * I :=
  (mkLoad (S (running l)) (Nat.max (peak l) (S (running l))) (begun l ++ [item]) (ended l),
   item).

Definition load_finish (f : I -> outcome) (l : Load) (item : I) : Load * outcome :=
  (mkLoad (running l - 1) (peak l) (begun l) (S (ended l)), f item).

End Accounting.

Arguments Load : clear implicits.

(** [l] is [l'] with some elements left out: the same elements in the
    same order, each taken at most as often as it occurs. *)
Inductive Subseq {A : Type} : list A -> list A -> Prop :=
| Subseq_nil : Subseq [] []
| Subseq_skip (x : A) (l l' : list A) : Subseq l l' -> Subseq l (x :: l')
| Subseq_take (x : A) (l l' : list A) : Subseq l l' -> Subseq (x :: l) (x :: l').

(** The items handled one after the other: every task runs to its end
    before the next one is started. *)
Definition one_by_one {I St K : Type} (start : St -> I -> St * K)
           (finish : St -> K -> St * outcome) (items : list I) (st : St) : St :=
  fold_left (fun st item => let (st1, k) := start st item in fst (finish st1 k)) items st.

End WorkerSpec.

Module RetrySpec.
Import Crawler.
Local Open Scope string_scope.

(** The key under which [processUrl] caches the result of [u] for a job
    with the configuration [c]. *)
Definition key_of (u : string) (c : Config) : string :=
  Cache.createCacheKey u (targetSelectors c) (removeSelectors c).

(** The metrics after one more processed URL. *)
Definition counted (ok : bool) (m : Metrics) : Metrics :=
  if ok then mkMetrics (S (totalProcessed m)) (S (successCount m)) (failCount m)
  else mkMetrics (S (totalProcessed m)) (successCount m) (S (failCount m)).

Section Policy.
Variable browse : nat -> string -> PageOutcome.
Variable u : string.
Variable c : Config.

(** The attempt [i] is followed by a retry: it threw an error with a
    transient message while [i] was below the limit. *)
Definition retried_at (i : nat) : bool :=
  match browse i u with
  | PageErr message => (Z.of_nat i <? retry_limit c)%Z && transient message
  | PageOk _ _ | PageThrew _ => false
  end.

(** The attempt [k] is the last one: every attempt before it was followed
    by a retry, and it is not. *)
Definition last_attempt (k : nat) : Prop :=
  (forall i, i < k -> retried_at i = true) /\ retried_at k = false.

(** What a call whose last attempt is [k] hands back and leaves behind,
    read off the outcome of that attempt: the record of the conversion,
    cached unless the job bypasses the cache; the failure record of the
    error; or, for a thrown value that is no [Error], the [TypeError] of
    the [catch] block (below the limit, and for [null] and [undefined]) or
    a failure record without a message (at the limit).  The metrics count
    the URL once, except when the call throws. *)
Definition settled_by (cs : Cache.State ProcessingResult) (m : Metrics)
           (k : nat) (run : UrlRun) : Prop :=
  match browse k u with
  | PageOk formattedMetadata markdown =>
      let result := mkResult u true (Some formattedMetadata) (Some markdown) None in
      ur_result run = Resolved result /\
      ur_metrics run = counted true m /\
      ur_cache run
      = (if nocache c then cs
         else fst (Cache.setCacheByKey cs (key_of u c) result false))
  | PageErr message =>
      ur_result run = Resolved (failure_result u message) /\
      ur_metrics run = counted false m /\
      ur_cache run = cs
  | PageThrew v =>
      if (Z.of_nat k <? retry_limit c)%Z || is_nullish v
      then ur_result run = Rejected /\ ur_metrics run = m /\ ur_cache run = cs
      else ur_result run = Resolved (failure_without_message u) /\
           ur_metrics run = counted false m /\
           ur_cache run = cs
  end.

(** The record that the call finds in the cache, if it reads the cache
    and the key is there. *)
Definition cached (cs : Cache.State ProcessingResult) : option ProcessingResult :=
  if nocache c then None else snd (Cache.getCacheByKey cs (key_of u c)).

(** What a finished call has done, in terms of what its caller can see.
    A record found in the cache is returned as it is, with the metrics
    untouched and the pipeline not run.  Otherwise the pipeline was run
    until its last attempt [k]: the [k] attempts before it threw the
    transient errors that [ur_retried] lists, [k] is at most the limit
    [retryCount || 2], and the last attempt settles the call. *)
Definition answered (cs : Cache.State ProcessingResult) (m : Metrics)
           (run : UrlRun) : Prop :=
  match cached cs with
  | Some r =>
      ur_result run = Resolved r /\
      ur_metrics run = m /\
      ur_retried run = [] /\
      ur_cache run = fst (Cache.getCacheByKey cs (key_of u c))
  | None =>
      exists k,
        last_attempt k /\
        (Z.of_nat k <= Z.max 0 (retry_limit c))%Z /\
        length (ur_retried run) = k /\
        (forall i, i < k -> browse i u = PageErr (nth i (ur_retried run) "")) /\
        settled_by cs m k run
  end.

End Policy.

(** [DEFAULT_RETRY_COUNT=0] and a request without [retryCount]. *)
Definition no_retry_defaults : Defaults := mkDefaults None None None None (Some 0%Z) None.

(** A request for one URL, cache bypassed, nothing else given. *)
Definition one_url_request : Request :=
  mkRequest None (Some ["https://a.example/"]) (Some true) None None None None None
            "[]" "[]" None.

(** A site that resets every connection. *)
Definition always_reset (attempt : nat) (u : string) : PageOutcome :=
  PageErr "net::ERR_CONNECTION_RESET".

(** An empty in-process cache. *)
Definition fresh_cache : Cache.State ProcessingResult :=
  Cache.mkState (Cache.mkEnv None None (Some "false")) false false true [] [] true.

(** A site that converts at the first attempt. *)
Definition always_ok (attempt : nat) (u : string) : PageOutcome :=
  PageOk "title: A" "# A".

(** A site that cannot be reached at all. *)
Definition unreachable (attempt : nat) (u : string) : PageOutcome :=
  PageErr "unreachable".

(** A request for one URL that uses the cache. *)
Definition cached_request : Request :=
  mkRequest None (Some ["https://a.example/"]) (Some false) None None None None None
            "[]" "[]" None.

(** What a call leaves behind, by the way it ended: the metrics count the
    call once unless it was served from the cache or threw, and the cache
    is written only after a conversion by a job that uses the cache. *)
Definition accounted (cs : Cache.State ProcessingResult) (m : Metrics) (u : string)
           (c : Config) (run : UrlRun) : Prop :=
  match ur_ending run with
  | FromCache => ur_metrics run = m /\ nocache c = false
  | Converted =>
      ur_metrics run = mkMetrics (S (totalProcessed m)) (S (successCount m)) (failCount m) /\
      exists result,
        ur_result run = Resolved result /\
        ur_cache run
        = (if nocache c then cs
           else fst (Cache.setCacheByKey cs (key_of u c) result false))
  | GaveUp _ =>
      ur_metrics run = mkMetrics (S (totalProcessed m)) (successCount m) (S (failCount m)) /\
      ur_cache run = cs
  | Crashed => ur_metrics run = m /\ ur_cache run = cs
  end.

End RetrySpec.

Module OrchestratorSpec.
Import Js Crawler Orchestrator.

(** A completed job that enumerated three URLs and holds two entries. *)
Definition finished_job : Job :=
  mkJob Completed
        (mkConfig None (Some ["u"; "u"; "v"]%string) true 5 10 100 2 3000
                  "[]"%string "[]"%string None)
        [] 2 2 0 3 JSMap.empty [] 1 None.

(** Every URL converts, the workers finish in the order they were started,
    nobody cancels. *)
Definition plain_world : World :=
  mkWorld (fun _ => inr [])
          (fun _ u => UrlDone (mkResult u true (Some "m"%string) (Some "c"%string) None))
          (fun _ _ => []) (fun _ => false).

(** No [DEFAULT_*] variable is set. *)
Definition no_defaults : Defaults := mkDefaults None None None None None None.

(** A request for the URLs [us] with no cache, a webhook with progress
    updates, and the given batch size and concurrency. *)
Definition request_for (us : list string) (batchSize maxConcurrent : Z) : Request :=
  mkRequest None (Some us) (Some true) (Some maxConcurrent) (Some batchSize)
            None None None "[]"%string "[]"%string
            (Some (mkWebhook (Some "https://hooks.example/done"%string) true)).

(** What a summary shown to the outside satisfies: the counts add up, and
    under the status [completed] or [failed] the total is closed too. *)
Definition summary_ok (st : Status) (sm : Summary) : Prop :=
  processed sm = successful sm + failed sm /\
  (st = Completed \/ st = Failed -> total sm = processed sm).

(** Count closure of a summary. *)
Definition closed (sm : Summary) : Prop :=
  total sm = processed sm /\ processed sm = successful sm + failed sm.

(** What every event of a run satisfies. *)
Definition Good (e : Event) : Prop :=
  match e with
  | Observed _ j => summary_ok (rep_status (getJobStatus j)) (rep_summary (getJobStatus j))
  | CancelReturned _ => True
  | Persisted j s =>
      summary_ok (saved_status s) (saved_summary s) /\
      processed (saved_summary s) = JSMap.size (job_map j)
  | ProgressSent p => processed p = successful p + failed p
  | FinalSent p => closed (fp_summary p)
  end.

(** The counts of the job add up. *)
Definition Counted (j : Job) : Prop := job_processed j = job_success j + job_failed j.

(** [processed] is the size of the map of results. *)
Definition Mapped (j : Job) : Prop := job_processed j = JSMap.size (job_map j).

(** The status is neither [completed] nor [failed]. *)
Definition Running (j : Job) : Prop :=
  job_status j <> Completed /\ job_status j <> Failed.

(** The invariant of the loop over the batches. *)
Definition LoopInv (d : Driver) : Prop :=
  Forall Good (d_trace d) /\ Counted (d_job d) /\ Mapped (d_job d) /\ Running (d_job d).

(** The invariant once the counts are closed: after the last save, and for
    a job that has not enumerated its URLs yet. *)
Definition ClosedInv (d : Driver) : Prop :=
  Forall Good (d_trace d) /\ Counted (d_job d) /\ Mapped (d_job d) /\
  job_total (d_job d) = job_processed (d_job d).

(** A job that has not enumerated its URLs: all counts are 0. *)
Definition Fresh (j : Job) : Prop :=
  job_total j = 0 /\ job_processed j = 0 /\ job_success j = 0 /\ job_failed j = 0 /\
  job_map j = JSMap.empty.

(** The invariant before the URLs are enumerated. *)
Definition PreInv (d : Driver) : Prop :=
  Forall Good (d_trace d) /\ Fresh (d_job d) /\ Running (d_job d).

(** [cancelJob] is called while the first batch is in flight. *)
Definition cancel_in_first_batch : World :=
  mkWorld (fun _ => inr [])
          (fun _ u => UrlDone (mkResult u true (Some "m"%string) (Some "c"%string) None))
          (fun _ _ => [])
          (fun p => match p with AwBatch 0 => true | _ => false end).

(** Three URLs in batches of one, two workers. *)
Definition three_urls : Request := request_for ["a"; "b"; "c"]%string 1 2.

(** The four counts of a summary. *)
Definition brief (sm : Summary) : nat * nat * nat * nat :=
  (total sm, processed sm, successful sm, failed sm).

(** The states written by [saveJobState] during a run, in order. *)
Definition persisted_summaries (tr : list Event) : list (Status * (nat * nat * nat * nat)) :=
  flat_map (fun e => match e with
                     | Persisted _ s => [(saved_status s, brief (saved_summary s))]
                     | _ => []
                     end) tr.

(** The final webhooks sent during a run. *)
Definition final_webhooks (tr : list Event) : list (Status * (nat * nat * nat * nat)) :=
  flat_map (fun e => match e with
                     | FinalSent p => [(fp_status p, brief (fp_summary p))]
                     | _ => []
                     end) tr.

(** [processUrl] returns a record of the URL it was called on. *)
Definition faithful (w : World) : Prop :=
  forall n u r, processUrl_outcome w n u = UrlDone r -> url r = u.

(** The map of results holds URLs of the job, each once, each with a record
    of that URL. *)
Definition MapOK (urls : list string) (m : JSMap.t ProcessingResult) : Prop :=
  NoDup (JSMap.keys m) /\ incl (JSMap.keys m) urls /\
  Forall (fun kv => url (snd kv) = fst kv) m.

(** A started worker works on a URL of the job. *)
Definition cont_in (urls : list string) (k : Cont) : Prop :=
  match k with
  | Proc u _ => In u urls
  | Skip _ => True
  end.

(** What the loop keeps besides the counts: the map is sound, [job.results]
    lists its values, and [total] is the enumerated count. *)
Definition Tracked (urls : list string) (j : Job) : Prop :=
  MapOK urls (job_map j) /\ job_results j = JSMap.values (job_map j) /\
  job_total j = length urls.

(** What holds of the map and of [job.results] at the end of a job. *)
Definition Entries (urls : list string) (j : Job) : Prop :=
  NoDup (JSMap.keys (job_map j)) /\
  (forall u, In u urls <-> In u (JSMap.keys (job_map j))) /\
  map url (job_results j) = JSMap.keys (job_map j).

(** A driver at a batch boundary whose map of results holds [u]. *)
Definition known_driver : Driver :=
  mkDriver (mkJob Processing (createJob_config no_defaults (request_for ["u"; "v"]%string 1 5))
                  [] 1 1 0 2
                  [("u"%string, mkResult "u"%string true None (Some "c"%string) None)]
                  [["u"%string]; ["v"%string]] 0 None)
           [] ["u"%string] 1.

(** [processUrl] returns a result for every URL (it catches the errors of
    the browser pipeline itself). *)
Definition never_throws (w : World) : Prop :=
  forall n u, exists r, processUrl_outcome w n u = UrlDone r.

(** One pass of the loop over the batches, after the test of the status:
    the body of [run_batches] for the batch [batch] of index [batchIndex]. *)
Definition round (w : World) (batchIndex : nat) (batch : list string) (d : Driver)
  : Driver :=
  let d := await w (AwBatch batchIndex) d in
  let d := run_batch w batchIndex batch d in
  let d := on_job (fun j => recount (results_from_map j)) d in
  let d := await w (AwSave batchIndex) (save d) in
  let d := if wants_progress (d_job d)
           then await w (AwProgress batchIndex) (send_progress batchIndex d)
           else d in
  if (batchIndex <? length (job_batches (d_job d)) - 1)
     && (0 <? processingDelay (job_cfg (d_job d)))%Z
  then await w (AwDelay batchIndex) d
  else d.

(** No URL was handed to [processUrl] twice, and every URL handed to it
    has its entry in the map of results. *)
Definition Once (invoked : list string) (m : JSMap.t ProcessingResult) : Prop :=
  NoDup invoked /\ incl invoked (JSMap.keys m).

(** What a progress webhook reports: no more processed URLs than the
    total, and a batch number between 1 and the number of batches. *)
Definition progress_ok (e : Event) : Prop :=
  match e with
  | ProgressSent p =>
      processed p <= total p /\ 1 <= currentBatch p <= totalBatches p
  | _ => True
  end.

(** A request for the URLs [us], one worker, batches of [batchSize]. *)
Definition one_worker (us : list string) (batchSize : Z) : Request :=
  request_for us batchSize 1.

(** The four counts of a status report. *)
Definition report_counts (sm : Summary) : Results.Counts :=
  Results.mkCounts (total sm) (processed sm) (successful sm) (failed sm).

(** What an observer who calls [getJobResults] and [getJobStatus] on the
    job sees: the same four counts from both. *)
Definition same_counts (e : Event) : Prop :=
  match e with
  | Observed _ j =>
      Results.jr_summary (Results.getJobResults j)
      = report_counts (rep_summary (getJobStatus j))
  | _ => True
  end.

(** A completed job has its total closed on the processed count. *)
Definition Settled (j : Job) : Prop :=
  job_status j = Completed -> job_total j = job_processed j.

End OrchestratorSpec.

Module BatchingSpec.
Import Orchestrator.

(** Every batch holds at least one URL and at most [batchSize], and every
    batch except the last holds exactly [batchSize]. *)
Definition well_cut (batchSize : nat) (bs : list (list string)) : Prop :=
  Forall (fun b => 1 <= length b <= batchSize) bs /\
  Forall (fun b => length b = batchSize) (removelast bs).

End BatchingSpec.

Module FirecrawlSpec.
Import Crawler Orchestrator OrchestratorSpec.

(** The URLs [u0 .. u(n-1)], all different. *)
Definition numbered (n : nat) : list string :=
  map (fun i => String (ascii_of_nat (48 + i)) EmptyString) (seq 0 n).

(** A request for [n] different URLs in batches of 10. *)
Definition many_urls (n : nat) : Request := request_for (numbered n) 10 5.

End FirecrawlSpec.

Module CleanerSpec.
Import JsStr Converter Cleaner.

(** No two neighbours of the text are a [bad] pair. *)
Fixpoint no_pair (bad : N -> N -> bool) (s : jsstring) : bool :=
  match s with
  | [] => true
  | a :: s' =>
      match s' with
      | [] => true
      | b :: _ => negb (bad a b) && no_pair bad s'
      end
  end.

(** Two whitespace characters in a row. *)
Definition ws_ws (a b : N) : bool := is_space a && is_space b.

(** Whitespace before a punctuation mark. *)
Definition ws_punct (a b : N) : bool := is_space a && is_punct b.

(** A backslash before a backslash, a backtick or an underscore. *)
Definition escaped (a b : N) : bool :=
  is_backslash a && (is_backslash b || is_tick_or_underscore b).

(** Three newlines in a row. *)
Definition triple_nl (s : jsstring) : bool := includes [NL; NL; NL] s.

(** No newline of the text is the third of a run; [n] newlines precede
    the text. *)
Fixpoint nl_runs_ok (n : nat) (s : jsstring) : bool :=
  match s with
  | [] => true
  | c :: s' => if is_nl c then (n <? 2) && nl_runs_ok (S n) s' else nl_runs_ok 0 s'
  end.

(** The text neither starts nor ends with whitespace. *)
Definition trimmed (s : jsstring) : Prop :=
  trim_start s = s /\ trim_start (rev s) = rev s.

(** Whitespace-normalised text: single whitespace characters only, none
    before a punctuation mark, none at either end. *)
Definition tidy (s : jsstring) : Prop :=
  no_pair ws_ws s = true /\ no_pair ws_punct s = true /\ trimmed s.

(** Rules that change nothing. *)
Definition no_rules : Rules :=
  mkRules (fun s => s) (fun s => s) (fun s => s) (fun s => s) (fun s => s)
          (fun s => s) (fun s => s) (fun s => s) (fun s => s).

(** A page whose body holds a table row. *)
Definition table_page : Page :=
  mkPage (Some (js "<p>| a | b |</p>")) None (js "<p>| a | b |</p>") None.

(** A character that is the space character if it is whitespace. *)
Definition space_only (c : N) : Prop := is_space c = true -> c = SPACE.

(** One line of words: the only whitespace is the space character, never
    two in a row, none at either end, and the text is its own single
    line. *)
Definition one_line (s : jsstring) : Prop :=
  lines s = [s] /\
  Forall space_only s /\
  no_pair ws_ws s = true /\
  trimmed s.

(** A JSDOM that finds a paragraph break and a tab in the body. *)
Definition jsdom_two_paragraphs : jsstring -> option jsstring :=
  fun _ => Some (js "first" ++ [NL; NL] ++ js "second" ++ [9%N] ++ js "line").

End CleanerSpec.

Module ServerSpec.
Import JsStr Server.

(** [l.join(',')] *)
Fixpoint join_commas (l : list jsstring) : jsstring :=
  match l with
  | [] => []
  | [x] => x
  | x :: l' => x ++ COMMA :: join_commas l'
  end.

Definition has_comma (s : jsstring) : bool := existsb (fun c => (c =? COMMA)%N) s.

(** A selector that is not empty, holds no comma and neither starts nor
    ends with whitespace. *)
Definition clean_selector (x : jsstring) : Prop :=
  x <> [] /\ has_comma x = false /\ CleanerSpec.trimmed x.

Local Open Scope string_scope.

(** The calls that a call with these counters can still make, itself
    included. *)
Definition calls_left (retryCount fallbackStage : nat) : nat :=
  S ((2 - retryCount) + (2 - fallbackStage)).

(** The call bypasses the cache: [nocache] was asked for, or the master
    switch is ['true']. *)
Definition bypasses (cs : Store) (o : Options) : bool :=
  nocache o || Cache.env_is (Cache.DISABLE_ALL_CACHING (Cache.env cs)) "true".

(** The [options] after the first statement of the function. *)
Definition effective (cs : Store) (o : Options) : Options :=
  if Cache.env_is (Cache.DISABLE_ALL_CACHING (Cache.env cs)) "true"
  then force_nocache o else o.

Definition cache_key (url : string) (o : Options) : string :=
  Cache.createCacheKey url (targetSelectors o) (removeSelectors o).

Section Ended.
Variable browse : nat -> nat -> string -> Crawler.PageOutcome.
Variable text_length : string -> Z.
Variable env_min : option Z.

(** What holds of a finished call, by the way it ended.  A fresh
    conversion returns the document of a pipeline run whose Markdown is
    long enough or was made in stage 2, and caches it unless the cache is
    bypassed; a failed call leaves the cache as it was. *)
Definition ended (cs : Store) (url : string) (o : Options) (run : Conversion) : Prop :=
  match cv_ending run with
  | Hit => bypasses cs o = false
  | Fresh stage =>
      exists retry meta md,
        browse retry stage url = Crawler.PageOk meta md /\
        cv_outcome run = Returned (Some (document url meta md)) /\
        ((min_length o env_min <= text_length md)%Z \/ stage = 2) /\
        cv_cache run
        = (if bypasses cs o then cs
           else store cs (cache_key url o) (cacheData url (document url meta md)))
  | Rescued => bypasses cs o = false
  | Failed => cv_cache run = cs
  end.

Variable cs : Store.
Variable url : string.
Variable o : Options.

(** The run that follows the run [a = (retryCount, fallbackStage)], if one
    does: the next stage after a page whose Markdown is shorter than the
    minimum, below stage 2; the next attempt after a transient error, below
    [MAX_RETRIES]. *)
Definition next_run (a : nat * nat) : option (nat * nat) :=
  match browse (fst a) (snd a) url with
  | Crawler.PageOk _ md =>
      if (text_length md <? min_length o env_min)%Z && (snd a <? 2)%nat
      then Some (fst a, S (snd a)) else None
  | Crawler.PageErr message =>
      if (fst a <? MAX_RETRIES)%nat && Crawler.transient message
      then Some (S (fst a), snd a) else None
  | Crawler.PageThrew _ => None
  end.

(** [rest] are the runs made after the run [a], each the one that follows
    its predecessor, and no run follows the last. *)
Fixpoint follows (a : nat * nat) (rest : list (nat * nat)) : Prop :=
  match rest with
  | [] => next_run a = None
  | b :: rest' => next_run a = Some b /\ follows b rest'
  end.

(** What the call hands back and leaves behind when [a] is its last run:
    the document of the page, cached unless the cache is bypassed; the
    error of the run, thrown again; or, for a thrown value that is no
    [Error], the [TypeError] of the test of the [catch] block below
    [MAX_RETRIES] and the value itself at [MAX_RETRIES]. *)
Definition settles (a : nat * nat) (run : Conversion) : Prop :=
  match browse (fst a) (snd a) url with
  | Crawler.PageOk meta md =>
      cv_outcome run = Returned (Some (document url meta md)) /\
      cv_cache run
      = (if bypasses cs o then cs
         else store cs (cache_key url o) (cacheData url (document url meta md)))
  | Crawler.PageErr message =>
      cv_outcome run = Threw (ErrorOf message) /\ cv_cache run = cs
  | Crawler.PageThrew v =>
      cv_outcome run
      = Threw (if (fst a <? MAX_RETRIES)%nat then TypeError else StrayValue v) /\
      cv_cache run = cs
  end.

(** The record that the call finds in the cache, if it reads the cache
    and the key is there. *)
Definition found : option Crawler.ProcessingResult :=
  if bypasses cs o then None else snd (lookup cs (cache_key url o)).

(** What a finished call has done, in terms of what its caller can see.
    The [content] of a record found in the cache is returned, and the
    pipeline is not run.  Otherwise the pipeline runs from [(0, 0)], each
    run followed by the next, and the last run settles the call. *)
Definition explained (run : Conversion) : Prop :=
  match found with
  | Some r =>
      cv_outcome run = Returned (Crawler.content r) /\
      cv_runs run = [] /\
      cv_cache run = fst (lookup cs (cache_key url o))
  | None =>
      exists rest,
        cv_runs run = (0, 0) :: rest /\
        follows (0, 0) rest /\
        settles (last rest (0, 0)) run
  end.

End Ended.

(** A page whose Markdown is always five characters long. *)
Definition short_page (retryCount fallbackStage : nat) (u : string) : Crawler.PageOutcome :=
  Crawler.PageOk "title: A" "# A".

(** Options of a request that uses the cache and gives nothing else. *)
Definition plain_options : Options := mkOptions false "[]" "[]" None None.

End ServerSpec.

(* ================================================================== *)
(** * Part III: properties *)

(** ** Properties of the converter *)

Module ConverterFacts.
Import JsStr Converter ConverterSpec.

Lemma span_length (p : N -> bool) (s : jsstring) :
  length (snd (span p s)) <= length s.
Proof.
  induction s as [|c s IH]; simpl; [lia|].
  destruct (p c); simpl; [|lia].
  destruct (span p s); simpl in *; lia.
Qed.

Lemma span_split (p : N -> bool) (s a b : jsstring) :
  span p s = (a, b) -> s = a ++ b.
Proof.
  revert a b. induction s as [|c s IH]; simpl; intros a b H.
  - injection H as <- <-. reflexivity.
  - destruct (p c).
    + destruct (span p s) as [a' b'] eqn:E. injection H as <- <-.
      simpl. f_equal. apply IH. reflexivity.
    + injection H as <- <-. reflexivity.
Qed.

Lemma has_pipe_app (a b : jsstring) :
  has_pipe (a ++ b) = has_pipe a || has_pipe b.
Proof. apply existsb_app. Qed.

Lemma terminator_not_pipe (c : N) :
  is_line_terminator c = true -> is_pipe c = false.
Proof.
  unfold is_line_terminator, is_pipe, PIPE; intros H.
  repeat (apply orb_true_iff in H; destruct H as [H|H]);
    apply N.eqb_eq in H; subst; reflexivity.
Qed.

Lemma emit_line_no_pipe (line : jsstring) : has_pipe (emit_line line) = false.
Proof.
  unfold emit_line, has_pipe.
  destruct (existsb is_pipe line) eqn:E; [reflexivity | exact E].
Qed.

Lemma strip_pipe_lines_from_no_pipe (s line : jsstring) :
  has_pipe (strip_pipe_lines_from line s) = false.
Proof.
  revert line; induction s as [|c s IH]; intros line; simpl.
  - apply emit_line_no_pipe.
  - destruct (is_line_terminator c) eqn:T; [|apply IH].
    rewrite has_pipe_app, emit_line_no_pipe; simpl.
    rewrite (terminator_not_pipe c T); simpl.
    apply IH.
Qed.

(** The pipe-line pass leaves no pipe at all. *)
Lemma strip_pipe_lines_no_pipe (s : jsstring) :
  has_pipe (strip_pipe_lines s) = false.
Proof. apply strip_pipe_lines_from_no_pipe. Qed.

Lemma lines_from_no_pipe (s line : jsstring) :
  has_pipe line = false -> has_pipe s = false ->
  Forall (fun l => has_pipe l = false) (lines_from line s).
Proof.
  revert line; induction s as [|c s IH]; intros line Hl Hs; simpl.
  - constructor; [exact Hl | constructor].
  - simpl in Hs. apply orb_false_iff in Hs as [Hc Hs].
    destruct (is_line_terminator c).
    + constructor; [exact Hl|]. apply IH; [reflexivity | exact Hs].
    + apply IH; [|exact Hs].
      rewrite has_pipe_app, Hl; simpl. rewrite Hc; reflexivity.
Qed.

Lemma no_pipe_lines (s : jsstring) :
  has_pipe s = false -> Forall (fun l => has_pipe l = false) (lines s).
Proof. intros H; apply lines_from_no_pipe; [reflexivity | exact H]. Qed.

Lemma remove_pipe_spans_id (s : jsstring) :
  has_pipe s = false -> remove_pipe_spans_from None s = s.
Proof.
  induction s as [|c s IH]; simpl; intros H; [reflexivity|].
  apply orb_false_iff in H as [Hc Hs].
  rewrite Hc, (IH Hs); reflexivity.
Qed.

Lemma unescape_no_pipe (n : nat) :
  forall s, length s <= n -> has_pipe s = false -> has_pipe (unescape s) = false.
Proof.
  induction n as [|n IH]; intros s Hn Hs.
  - destruct s; [reflexivity | simpl in Hn; lia].
  - destruct s as [|c1 [|c2 s]]; [reflexivity | exact Hs |].
    simpl in Hs. apply orb_false_iff in Hs as [H1 Hs].
    pose proof Hs as Hs'. simpl in Hs'. apply orb_false_iff in Hs' as [H2 Hs'].
    simpl in Hn.
    change (unescape (c1 :: c2 :: s))
      with (if (c1 =? BACKSLASH)%N && is_escapable c2
            then c2 :: unescape s else c1 :: unescape (c2 :: s)).
    destruct ((c1 =? BACKSLASH)%N && is_escapable c2).
    + change (has_pipe (c2 :: unescape s))
        with (is_pipe c2 || has_pipe (unescape s)).
      rewrite H2, orb_false_l. apply IH; [lia | exact Hs'].
    + change (has_pipe (c1 :: unescape (c2 :: s)))
        with (is_pipe c1 || has_pipe (unescape (c2 :: s))).
      rewrite H1, orb_false_l. apply IH; [simpl; lia | exact Hs].
Qed.

(** X5: after the pre-pass the HTML text holds no literal pipe; on the
    fallback path a pipe can only come back out of a character reference. *)
Lemma prepass_no_pipe (html : jsstring) : has_pipe (prepass html) = false.
Proof.
  unfold prepass. destruct html as [|c html]; [reflexivity|].
  set (s := strip_pipe_lines (c :: html)).
  assert (Hs : has_pipe s = false) by apply strip_pipe_lines_no_pipe.
  unfold remove_pipe_spans. rewrite (remove_pipe_spans_id s Hs).
  apply (unescape_no_pipe (length s)); [lia | exact Hs].
Qed.

(** *** The fuel of the scanning passes

    Each pass is run with the length of its text as fuel; a larger fuel gives
    the same result, so no pass stops short of the end of the text. *)

Lemma fence_open_fuel (n : nat) :
  forall (m : nat) (s : jsstring),
    length s <= n -> length s <= m -> fence_open n s = fence_open m s.
Proof.
  induction n as [|n IH]; intros m s Hn Hm.
  - destruct s; [|simpl in Hn; lia]. destruct m; reflexivity.
  - destruct m as [|m]; [destruct s; [reflexivity | simpl in Hm; lia]|].
    destruct s as [|c s']; [reflexivity|].
    cbn [fence_open].
    destruct (span is_backtick (c :: s')) as [ticks r1] eqn:E1.
    destruct (span is_word r1) as [word r2] eqn:E2.
    destruct (span is_nl r2) as [nls r3] eqn:E3.
    apply span_split in E1, E2, E3.
    assert (Hlen : length (c :: s') = length ticks + length word + length nls + length r3).
    { rewrite E1, E2, E3. rewrite !length_app. lia. }
    destruct ((3 <=? length ticks) && (2 <=? length nls)) eqn:C.
    + apply andb_true_iff in C as [C1 C2]. apply Nat.leb_le in C1, C2.
      simpl in Hlen, Hn, Hm.
      rewrite (IH m r3); [reflexivity | lia | lia].
    + simpl in Hn, Hm. rewrite (IH m s'); [reflexivity | lia | lia].
Qed.

Lemma fence_close_fuel (n : nat) :
  forall (m : nat) (s : jsstring),
    length s <= n -> length s <= m -> fence_close n s = fence_close m s.
Proof.
  induction n as [|n IH]; intros m s Hn Hm.
  - destruct s; [|simpl in Hn; lia]. destruct m; reflexivity.
  - destruct m as [|m]; [destruct s; [reflexivity | simpl in Hm; lia]|].
    destruct s as [|c s']; [reflexivity|].
    cbn [fence_close].
    destruct (span is_nl (c :: s')) as [nls r1] eqn:E1.
    destruct (span is_backtick r1) as [ticks r2] eqn:E2.
    apply span_split in E1, E2.
    assert (Hlen : length (c :: s') = length nls + length ticks + length r2).
    { rewrite E1, E2. rewrite !length_app. lia. }
    destruct ((2 <=? length nls) && (3 <=? length ticks)) eqn:C.
    + apply andb_true_iff in C as [C1 C2]. apply Nat.leb_le in C1, C2.
      simpl in Hlen, Hn, Hm.
      rewrite (IH m r2); [reflexivity | lia | lia].
    + simpl in Hn, Hm. rewrite (IH m s'); [reflexivity | lia | lia].
Qed.

Lemma find_on_line_length (pat s a b : jsstring) :
  find_on_line pat s = Some (a, b) -> length b <= length s.
Proof.
  revert a b. induction s as [|c s IH]; intros a b; cbn [find_on_line].
  - destruct (starts_with pat []); [|discriminate].
    intros [= <- <-]. rewrite length_skipn. lia.
  - destruct (starts_with pat (c :: s)).
    + intros [= <- <-]. rewrite length_skipn. lia.
    + destruct (is_line_terminator c); [discriminate|].
      destruct (find_on_line pat s) as [[a' b']|] eqn:E; [|discriminate].
      intros [= <- <-]. specialize (IH a' b' eq_refl). simpl. lia.
Qed.

Lemma fix_links_fuel (n : nat) :
  forall (m : nat) (s : jsstring),
    length s <= n -> length s <= m -> fix_links n s = fix_links m s.
Proof.
  induction n as [|n IH]; intros m s Hn Hm.
  - destruct s; [|simpl in Hn; lia]. destruct m; reflexivity.
  - destruct m as [|m]; [destruct s; [reflexivity | simpl in Hm; lia]|].
    destruct s as [|c s']; [reflexivity|].
    cbn [fix_links]. simpl in Hn, Hm.
    assert (Hs : fix_links n s' = fix_links m s') by (apply IH; lia).
    destruct (starts_with [BACKSLASH; LBRACKET] (c :: s')); [|rewrite Hs; reflexivity].
    destruct (find_on_line [BACKSLASH; RBRACKET; LPAREN] (skipn 2 (c :: s')))
      as [[g1 r1]|] eqn:E1; [|rewrite Hs; reflexivity].
    destruct (find_on_line [RPAREN] r1) as [[g2 r2]|] eqn:E2; [|rewrite Hs; reflexivity].
    apply find_on_line_length in E1, E2.
    assert (length (skipn 2 (c :: s')) <= length s').
    { change (skipn 2 (c :: s')) with (skipn 1 s'). rewrite length_skipn. lia. }
    rewrite (IH m r2); [reflexivity | lia | lia].
Qed.

(** X4: on the path where Turndown returns, no line of the Markdown returned
    by [convertToMarkdown] holds a pipe. *)
Lemma convertToMarkdown_main_path_pipe_free
      (turndown body_text : jsstring -> option jsstring) (html md : jsstring) :
  turndown (prepass html) = Some md ->
  Forall (fun l => has_pipe l = false)
         (lines (convertToMarkdown turndown body_text html)).
Proof.
  intros H. unfold convertToMarkdown. rewrite H.
  apply no_pipe_lines. unfold postpass. apply strip_pipe_lines_no_pipe.
Qed.

Lemma convertToMarkdown_main_path_pipe_free_witness :
  Forall (fun l => has_pipe l = false)
         (lines (convertToMarkdown turndown_table (fun _ => None) (js "<p>x</p>"))).
Proof.
  exact (convertToMarkdown_main_path_pipe_free
           turndown_table (fun _ => None) (js "<p>x</p>")
           (js "| a | b |" ++ [NL] ++ js "text") eq_refl).
Defined.

(** C8 (the code at the failing input): the text returned by the plain-text
    fallback keeps the pipe of [a &#124; b]; its only line is [a | b].  The
    pre-pass did not see it, and the fallback has no pipe pass. *)
Theorem convertToMarkdown_fallback_keeps_pipe :
  has_pipe sample_html = false /\
  convertToMarkdown turndown_throws jsdom_text sample_html = js "a | b" /\
  lines (convertToMarkdown turndown_throws jsdom_text sample_html) = [js "a | b"] /\
  has_pipe (js "a | b") = true.
Proof. repeat split; vm_compute; reflexivity. Qed.

(** *** Tables *)

Lemma state_of_snoc (line : jsstring) (c : N) :
  state_of (line ++ [c]) = after (state_of line) c.
Proof.
  unfold state_of, after. rewrite has_pipe_app. cbn [has_pipe existsb].
  rewrite orb_false_r. fold (has_pipe line).
  destruct (is_pipe c); [rewrite orb_true_r; reflexivity|].
  rewrite orb_false_r. destruct (has_pipe line); [reflexivity|].
  destruct line; reflexivity.
Qed.

Lemma may_end_emit (line : jsstring) :
  may_end (state_of line) = true -> emit_line line = [].
Proof.
  unfold state_of, emit_line. fold (has_pipe line).
  destruct (has_pipe line); [reflexivity|].
  destruct line; [reflexivity | discriminate].
Qed.

Lemma rows_from_lines (s line : jsstring) :
  Forall (fun l => l = [] \/ has_pipe l = true) (lines_from line s) ->
  rows_from (state_of line) s = true.
Proof.
  revert line. induction s as [|c s IH]; intros line; cbn [lines_from rows_from].
  - intros H. inversion H as [|? ? Hl _]; subst.
    unfold state_of. destruct Hl as [-> | ->]; reflexivity.
  - destruct (is_line_terminator c).
    + intros H. inversion H as [|? ? Hl Hs]; subst.
      pose proof (IH [] Hs) as H2. change (state_of []) with EmptyLine in H2.
      rewrite H2.
      unfold state_of. destruct Hl as [-> | ->]; reflexivity.
    + intros H. rewrite <- state_of_snoc. apply IH, H.
Qed.

Lemma rows_from_mono (s : jsstring) :
  (rows_from NoPipeYet s = true -> rows_from EmptyLine s = true) /\
  (rows_from EmptyLine s = true -> rows_from WithPipe s = true).
Proof.
  induction s as [|c s [IH1 IH2]]; cbn [rows_from may_end]; [split; [discriminate | auto]|].
  destruct (is_line_terminator c); [split; [discriminate | auto]|].
  unfold after. destruct (is_pipe c); [split; auto|].
  split; [auto | intros H; apply IH2, IH1, H].
Qed.

Lemma thinned_rows (s s' : jsstring) :
  Thinned s s' -> forall q, rows_from q s = true -> rows_from q s' = true.
Proof.
  induction 1 as [|c s s' _ IH | c s s' Hc _ IH]; intros q; cbn [rows_from].
  - exact (fun H => H).
  - destruct (is_line_terminator c); [|apply IH].
    intros H. apply andb_true_iff in H as [H1 H2]. rewrite H1. apply IH, H2.
  - intros H. apply IH.
    destruct (rows_from_mono s) as [M1 M2].
    destruct (is_line_terminator c).
    + apply andb_true_iff in H as [H1 H2].
      destruct q; [exact H2 | discriminate H1 | apply M2, H2].
    + unfold after in H. rewrite Hc in H.
      destruct q; [apply M1, H | exact H | exact H].
Qed.

Lemma strip_pipe_lines_blank (s line : jsstring) :
  rows_from (state_of line) s = true -> blank (strip_pipe_lines_from line s).
Proof.
  revert line. induction s as [|c s IH]; intros line; cbn [rows_from strip_pipe_lines_from].
  - intros H. rewrite (may_end_emit line H). constructor.
  - destruct (is_line_terminator c) eqn:T.
    + intros H. apply andb_true_iff in H as [H1 H2].
      rewrite (may_end_emit line H1). cbn [app].
      constructor; [exact T | apply (IH []), H2].
    + intros H. apply IH. rewrite state_of_snoc. exact H.
Qed.

Lemma Thinned_refl (s : jsstring) : Thinned s s.
Proof. induction s; constructor; assumption. Qed.

Lemma Thinned_app (a a' b b' : jsstring) :
  Thinned a a' -> Thinned b b' -> Thinned (a ++ b) (a' ++ b').
Proof.
  induction 1; intros Hb; cbn [app]; [exact Hb | |]; constructor; auto.
Qed.

Lemma Thinned_trans (a b : jsstring) :
  Thinned a b -> forall c, Thinned b c -> Thinned a c.
Proof.
  induction 1 as [|x s s' _ IH | x s s' Hx _ IH]; intros c Hc.
  - exact Hc.
  - inversion Hc; subst; constructor; auto.
  - constructor; auto.
Qed.

Lemma Thinned_repeat (x : N) (a : jsstring) :
  is_pipe x = false -> Forall (fun c => c = x) a ->
  forall n, n <= length a -> Thinned a (repeat x n).
Proof.
  intros Hx. induction 1 as [|c a -> _ IH]; intros n Hn.
  - destruct n; [constructor | cbn in Hn; lia].
  - destruct n as [|n]; cbn [repeat].
    + apply thin_drop; [exact Hx | apply (IH 0); lia].
    + apply thin_keep, IH. cbn in Hn. lia.
Qed.

Lemma span_all (p : N -> bool) (s a b : jsstring) :
  span p s = (a, b) -> Forall (fun c => p c = true) a.
Proof.
  revert a b. induction s as [|c s IH]; cbn [span]; intros a b H.
  - injection H as <- <-. constructor.
  - destruct (p c) eqn:E.
    + destruct (span p s) as [a' b'] eqn:S. injection H as <- <-.
      constructor; [exact E | apply (IH a' b'); reflexivity].
    + injection H as <- <-. constructor.
Qed.

Lemma span_of (x : N) (s a b : jsstring) :
  span (fun c => (c =? x)%N) s = (a, b) -> Forall (fun c => c = x) a.
Proof.
  intros H. apply span_all in H.
  eapply Forall_impl; [|exact H]. intros c E. apply N.eqb_eq, E.
Qed.

Lemma collapse_newlines_thinned (s : jsstring) :
  forall run, Thinned (repeat NL run ++ s) (collapse_newlines_from run s).
Proof.
  assert (Hemit : forall run, Thinned (repeat NL run) (emit_newlines run)).
  { intros run. unfold emit_newlines. destruct (3 <=? run) eqn:E; [|apply Thinned_refl].
    apply Nat.leb_le in E.
    apply (Thinned_repeat NL (repeat NL run) eq_refl) with (n := 2).
    - clear E. induction run; constructor; auto.
    - rewrite repeat_length. lia. }
  induction s as [|c s IH]; intros run; cbn [collapse_newlines_from].
  - rewrite app_nil_r. apply Hemit.
  - destruct (is_nl c) eqn:E.
    + apply N.eqb_eq in E. subst c.
      change (NL :: s) with ([NL] ++ s). rewrite app_assoc, <- repeat_cons.
      apply (IH (S run)).
    + apply Thinned_app; [apply Hemit|]. apply thin_keep, (IH 0).
Qed.

Lemma fence_open_thinned (fuel : nat) :
  forall s, Thinned s (fence_open fuel s).
Proof.
  induction fuel as [|fuel IH]; intros s; [apply Thinned_refl|].
  destruct s as [|c s']; [constructor|]. cbn [fence_open].
  destruct (span is_backtick (c :: s')) as [ticks r1] eqn:S1.
  destruct (span is_word r1) as [word r2] eqn:S2.
  destruct (span is_nl r2) as [nls r3] eqn:S3.
  destruct ((3 <=? length ticks) && (2 <=? length nls)) eqn:E;
    [|apply thin_keep, IH].
  apply andb_true_iff in E as [E1 E2]. apply Nat.leb_le in E1, E2.
  rewrite (span_split _ _ _ _ S1), (span_split _ _ _ _ S2), (span_split _ _ _ _ S3).
  apply Thinned_app.
  - apply (Thinned_repeat BACKTICK ticks eq_refl (span_of _ _ _ _ S1) 3 E1).
  - apply Thinned_app; [apply Thinned_refl|]. apply Thinned_app; [|apply IH].
    apply (Thinned_repeat NL nls eq_refl (span_of _ _ _ _ S3) 1). lia.
Qed.

Lemma fence_close_thinned (fuel : nat) :
  forall s, Thinned s (fence_close fuel s).
Proof.
  induction fuel as [|fuel IH]; intros s; [apply Thinned_refl|].
  destruct s as [|c s']; [constructor|]. cbn [fence_close].
  destruct (span is_nl (c :: s')) as [nls r1] eqn:S1.
  destruct (span is_backtick r1) as [ticks r2] eqn:S2.
  destruct ((2 <=? length nls) && (3 <=? length ticks)) eqn:E;
    [|apply thin_keep, IH].
  apply andb_true_iff in E as [E1 E2]. apply Nat.leb_le in E1, E2.
  rewrite (span_split _ _ _ _ S1), (span_split _ _ _ _ S2).
  change ([NL; BACKTICK; BACKTICK; BACKTICK] ++ fence_close fuel r2)
    with (repeat NL 1 ++ repeat BACKTICK 3 ++ fence_close fuel r2).
  apply Thinned_app.
  - apply (Thinned_repeat NL nls eq_refl (span_of _ _ _ _ S1) 1). lia.
  - apply Thinned_app; [|apply IH].
    apply (Thinned_repeat BACKTICK ticks eq_refl (span_of _ _ _ _ S2) 3 E2).
Qed.

Lemma starts_with_split (pat s : jsstring) :
  starts_with pat s = true -> s = pat ++ skipn (length pat) s.
Proof.
  revert s. induction pat as [|a pat IH]; intros s; [reflexivity|].
  destruct s as [|b s]; cbn [starts_with]; [discriminate|].
  intros H. apply andb_true_iff in H as [H1 H2]. apply N.eqb_eq in H1. subst b.
  cbn [length skipn app]. f_equal. apply IH, H2.
Qed.

Lemma find_on_line_split (pat s a b : jsstring) :
  find_on_line pat s = Some (a, b) -> s = a ++ pat ++ b.
Proof.
  revert a b. induction s as [|c s IH]; intros a b; cbn [find_on_line].
  - destruct (starts_with pat []) eqn:E; [|discriminate].
    intros [= <- <-]. apply starts_with_split, E.
  - destruct (starts_with pat (c :: s)) eqn:E.
    + intros [= <- <-]. apply starts_with_split, E.
    + destruct (is_line_terminator c); [discriminate|].
      destruct (find_on_line pat s) as [[a' b']|]; [|discriminate].
      intros [= <- <-]. cbn [app]. f_equal. apply IH. reflexivity.
Qed.

Lemma fix_links_thinned (fuel : nat) :
  forall s, Thinned s (fix_links fuel s).
Proof.
  induction fuel as [|fuel IH]; intros s; [apply Thinned_refl|].
  destruct s as [|c s']; [constructor|]. cbn [fix_links].
  destruct (starts_with [BACKSLASH; LBRACKET] (c :: s')) eqn:E;
    [|apply thin_keep, IH].
  destruct (find_on_line [BACKSLASH; RBRACKET; LPAREN] (skipn 2 (c :: s')))
    as [[g1 r1]|] eqn:F1; [|apply thin_keep, IH].
  destruct (find_on_line [RPAREN] r1) as [[g2 r2]|] eqn:F2; [|apply thin_keep, IH].
  rewrite (starts_with_split _ _ E). cbn [length].
  rewrite (find_on_line_split _ _ _ _ F1), (find_on_line_split _ _ _ _ F2).
  cbn [app]. apply thin_drop; [reflexivity|]. apply thin_keep.
  apply Thinned_app; [apply Thinned_refl|]. cbn [app].
  apply thin_drop; [reflexivity|]. apply thin_keep, thin_keep.
  apply Thinned_app; [apply Thinned_refl|]. cbn [app]. apply thin_keep, IH.
Qed.

(** The passes before the last one only delete characters, and never a
    pipe. *)
Lemma postpass_thinned (md : jsstring) :
  exists x, Thinned md x /\ postpass md = strip_pipe_lines x.
Proof.
  unfold postpass. eexists. split; [|reflexivity].
  eapply Thinned_trans; [apply (collapse_newlines_thinned md 0)|].
  eapply Thinned_trans; [apply fence_open_thinned|].
  eapply Thinned_trans; [apply fence_close_thinned|].
  apply fix_links_thinned.
Qed.

Lemma postpass_blank (md : jsstring) : table_rows_only md -> blank (postpass md).
Proof.
  intros H. destruct (postpass_thinned md) as (x & Hx & ->).
  apply (strip_pipe_lines_blank x []).
  apply (thinned_rows md x Hx), (rows_from_lines md []), H.
Qed.

Lemma tables_replacement_rows (content : jsstring) (rows_length : nat) :
  table_rows_only content -> table_rows_only (tables_replacement content rows_length).
Proof.
  intros H. unfold tables_replacement.
  destruct (_ || _); [|exact H].
  repeat constructor.
Qed.

(** C9 (counterexample): a table of two rows that the GFM plugin renders as
    three lines.  The [tables] rule hands the rendering on, Turndown returns
    it, and the converter returns two newlines: every line of the table was
    deleted by the last pass.  (And the rule itself drops a table of two
    rows whose rendering holds [|---].) *)
Lemma small_table_is_not_returned :
  2 <= 20 /\
  tables_replacement small_table_gfm 2 = small_table_gfm /\
  convertToMarkdown (turndownService (one_table 2 small_table_gfm)) jsdom_text
                    small_table_html
  = [NL; NL] /\
  tables_replacement (js "|---|") 2 = BLANK.
Proof. split; [lia|]. repeat split; vm_compute; reflexivity. Qed.

(** C9 (amended): the [tables] rule replaces a table by a blank line when
    it has more than 20 rows or its converted content contains [|---], and
    by its converted content, the GFM rendering of its rows, otherwise.
    But on the main path no table is returned in GFM syntax, whatever the
    number of its rows: no line of the returned Markdown holds a pipe, and
    when the output of Turndown is made of table rows and blank lines only
    (rows stay rows under the rule), the returned Markdown is made of line
    terminators only. *)
Theorem tables_are_dropped
        (library : (jsstring -> nat -> jsstring) -> jsstring -> option jsstring)
        (body_text : jsstring -> option jsstring) (html md : jsstring) :
  turndownService library (prepass html) = Some md ->
  (forall content rows_length,
      (20 < rows_length -> tables_replacement content rows_length = BLANK) /\
      (includes (js "|---") content = true ->
       tables_replacement content rows_length = BLANK) /\
      (rows_length <= 20 -> includes (js "|---") content = false ->
       tables_replacement content rows_length = content) /\
      (table_rows_only content ->
       table_rows_only (tables_replacement content rows_length))) /\
  Forall (fun l => has_pipe l = false)
         (lines (convertToMarkdown (turndownService library) body_text html)) /\
  (table_rows_only md ->
   blank (convertToMarkdown (turndownService library) body_text html)).
Proof.
  intros Hmd. split; [|split].
  - intros content rows_length. unfold tables_replacement. repeat split.
    + intros H. apply Nat.ltb_lt in H. rewrite H. reflexivity.
    + intros H. rewrite H, orb_true_r. reflexivity.
    + intros H1 H2. rewrite H2, orb_false_r.
      destruct (20 <? rows_length) eqn:E; [|reflexivity].
      apply Nat.ltb_lt in E. lia.
    + apply tables_replacement_rows.
  - unfold convertToMarkdown. rewrite Hmd.
    apply no_pipe_lines. unfold postpass. apply strip_pipe_lines_no_pipe.
  - intros Hrows. unfold convertToMarkdown. rewrite Hmd.
    apply postpass_blank, Hrows.
Qed.

Lemma tables_are_dropped_witness :
  blank (convertToMarkdown (turndownService (one_table 2 small_table_gfm))
                           jsdom_text small_table_html).
Proof.
  refine (proj2 (proj2 (tables_are_dropped
                          (one_table 2 small_table_gfm) jsdom_text
                          small_table_html _ eq_refl)) _).
  apply tables_replacement_rows. unfold table_rows_only.
  change (lines small_table_gfm)
    with [js "| a | b |"; js "| --- | --- |"; js "| 1 | 2 |"].
  repeat (constructor; [right; reflexivity|]). constructor.
Defined.

End ConverterFacts.

(** ** Properties of the content cleaner *)

Module CleanerFacts.
Import JsStr Converter Cleaner CleanerSpec.

(** *** Neighbours *)

Lemma no_pair_cons (bad : N -> N -> bool) (a : N) (s : jsstring) :
  (forall b, bad a b = false) -> no_pair bad s = true -> no_pair bad (a :: s) = true.
Proof.
  intros Ha Hs. destruct s as [|b s]; [reflexivity|].
  cbn [no_pair]. rewrite Ha. exact Hs.
Qed.

Lemma no_pair_tail (bad : N -> N -> bool) (a : N) (s : jsstring) :
  no_pair bad (a :: s) = true -> no_pair bad s = true.
Proof.
  destruct s as [|b s]; [reflexivity|]. cbn [no_pair].
  intros H. apply andb_true_iff in H. apply H.
Qed.

Lemma no_pair_head (bad : N -> N -> bool) (a b : N) (s : jsstring) :
  no_pair bad (a :: b :: s) = true -> bad a b = false.
Proof.
  cbn [no_pair]. intros H. apply andb_true_iff in H as [H _].
  apply negb_true_iff in H. exact H.
Qed.

Lemma no_pair_cons2 (bad : N -> N -> bool) (a b : N) (s : jsstring) :
  bad a b = false -> no_pair bad (b :: s) = true -> no_pair bad (a :: b :: s) = true.
Proof.
  intros Hab Hs. change (negb (bad a b) && no_pair bad (b :: s) = true).
  rewrite Hab, Hs. reflexivity.
Qed.

Lemma no_pair_suffix (bad : N -> N -> bool) (p s : jsstring) :
  no_pair bad (p ++ s) = true -> no_pair bad s = true.
Proof.
  induction p as [|a p IH]; simpl app; [auto|].
  intros H. apply IH. exact (no_pair_tail _ _ _ H).
Qed.

Lemma no_pair_prefix (bad : N -> N -> bool) (p s : jsstring) :
  no_pair bad (p ++ s) = true -> no_pair bad p = true.
Proof.
  induction p as [|a p IH]; [reflexivity|].
  destruct p as [|b p]; [reflexivity|].
  intros H. apply no_pair_cons2.
  - exact (no_pair_head _ _ _ _ H).
  - apply IH. exact (no_pair_tail _ _ _ H).
Qed.

(** *** Newlines *)

Lemma repeat_snoc (c : N) (n : nat) (s : jsstring) :
  repeat c (S n) ++ s = repeat c n ++ c :: s.
Proof.
  induction n as [|n IH]; [reflexivity|].
  change (c :: (repeat c (S n) ++ s) = c :: (repeat c n ++ c :: s)).
  rewrite IH. reflexivity.
Qed.

Lemma nl_is_nl : is_nl NL = true.
Proof. reflexivity. Qed.

Lemma is_nl_eq (c : N) : is_nl c = true -> c = NL.
Proof. unfold is_nl. apply N.eqb_eq. Qed.

Lemma nl_runs_ok_weaken (s : jsstring) :
  forall n m, m <= n -> nl_runs_ok n s = true -> nl_runs_ok m s = true.
Proof.
  induction s as [|c s IH]; intros n m Hm; [reflexivity|].
  cbn [nl_runs_ok]. destruct (is_nl c); [|auto].
  intros H. apply andb_true_iff in H as [H1 H2]. apply Nat.ltb_lt in H1.
  apply andb_true_iff. split; [apply Nat.ltb_lt; lia|].
  apply (IH (S n)); [lia | exact H2].
Qed.

Lemma nl_runs_ok_no_triple (s : jsstring) :
  nl_runs_ok 0 s = true -> triple_nl s = false.
Proof.
  unfold triple_nl. induction s as [|c s IH]; [reflexivity|].
  intros H. cbn [includes].
  assert (Hs : nl_runs_ok 0 s = true).
  { cbn [nl_runs_ok] in H. destruct (is_nl c); [|exact H].
    apply andb_true_iff in H as [_ H]. exact (nl_runs_ok_weaken s 1 0 ltac:(lia) H). }
  rewrite (IH Hs), orb_false_r.
  destruct s as [|c2 [|c3 s]]; cbn [starts_with]; rewrite ?andb_false_r; try reflexivity.
  destruct (NL =? c)%N eqn:E1; [|reflexivity].
  destruct (NL =? c2)%N eqn:E2; [|reflexivity].
  destruct (NL =? c3)%N eqn:E3; [|reflexivity].
  apply N.eqb_eq in E1, E2, E3. subst c c2 c3. discriminate H.
Qed.

Lemma nl_runs_ok_after_newlines (k : nat) (c : N) (s : jsstring) :
  k <= 2 -> is_nl c = false ->
  nl_runs_ok 0 (repeat NL k ++ c :: s) = nl_runs_ok 0 s.
Proof.
  intros Hk Hc.
  destruct k as [|[|[|k]]]; [| | |lia]; cbn; rewrite Hc; reflexivity.
Qed.

Lemma emit_newlines_repeat (run : nat) :
  exists k, k <= 2 /\ emit_newlines run = repeat NL k.
Proof.
  unfold emit_newlines. destruct (3 <=? run) eqn:E.
  - exists 2. split; [lia | reflexivity].
  - apply Nat.leb_gt in E. exists run. split; [lia | reflexivity].
Qed.

Lemma emit_newlines_pos (run : nat) :
  exists k, emit_newlines (S run) = repeat NL (S k).
Proof.
  unfold emit_newlines. destruct (3 <=? S run).
  - exists 1. reflexivity.
  - exists run. reflexivity.
Qed.

Lemma collapse_newlines_runs (s : jsstring) :
  forall run, nl_runs_ok 0 (collapse_newlines_from run s) = true.
Proof.
  induction s as [|c s IH]; intros run; cbn [collapse_newlines_from].
  - destruct (emit_newlines_repeat run) as [k [Hk ->]].
    destruct k as [|[|[|k]]]; [reflexivity.. | lia].
  - destruct (is_nl c) eqn:E; [apply IH|].
    destruct (emit_newlines_repeat run) as [k [Hk ->]].
    rewrite nl_runs_ok_after_newlines by assumption. apply IH.
Qed.

Lemma collapse_newlines_id (s : jsstring) :
  forall run, run <= 2 -> nl_runs_ok run s = true ->
              collapse_newlines_from run s = repeat NL run ++ s.
Proof.
  induction s as [|c s IH]; intros run Hrun H; cbn [collapse_newlines_from].
  - unfold emit_newlines. rewrite app_nil_r.
    destruct (3 <=? run) eqn:E; [apply Nat.leb_le in E; lia | reflexivity].
  - cbn [nl_runs_ok] in H. destruct (is_nl c) eqn:E.
    + apply andb_true_iff in H as [H1 H2]. apply Nat.ltb_lt in H1.
      rewrite IH by (lia || exact H2).
      apply is_nl_eq in E. subst c. apply repeat_snoc.
    + rewrite (IH 0) by (lia || exact H).
      unfold emit_newlines.
      destruct (3 <=? run) eqn:E3; [apply Nat.leb_le in E3; lia | reflexivity].
Qed.

Lemma collapse_newlines_idempotent (s : jsstring) :
  collapse_newlines (collapse_newlines s) = collapse_newlines s.
Proof.
  unfold collapse_newlines at 1.
  rewrite collapse_newlines_id; [reflexivity | lia | apply collapse_newlines_runs].
Qed.

Lemma nl_not_pipe (c : N) : is_nl c = true -> is_pipe c = false.
Proof. intros H. apply is_nl_eq in H. subst c. reflexivity. Qed.

Lemma repeat_nl_no_pipe (k : nat) : has_pipe (repeat NL k) = false.
Proof. induction k as [|k IH]; [reflexivity | exact IH]. Qed.

Lemma collapse_newlines_no_pipe (s : jsstring) :
  forall run, has_pipe s = false -> has_pipe (collapse_newlines_from run s) = false.
Proof.
  induction s as [|c s IH]; intros run H; cbn [collapse_newlines_from].
  - destruct (emit_newlines_repeat run) as [k [_ ->]]. apply repeat_nl_no_pipe.
  - cbn in H. apply orb_false_iff in H as [Hc Hs].
    destruct (is_nl c); [apply IH, Hs|].
    destruct (emit_newlines_repeat run) as [k [_ ->]].
    rewrite ConverterFacts.has_pipe_app, repeat_nl_no_pipe. cbn.
    rewrite Hc. apply IH, Hs.
Qed.

(** *** Pipes *)

Lemma strip_pipe_lines_id (s : jsstring) :
  forall line, has_pipe line = false -> has_pipe s = false ->
               strip_pipe_lines_from line s = line ++ s.
Proof.
  induction s as [|c s IH]; intros line Hl Hs; cbn [strip_pipe_lines_from].
  - unfold emit_line. unfold has_pipe in Hl. rewrite Hl, app_nil_r. reflexivity.
  - cbn in Hs. apply orb_false_iff in Hs as [Hc Hs].
    destruct (is_line_terminator c).
    + unfold emit_line. unfold has_pipe in Hl. rewrite Hl.
      rewrite (IH [] eq_refl Hs). reflexivity.
    + rewrite IH; [rewrite <- app_assoc; reflexivity | | exact Hs].
      rewrite ConverterFacts.has_pipe_app, Hl. cbn. rewrite Hc. reflexivity.
Qed.

(** *** Backslashes *)

Lemma backslash_not_pipe (c : N) : is_backslash c = true -> is_pipe c = false.
Proof. unfold is_backslash. intros H. apply N.eqb_eq in H. subst c. reflexivity. Qed.

Lemma emit_backslashes_no_pipe (n : nat) : has_pipe (emit_backslashes n) = false.
Proof. destruct n; reflexivity. Qed.

Lemma unescape_runs_no_pipe (s : jsstring) :
  forall n, has_pipe s = false -> has_pipe (unescape_runs_from n s) = false.
Proof.
  induction s as [|c s IH]; intros n H; cbn [unescape_runs_from].
  - apply emit_backslashes_no_pipe.
  - cbn in H. apply orb_false_iff in H as [Hc Hs].
    destruct (is_backslash c); [apply IH, Hs|].
    destruct ((0 <? n) && is_tick_or_underscore c).
    + cbn. rewrite Hc. apply IH, Hs.
    + rewrite ConverterFacts.has_pipe_app, emit_backslashes_no_pipe. cbn.
      rewrite Hc. apply IH, Hs.
Qed.

Lemma escaped_not_backslash (a : N) :
  is_backslash a = false -> forall b, escaped a b = false.
Proof. intros H b. unfold escaped. rewrite H. reflexivity. Qed.

Lemma unescape_runs_unescaped (s : jsstring) :
  forall n, no_pair escaped (unescape_runs_from n s) = true.
Proof.
  induction s as [|c s IH]; intros n; cbn [unescape_runs_from].
  - destruct n; reflexivity.
  - destruct (is_backslash c) eqn:B; [apply IH|].
    assert (Hc : no_pair escaped (c :: unescape_runs_from 0 s) = true).
    { apply no_pair_cons; [apply escaped_not_backslash, B | apply IH]. }
    destruct ((0 <? n) && is_tick_or_underscore c) eqn:E; [exact Hc|].
    destruct n as [|n]; [exact Hc|].
    cbn [emit_backslashes app]. apply no_pair_cons2; [|exact Hc].
    cbn in E. unfold escaped. rewrite B, E, andb_false_r. reflexivity.
Qed.

Lemma unescape_runs_id (s : jsstring) :
  forall n, n <= 1 -> no_pair escaped (repeat BACKSLASH n ++ s) = true ->
            unescape_runs_from n s = repeat BACKSLASH n ++ s.
Proof.
  induction s as [|c s IH]; intros n Hn H; cbn [unescape_runs_from].
  - destruct n as [|[|n]]; [reflexivity | reflexivity | lia].
  - destruct (is_backslash c) eqn:B.
    + assert (Ec : c = BACKSLASH) by (apply N.eqb_eq; exact B). subst c.
      destruct n as [|[|n]]; [| |lia].
      * apply (IH 1); [lia | exact H].
      * exfalso. cbn in H. discriminate H.
    + destruct n as [|[|n]]; [| |lia].
      * cbn [Nat.ltb Nat.leb andb emit_backslashes app repeat].
        rewrite (IH 0); [reflexivity | lia |].
        exact (no_pair_tail _ _ _ H).
      * cbn [repeat app] in H.
        pose proof (no_pair_head _ _ _ _ H) as Hp.
        unfold escaped in Hp. rewrite B in Hp. cbn in Hp.
        change (0 <? 1) with true. cbn [andb]. rewrite Hp.
        cbn [emit_backslashes app repeat].
        rewrite (IH 0); [reflexivity | lia |].
        exact (no_pair_tail _ _ _ (no_pair_tail _ _ _ H)).
Qed.

Lemma escaped_nl_l (b : N) : escaped NL b = false.
Proof. reflexivity. Qed.

Lemma escaped_nl_r (a : N) : escaped a NL = false.
Proof. unfold escaped. cbn. apply andb_false_r. Qed.

Lemma no_pair_newlines (prev : N) (k : nat) (s : jsstring) :
  no_pair escaped (NL :: s) = true ->
  no_pair escaped (prev :: repeat NL (S k) ++ s) = true.
Proof.
  intros H. cbn [repeat app].
  apply no_pair_cons2; [apply escaped_nl_r|].
  induction k as [|k IH]; [exact H|].
  cbn [repeat app]. apply no_pair_cons2; [apply escaped_nl_l | exact IH].
Qed.

(** Collapsing newlines brings no backslash next to a character it was
    not next to. *)
Lemma collapse_newlines_unescaped (s : jsstring) :
  forall (prev : N) (run : nat),
    no_pair escaped (prev :: repeat NL run ++ s) = true ->
    no_pair escaped (prev :: collapse_newlines_from run s) = true.
Proof.
  induction s as [|c s IH]; intros prev run H; cbn [collapse_newlines_from].
  - destruct (emit_newlines_repeat run) as [k [_ ->]].
    destruct k as [|k]; [reflexivity|].
    rewrite <- (app_nil_r (repeat NL (S k))). apply no_pair_newlines. reflexivity.
  - destruct (is_nl c) eqn:E.
    + apply IH. apply is_nl_eq in E. subst c. rewrite repeat_snoc. exact H.
    + assert (Hc : no_pair escaped (c :: collapse_newlines_from 0 s) = true).
      { apply (IH c 0). cbn [repeat app].
        apply (no_pair_suffix escaped (prev :: repeat NL run)). exact H. }
      destruct run as [|run].
      * change (emit_newlines 0) with (@nil N). cbn [repeat app] in *.
        apply no_pair_cons2; [exact (no_pair_head _ _ _ _ H) | exact Hc].
      * destruct (emit_newlines_pos run) as [k ->].
        apply no_pair_newlines.
        apply no_pair_cons2; [apply escaped_nl_l | exact Hc].
Qed.

Lemma finalContentCleanup_is_clean_aux (content : jsstring) :
  has_pipe (finalContentCleanup content) = false /\
  triple_nl (finalContentCleanup content) = false /\
  no_pair escaped (finalContentCleanup content) = true /\
  finalContentCleanup (finalContentCleanup content) = finalContentCleanup content.
Proof.
  destruct content as [|c0 content]; [repeat split|].
  cbn [finalContentCleanup].
  set (s1 := strip_pipe_lines (c0 :: content)).
  set (s2 := unescape_runs s1).
  set (s3 := collapse_newlines s2).
  assert (P1 : has_pipe s1 = false) by apply ConverterFacts.strip_pipe_lines_no_pipe.
  assert (P2 : has_pipe s2 = false) by (apply unescape_runs_no_pipe, P1).
  assert (P3 : has_pipe s3 = false) by (apply collapse_newlines_no_pipe, P2).
  assert (R3 : nl_runs_ok 0 s3 = true) by apply collapse_newlines_runs.
  assert (E2 : no_pair escaped s2 = true) by apply unescape_runs_unescaped.
  assert (E3 : no_pair escaped s3 = true).
  { apply (no_pair_tail escaped NL).
    apply (collapse_newlines_unescaped s2 NL 0). cbn [repeat app].
    apply no_pair_cons; [apply escaped_nl_l | exact E2]. }
  split; [exact P3|]. split; [apply nl_runs_ok_no_triple, R3|]. split; [exact E3|].
  destruct s3 as [|c3 s3'] eqn:Es3; [reflexivity|].
  cbn [finalContentCleanup]. rewrite <- Es3 in *.
  unfold strip_pipe_lines. rewrite (strip_pipe_lines_id s3 [] eq_refl P3).
  cbn [app]. unfold unescape_runs.
  rewrite (unescape_runs_id s3 0) by (lia || exact E3).
  cbn [repeat app]. unfold collapse_newlines.
  rewrite (collapse_newlines_id s3 0) by (lia || exact R3). reflexivity.
Qed.

(** X21: for every text, the result of [finalContentCleanup] holds no
    pipe, no three newlines in a row, and no backslash before a backslash,
    a backtick or an underscore; and cleaning it again changes nothing. *)
Theorem finalContentCleanup_is_clean (content : jsstring) :
  has_pipe (finalContentCleanup content) = false /\
  triple_nl (finalContentCleanup content) = false /\
  no_pair escaped (finalContentCleanup content) = true /\
  finalContentCleanup (finalContentCleanup content) = finalContentCleanup content.
Proof. apply finalContentCleanup_is_clean_aux. Qed.

(** *** Whitespace *)

Lemma punct_not_space (c : N) : is_punct c = true -> is_space c = false.
Proof.
  unfold is_punct. intros H.
  repeat (apply orb_true_iff in H; destruct H as [H|H]);
    apply N.eqb_eq in H; subst c; reflexivity.
Qed.

Lemma space_not_punct (c : N) : is_space c = true -> is_punct c = false.
Proof.
  intros H. destruct (is_punct c) eqn:E; [|reflexivity].
  apply punct_not_space in E. congruence.
Qed.

Lemma nl_is_space (c : N) : is_nl c = true -> is_space c = true.
Proof. intros H. apply is_nl_eq in H. subst c. reflexivity. Qed.

Lemma terminator_is_space (c : N) : is_line_terminator c = true -> is_space c = true.
Proof.
  unfold is_line_terminator. intros H.
  repeat (apply orb_true_iff in H; destruct H as [H|H]);
    apply N.eqb_eq in H; subst c; reflexivity.
Qed.

Lemma ws_ws_not_space_l (a : N) : is_space a = false -> forall b, ws_ws a b = false.
Proof. intros H b. unfold ws_ws. rewrite H. reflexivity. Qed.

Lemma ws_ws_not_space_r (b : N) : is_space b = false -> forall a, ws_ws a b = false.
Proof. intros H a. unfold ws_ws. rewrite H. apply andb_false_r. Qed.

Lemma ws_punct_not_space_l (a : N) : is_space a = false -> forall b, ws_punct a b = false.
Proof. intros H b. unfold ws_punct. rewrite H. reflexivity. Qed.

Lemma ws_punct_not_punct_r (b : N) : is_punct b = false -> forall a, ws_punct a b = false.
Proof. intros H a. unfold ws_punct. rewrite H. apply andb_false_r. Qed.

Lemma no_pair_app_mid (bad : N -> N -> bool) (p : jsstring) (c : N) (s : jsstring) :
  (forall a, bad a c = false) ->
  no_pair bad p = true -> no_pair bad (c :: s) = true ->
  no_pair bad (p ++ c :: s) = true.
Proof.
  intros Hc Hp Hs. induction p as [|a p IH]; [exact Hs|].
  destruct p as [|b p].
  - cbn [app]. apply no_pair_cons2; [apply Hc | exact Hs].
  - change ((a :: b :: p) ++ c :: s) with (a :: b :: (p ++ c :: s)).
    apply no_pair_cons2; [exact (no_pair_head _ _ _ _ Hp)|].
    apply IH. exact (no_pair_tail _ _ _ Hp).
Qed.

Lemma squeeze_single_spaces (s : jsstring) :
  forall run, no_pair ws_ws (squeeze_from run s) = true.
Proof.
  induction s as [|c s IH]; intros run; cbn [squeeze_from].
  - destruct run as [|a [|b run]]; reflexivity.
  - destruct (is_space c) eqn:E; [apply IH|].
    assert (Hc : no_pair ws_ws (c :: squeeze_from [] s) = true).
    { apply no_pair_cons; [apply ws_ws_not_space_l, E | apply IH]. }
    destruct run as [|a [|b run]]; cbn [emit_spaces app]; [exact Hc | |];
      (apply no_pair_cons2; [apply ws_ws_not_space_r, E | exact Hc]).
Qed.

Lemma all_space_no_punct_pair (run : jsstring) :
  Forall (fun c => is_space c = true) run -> no_pair ws_punct run = true.
Proof.
  induction 1 as [|a run Ha Hrun IH]; [reflexivity|].
  destruct run as [|b run]; [reflexivity|].
  apply no_pair_cons2; [|exact IH].
  inversion Hrun as [|? ? Hb _]; subst.
  apply ws_punct_not_punct_r, space_not_punct, Hb.
Qed.

Lemma tighten_no_space_before_punct (s : jsstring) :
  forall run, Forall (fun c => is_space c = true) run ->
              no_pair ws_punct (tighten_from run s) = true.
Proof.
  induction s as [|c s IH]; intros run Hrun; cbn [tighten_from].
  - apply all_space_no_punct_pair, Hrun.
  - destruct (is_space c) eqn:E.
    + apply IH. apply Forall_app. split; [exact Hrun | constructor; [exact E | constructor]].
    + assert (Hc : no_pair ws_punct (c :: tighten_from [] s) = true).
      { apply no_pair_cons; [apply ws_punct_not_space_l, E | apply IH; constructor]. }
      destruct (is_punct c) eqn:P; [exact Hc|].
      apply no_pair_app_mid;
        [apply ws_punct_not_punct_r, P | apply all_space_no_punct_pair, Hrun | exact Hc].
Qed.

Lemma tighten_single_spaces (s : jsstring) :
  forall run, no_pair ws_ws (run ++ s) = true ->
              no_pair ws_ws (tighten_from run s) = true.
Proof.
  induction s as [|c s IH]; intros run H; cbn [tighten_from].
  - rewrite app_nil_r in H. exact H.
  - destruct (is_space c) eqn:E.
    + apply IH. rewrite <- app_assoc. exact H.
    + assert (Hc : no_pair ws_ws (c :: tighten_from [] s) = true).
      { apply no_pair_cons; [apply ws_ws_not_space_l, E|].
        apply (IH []). apply (no_pair_suffix ws_ws (run ++ [c])).
        rewrite <- app_assoc. exact H. }
      destruct (is_punct c); [exact Hc|].
      apply no_pair_app_mid;
        [apply ws_ws_not_space_r, E | exact (no_pair_prefix _ _ _ H) | exact Hc].
Qed.

Lemma span_stops (p : N -> bool) (s : jsstring) :
  match s with [] => True | c :: _ => p c = false end -> span p s = ([], s).
Proof. destruct s as [|c s]; [reflexivity|]. cbn. intros ->. reflexivity. Qed.

(** Where no two whitespace characters are neighbours, [/\n\s+\n/] finds
    no match. *)
Lemma fix_paragraphs_id (fuel : nat) :
  forall s, no_pair ws_ws s = true -> fix_paragraphs fuel s = s.
Proof.
  induction fuel as [|fuel IH]; intros s H; [reflexivity|].
  destruct s as [|c s]; [reflexivity|]. cbn [fix_paragraphs].
  pose proof (IH s (no_pair_tail _ _ _ H)) as Hs.
  destruct (is_nl c) eqn:E; [|rewrite Hs; reflexivity].
  rewrite span_stops; [rewrite Hs; reflexivity|].
  destruct s as [|b s]; [exact I|].
  pose proof (no_pair_head _ _ _ _ H) as Hp. unfold ws_ws in Hp.
  rewrite (nl_is_space c E) in Hp. exact Hp.
Qed.

(** *** Trimming *)

Lemma trim_start_suffix (s : jsstring) : exists p, s = p ++ trim_start s.
Proof.
  induction s as [|c s [p IH]]; [exists []; reflexivity|].
  cbn [trim_start]. destruct (is_space c).
  - exists (c :: p). cbn. rewrite <- IH. reflexivity.
  - exists []. reflexivity.
Qed.

Lemma trim_start_idempotent (s : jsstring) : trim_start (trim_start s) = trim_start s.
Proof.
  induction s as [|c s IH]; [reflexivity|].
  cbn [trim_start]. destruct (is_space c) eqn:E; [exact IH|].
  cbn [trim_start]. rewrite E. reflexivity.
Qed.

Lemma trim_start_head (s : jsstring) (c : N) (r : jsstring) :
  trim_start s = c :: r -> is_space c = false.
Proof.
  induction s as [|a s IH]; [discriminate|].
  cbn [trim_start]. destruct (is_space a) eqn:E; [exact IH|].
  intros [= <- _]. exact E.
Qed.

Lemma trim_start_keeps_last (l : jsstring) (c : N) :
  is_space c = false -> exists z, trim_start (l ++ [c]) = z ++ [c].
Proof.
  intros Hc. induction l as [|a l [z IH]].
  - exists []. cbn. rewrite Hc. reflexivity.
  - cbn [app trim_start]. destruct (is_space a).
    + exists z. exact IH.
    + exists (a :: l). reflexivity.
Qed.

Lemma trim_infix (s : jsstring) : exists p q, s = p ++ trim s ++ q.
Proof.
  unfold trim.
  destruct (trim_start_suffix s) as [p Hp].
  destruct (trim_start_suffix (rev (trim_start s))) as [q Hq].
  exists p, (rev q).
  rewrite <- rev_app_distr, <- Hq, rev_involutive. exact Hp.
Qed.

Lemma trim_trimmed (s : jsstring) : trimmed (trim s).
Proof.
  unfold trimmed, trim. split.
  - destruct (trim_start s) as [|c y] eqn:E; [reflexivity|].
    pose proof (trim_start_head s c y E) as Hc.
    cbn [rev]. destruct (trim_start_keeps_last (rev y) c Hc) as [z ->].
    rewrite rev_app_distr. cbn [rev app trim_start]. rewrite Hc. reflexivity.
  - rewrite rev_involutive. apply trim_start_idempotent.
Qed.

Lemma no_pair_infix (bad : N -> N -> bool) (p m q : jsstring) :
  no_pair bad (p ++ m ++ q) = true -> no_pair bad m = true.
Proof.
  intros H. apply no_pair_suffix in H. exact (no_pair_prefix _ _ _ H).
Qed.

Lemma trim_no_pair (bad : N -> N -> bool) (s : jsstring) :
  no_pair bad s = true -> no_pair bad (trim s) = true.
Proof.
  intros H. destruct (trim_infix s) as (p & q & E).
  rewrite E in H. exact (no_pair_infix _ _ _ _ H).
Qed.

(** X22: whatever the patterns of the rules, the text returned by
    [cleanTextContent] is whitespace-normalised: no two whitespace
    characters in a row, no whitespace before a punctuation mark, none at
    either end.  And the step that is to fix the paragraph spacing
    ([/\n\s+\n/]) never changes the text it is given: the step before it
    has left no whitespace character next to another. *)
Theorem cleanTextContent_is_tidy (rules : Rules) (textContent : jsstring) :
  tidy (cleanTextContent rules textContent) /\
  (forall x : jsstring,
     fix_paragraphs (length (tighten (squeeze x))) (tighten (squeeze x))
     = tighten (squeeze x)).
Proof.
  assert (Hsq : forall x, no_pair ws_ws (tighten (squeeze x)) = true).
  { intros x. apply (tighten_single_spaces (squeeze x) []).
    apply squeeze_single_spaces. }
  split; [|intros x; apply fix_paragraphs_id, Hsq].
  destruct textContent as [|c0 t]; [repeat split|].
  cbn [cleanTextContent].
  set (x := typeAnnotations rules _).
  rewrite (fix_paragraphs_id _ _ (Hsq x)).
  split; [apply trim_no_pair, Hsq|].
  split; [|apply trim_trimmed].
  apply trim_no_pair. apply tighten_no_space_before_punct. constructor.
Qed.

(** X23: unless [aggressive_cleaning] or [clean_formatting] is [false],
    the HTML that [cleanContent] returns holds no pipe and no three
    newlines in a row, whatever the page and the rules. *)
Theorem cleanContent_is_pipe_free (rules : Rules) (page : Page) (options : Options) :
  aggressive_cleaning options <> Some false ->
  clean_formatting options <> Some false ->
  has_pipe (cleanContent rules page options) = false /\
  triple_nl (cleanContent rules page options) = false.
Proof.
  intros Ha Hf. unfold cleanContent.
  assert (Hclean : forall x,
             has_pipe (finalContentCleanup x) = false /\
             triple_nl (finalContentCleanup x) = false).
  { intros x. destruct (finalContentCleanup_is_clean_aux x) as (H1 & H2 & _). auto. }
  destruct (aggressive_cleaning options) as [[|]|];
    try (exfalso; apply Ha; reflexivity);
    destruct (clean_formatting options) as [[|]|];
    try (exfalso; apply Hf; reflexivity);
    destruct (pruned_html page) as [|c h]; try (split; reflexivity); apply Hclean.
Qed.

Lemma cleanContent_is_pipe_free_witness :
  has_pipe (cleanContent no_rules table_page (mkOptions None None)) = false.
Proof.
  refine (proj1 (cleanContent_is_pipe_free no_rules table_page (mkOptions None None) _ _));
    discriminate.
Defined.

End CleanerFacts.

(** ** The plain-text fallback of the converter *)

Module FallbackFacts.
Import JsStr Converter ConverterSpec Cleaner CleanerSpec.

Lemma collapse_spaces_plain (s : jsstring) :
  forall in_ws,
    Forall space_only (collapse_spaces_from in_ws s) /\
    no_pair ws_ws (collapse_spaces_from in_ws s) = true.
Proof.
  induction s as [|c s IH]; intros in_ws; cbn [collapse_spaces_from].
  - destruct in_ws; split; try reflexivity; repeat constructor.
  - destruct (is_space c) eqn:E; [apply IH|].
    destruct (IH false) as [H1 H2].
    assert (Hc : Forall space_only (c :: collapse_spaces_from false s) /\
                 no_pair ws_ws (c :: collapse_spaces_from false s) = true).
    { split.
      - constructor; [intros X; congruence | exact H1].
      - apply CleanerFacts.no_pair_cons;
          [apply CleanerFacts.ws_ws_not_space_l, E | exact H2]. }
    destruct in_ws; [|exact Hc]. destruct Hc as [Hc1 Hc2]. cbn [app]. split.
    + constructor; [intros _; reflexivity | exact Hc1].
    + apply CleanerFacts.no_pair_cons2;
        [apply CleanerFacts.ws_ws_not_space_r, E | exact Hc2].
Qed.

Lemma lines_from_single (s : jsstring) :
  forall line, Forall (fun c => is_line_terminator c = false) s ->
               lines_from line s = [line ++ s].
Proof.
  induction s as [|c s IH]; intros line H; cbn [lines_from].
  - rewrite app_nil_r. reflexivity.
  - inversion H as [|? ? Hc Hs]; subst. rewrite Hc.
    rewrite IH by exact Hs. rewrite <- app_assoc. reflexivity.
Qed.

Lemma space_only_single_line (s : jsstring) :
  Forall space_only s -> lines s = [s].
Proof.
  intros H. unfold lines. rewrite lines_from_single; [reflexivity|].
  eapply Forall_impl; [|exact H]. intros c Hc.
  destruct (is_line_terminator c) eqn:T; [|reflexivity].
  pose proof (Hc (CleanerFacts.terminator_is_space c T)) as E. subst c. discriminate T.
Qed.

Lemma normalize_text_one_line (s : jsstring) : one_line (normalize_text s).
Proof.
  unfold normalize_text.
  destruct (collapse_spaces_plain s false) as [H1 H2].
  set (x := collapse_spaces_from false s) in *.
  assert (Hall : Forall space_only (trim x)).
  { destruct (CleanerFacts.trim_infix x) as (p & q & E).
    rewrite E in H1. apply Forall_app in H1 as [_ H1].
    apply Forall_app in H1 as [H1 _]. exact H1. }
  split; [apply space_only_single_line, Hall|].
  split; [exact Hall|].
  split; [apply CleanerFacts.trim_no_pair, H2 | apply CleanerFacts.trim_trimmed].
Qed.

(** X24: when Turndown throws, what [convertToMarkdown] returns is one
    line of words: it holds no line break, its only whitespace is the space
    character, never two in a row and none at either end.  (This holds of
    the text of the body as of the message returned when JSDOM throws
    too.) *)
Theorem convertToMarkdown_fallback_is_one_line
        (turndown body_text : jsstring -> option jsstring) (html : jsstring) :
  turndown (prepass html) = None ->
  one_line (convertToMarkdown turndown body_text html).
Proof.
  intros H. unfold convertToMarkdown. rewrite H. unfold fallback_text.
  destruct (body_text (prepass html)) as [text|]; [apply normalize_text_one_line|].
  split; [reflexivity|]. split; [|split; [reflexivity | split; reflexivity]].
  repeat (constructor; [intros X; first [discriminate X | reflexivity]|]).
  constructor.
Qed.

Lemma convertToMarkdown_fallback_is_one_line_witness :
  lines (convertToMarkdown turndown_throws jsdom_two_paragraphs (js "<p>x</p>"))
  = [js "first second line"].
Proof.
  rewrite (proj1 (convertToMarkdown_fallback_is_one_line
                    turndown_throws jsdom_two_paragraphs (js "<p>x</p>") eq_refl)).
  reflexivity.
Defined.

End FallbackFacts.

(** ** Properties of the cache *)

Module CacheFacts.
Import Cache CacheSpec.
Local Open Scope string_scope.

Lemma lru_find_set {V} (k : string) (v : V) (c : LRU V) :
  lru_find k (lru_set k v c) = Some v.
Proof. unfold lru_set, LRU_MAX. simpl. rewrite String.eqb_refl. reflexivity. Qed.

Local Arguments lru_set : simpl never.

Lemma env_is_eq (v : option string) (s : string) :
  env_is v s = true <-> v = Some s.
Proof.
  destruct v as [x|]; simpl.
  - rewrite String.eqb_eq. split; [intros ->; reflexivity | intros [= ->]; reflexivity].
  - split; discriminate.
Qed.

(** With the master switch at ['true'] a read is a miss and a write is a
    no-op, whatever the tier. *)
Lemma master_switch_short_circuits {V} (st : State V) (k : string) (v : V) (b : bool) :
  DISABLE_ALL_CACHING (env st) = Some "true" ->
  getCacheByKey st k = (st, None) /\ setCacheByKey st k v b = (st, false).
Proof.
  intros H. apply env_is_eq in H.
  unfold getCacheByKey, setCacheByKey. rewrite H. split; reflexivity.
Qed.

Lemma setCacheByKey_lru {V} (st : State V) (k : string) (v : V) :
  env_is (DISABLE_ALL_CACHING (env st)) "true" = false ->
  isRedisEnabled st = false ->
  setCacheByKey st k v false = (set_lru V st (lru_set k v (resultsCache st)), true).
Proof. intros H1 H2. unfold setCacheByKey. rewrite H1, H2. reflexivity. Qed.

Lemma getCacheByKey_lru_hit {V} (st : State V) (k : string) (v : V) :
  env_is (DISABLE_ALL_CACHING (env st)) "true" = false ->
  isRedisEnabled st = false ->
  lru_find k (resultsCache st) = Some v ->
  snd (getCacheByKey st k) = Some v.
Proof.
  intros H1 H2 H3. unfold getCacheByKey, lru_has, lru_get.
  rewrite H1, H2, H3. reflexivity.
Qed.

(** C6 (counterexample): mode [none], master switch unset.  Start-up
    ([initRedis]) sets the switch to ['true'] itself; from then on a key held
    by the LRU reads as a miss and a write stores nothing. *)
Lemma lru_unused_when_switch_unset :
  DISABLE_ALL_CACHING (env unset_switch) = None /\
  lru_find "k" (resultsCache unset_switch) = Some 7 /\
  DISABLE_ALL_CACHING (env (initRedis true unset_switch)) = Some "true" /\
  snd (getCacheByKey (initRedis true unset_switch) "k") = None /\
  setCacheByKey (initRedis true unset_switch) "u" 1 false
    = (initRedis true unset_switch, false).
Proof. repeat split. Qed.

(** C6 (amended): in mode [none], the in-process LRU serves reads and writes
    after start-up exactly when [DISABLE_ALL_CACHING] is the string ['false'];
    when it is unset or has another value, [initRedis] sets it to ['true'];
    and whenever it is ['true'], in any mode, both tiers short-circuit to
    miss and no-op. *)
Theorem cache_in_mode_none {V} (connects : bool) (st : State V) (k : string) (v : V) :
  redisInitialized st = false ->
  mode_is_none (env st) = true ->
  (DISABLE_ALL_CACHING (env st) = Some "false" ->
     snd (setCacheByKey (initRedis connects st) k v false) = true /\
     lru_find k (resultsCache (fst (setCacheByKey (initRedis connects st) k v false)))
       = Some v /\
     snd (getCacheByKey (fst (setCacheByKey (initRedis connects st) k v false)) k)
       = Some v) /\
  (DISABLE_ALL_CACHING (env st) <> Some "false" ->
     DISABLE_ALL_CACHING (env (initRedis connects st)) = Some "true" /\
     getCacheByKey (initRedis connects st) k = (initRedis connects st, None) /\
     setCacheByKey (initRedis connects st) k v false = (initRedis connects st, false)) /\
  (forall (st' : State V) (bypassCache : bool),
     DISABLE_ALL_CACHING (env st') = Some "true" ->
     getCacheByKey st' k = (st', None) /\
     setCacheByKey st' k v bypassCache = (st', false)).
Proof.
  intros Hinit Hmode. split; [|split].
  - intros Hd.
    assert (E : initRedis connects st = with_redis V st false false).
    { unfold initRedis. rewrite Hinit, Hmode, Hd. reflexivity. }
    rewrite E.
    assert (Hoff : env_is (DISABLE_ALL_CACHING (env (with_redis V st false false))) "true"
                   = false).
    { cbn [env with_redis]. rewrite Hd. reflexivity. }
    assert (Hred : isRedisEnabled (with_redis V st false false) = false).
    { unfold isRedisEnabled. cbn [env with_redis]. rewrite Hmode. reflexivity. }
    rewrite (setCacheByKey_lru _ k v Hoff Hred). cbn [fst snd].
    split; [reflexivity|].
    split; [cbn [resultsCache set_lru]; apply lru_find_set|].
    apply getCacheByKey_lru_hit.
    + exact Hoff.
    + exact Hred.
    + cbn [resultsCache set_lru]. apply lru_find_set.
  - intros Hd.
    assert (E : initRedis connects st
                = with_redis V (set_disable_all V st) false false).
    { unfold initRedis. rewrite Hinit, Hmode.
      destruct (env_is (DISABLE_ALL_CACHING (env st)) "false") eqn:F;
        [apply env_is_eq in F; contradiction | reflexivity]. }
    rewrite E. split; [reflexivity|].
    apply master_switch_short_circuits. reflexivity.
  - intros st' b H. apply master_switch_short_circuits, H.
Qed.

Lemma cache_in_mode_none_witness :
  redisInitialized explicit_false = false /\
  mode_is_none (env explicit_false) = true /\
  snd (getCacheByKey
         (fst (setCacheByKey (initRedis true explicit_false) "k" 7 false)) "k")
    = Some 7.
Proof.
  split; [reflexivity|]. split; [reflexivity|].
  exact (proj2 (proj2 (proj1
    (cache_in_mode_none true explicit_false "k" 7 eq_refl eq_refl) eq_refl))).
Defined.

(** *** The tier chosen at start-up *)

Lemma internal_not_none (e : Env) :
  redisMode e = "internal" -> mode_is_none e = false.
Proof. intros H. unfold mode_is_none. rewrite H. reflexivity. Qed.

Lemma external_not_none (e : Env) :
  redisMode e = "external" -> mode_is_none e = false.
Proof. intros H. unfold mode_is_none. rewrite H. reflexivity. Qed.

Lemma none_not_configured (e : Env) :
  mode_is_none e = true -> redis_configured e = false.
Proof.
  intros H. unfold redis_configured.
  destruct (redisMode e =? "internal") eqn:E1.
  - apply String.eqb_eq, internal_not_none in E1. congruence.
  - destruct (redisMode e =? "external") eqn:E2; [|reflexivity].
    apply String.eqb_eq, external_not_none in E2. congruence.
Qed.

(** X7: at start-up the shared tier is chosen only when the mode is
    [internal], or [external] with a URL, and the connection test passed;
    in every other case (mode [none] in any letter case, an unknown mode, a
    missing URL, a failed connection) the in-process tier is used.  The
    stored entries are not touched, and the choice is made once: a later
    call of [initRedis] changes nothing. *)
Theorem initRedis_selects_tier {V} (connects : bool) (st : State V) :
  redisInitialized st = false ->
  redisInitialized (initRedis connects st) = true /\
  isRedisEnabled (initRedis connects st) = connects && redis_configured (env st) /\
  resultsCache (initRedis connects st) = resultsCache st /\
  redisStore (initRedis connects st) = redisStore st /\
  (forall connects', initRedis connects' (initRedis connects st) = initRedis connects st).
Proof.
  intros Hinit.
  assert (Hdone : redisInitialized (initRedis connects st) = true).
  { unfold initRedis. rewrite Hinit.
    destruct (mode_is_none (env st)); [reflexivity|].
    destruct (redisMode (env st) =? "internal"); [reflexivity|].
    destruct (redisMode (env st) =? "external"); [|reflexivity].
    destruct (EXTERNAL_REDIS_URL (env st)) as [[|a x]|]; reflexivity. }
  split; [exact Hdone|].
  split; [|split; [|split]].
  - unfold initRedis. rewrite Hinit.
    destruct (mode_is_none (env st)) eqn:Hmode.
    + rewrite (none_not_configured _ Hmode), andb_false_r.
      unfold isRedisEnabled.
      destruct (env_is (DISABLE_ALL_CACHING (env st)) "false");
        cbn [env with_redis set_disable_all USE_REDIS mode_is_none redisMode];
        [rewrite Hmode; reflexivity|].
      change (mode_is_none
                (mkEnv (USE_REDIS (env st)) (EXTERNAL_REDIS_URL (env st)) (Some "true")))
        with (mode_is_none (env st)).
      rewrite Hmode. reflexivity.
    + unfold redis_configured.
      destruct (redisMode (env st) =? "internal") eqn:E1.
      * unfold isRedisEnabled. cbn [env with_redis useRedis redisClient].
        rewrite Hmode, andb_diag, orb_true_l, andb_true_r. reflexivity.
      * destruct (redisMode (env st) =? "external") eqn:E2.
        -- destruct (EXTERNAL_REDIS_URL (env st)) as [[|a x]|];
             unfold isRedisEnabled; cbn [env with_redis useRedis redisClient];
             rewrite Hmode; cbn; rewrite ?andb_diag, ?andb_false_r, ?andb_true_r;
             reflexivity.
        -- unfold isRedisEnabled. cbn [env with_redis useRedis redisClient].
           rewrite Hmode. cbn. rewrite andb_false_r. reflexivity.
  - unfold initRedis. rewrite Hinit.
    destruct (mode_is_none (env st)).
    { destruct (env_is (DISABLE_ALL_CACHING (env st)) "false"); reflexivity. }
    destruct (redisMode (env st) =? "internal"); [reflexivity|].
    destruct (redisMode (env st) =? "external"); [|reflexivity].
    destruct (EXTERNAL_REDIS_URL (env st)) as [[|a x]|]; reflexivity.
  - unfold initRedis. rewrite Hinit.
    destruct (mode_is_none (env st)).
    { destruct (env_is (DISABLE_ALL_CACHING (env st)) "false"); reflexivity. }
    destruct (redisMode (env st) =? "internal"); [reflexivity|].
    destruct (redisMode (env st) =? "external"); [|reflexivity].
    destruct (EXTERNAL_REDIS_URL (env st)) as [[|a x]|]; reflexivity.
  - intros connects'. unfold initRedis at 1. rewrite Hdone. reflexivity.
Qed.

Lemma initRedis_selects_tier_witness :
  redisInitialized external_without_url = false /\
  isRedisEnabled (initRedis true external_without_url) = false.
Proof.
  split; [reflexivity|].
  exact (proj1 (proj2 (initRedis_selects_tier true external_without_url eq_refl))).
Defined.

(** *** Reads after writes *)

Lemma env_is_neq (v : option string) (s : string) :
  v <> Some s -> env_is v s = false.
Proof.
  intros H. destruct (env_is v s) eqn:E; [|reflexivity].
  apply env_is_eq in E. contradiction.
Qed.

Lemma lru_find_remove_other {V} (k k' : string) (c : LRU V) :
  k' <> k -> lru_find k' (lru_remove k c) = lru_find k' c.
Proof.
  intros Hne. induction c as [|[x v] c IH]; simpl; [reflexivity|].
  destruct (x =? k) eqn:E1.
  - apply String.eqb_eq in E1. subst x.
    destruct (k =? k') eqn:E2; [apply String.eqb_eq in E2; congruence | exact IH].
  - simpl. rewrite IH. reflexivity.
Qed.

Lemma lru_remove_length {V} (k : string) (c : LRU V) :
  length (lru_remove k c) <= length c.
Proof.
  induction c as [|[x v] c IH]; simpl; [lia|].
  destruct (x =? k); simpl; lia.
Qed.

(** A read that misses leaves the state as it was. *)
Lemma getCacheByKey_miss {V} (st st' : State V) (k : string) :
  getCacheByKey st k = (st', None) -> st' = st.
Proof.
  unfold getCacheByKey, lru_has, lru_get.
  destruct (env_is (DISABLE_ALL_CACHING (env st)) "true");
    [intros H; inversion H; reflexivity|].
  destruct (isRedisEnabled st).
  - destruct (redisHealthy st); intros H; inversion H; reflexivity.
  - destruct (lru_find k (resultsCache st));
      [discriminate | intros H; inversion H; reflexivity].
Qed.

(** What a read does not change. *)
Lemma getCacheByKey_frame {V} (st : State V) (k : string) :
  env (fst (getCacheByKey st k)) = env st /\
  isRedisEnabled (fst (getCacheByKey st k)) = isRedisEnabled st /\
  redisHealthy (fst (getCacheByKey st k)) = redisHealthy st /\
  redisStore (fst (getCacheByKey st k)) = redisStore st.
Proof.
  unfold getCacheByKey, lru_has, lru_get.
  destruct (env_is (DISABLE_ALL_CACHING (env st)) "true");
    [repeat split; reflexivity|].
  destruct (isRedisEnabled st) eqn:E.
  - destruct (redisHealthy st) eqn:H; cbn [fst];
      repeat split; first [reflexivity | exact E | exact H].
  - destruct (lru_find k (resultsCache st)); cbn [fst];
      repeat split; first [reflexivity | exact E].
Qed.

Lemma getCacheByKey_found {V} (st : State V) (k : string) (v : V) :
  env_is (DISABLE_ALL_CACHING (env st)) "true" = false ->
  tier_answers st ->
  (if isRedisEnabled st then lru_find k (redisStore st)
   else lru_find k (resultsCache st)) = Some v ->
  snd (getCacheByKey st k) = Some v /\
  (if isRedisEnabled (fst (getCacheByKey st k))
   then lru_find k (redisStore (fst (getCacheByKey st k)))
   else lru_find k (resultsCache (fst (getCacheByKey st k)))) = Some v.
Proof.
  intros Hoff Hans Hfind. unfold tier_answers in Hans.
  unfold getCacheByKey, lru_has, lru_get. rewrite Hoff.
  destruct (isRedisEnabled st) eqn:E.
  - rewrite (Hans eq_refl). cbn [fst snd]. rewrite E. auto.
  - rewrite Hfind. cbn [fst snd].
    assert (E' : isRedisEnabled (set_lru V st ((k, v) :: lru_remove k (resultsCache st)))
                 = false) by exact E.
    rewrite E'. cbn [resultsCache set_lru lru_find]. rewrite String.eqb_refl. auto.
Qed.

Lemma setCacheByKey_stores {V} (st : State V) (k : string) (v : V) :
  env_is (DISABLE_ALL_CACHING (env st)) "true" = false ->
  tier_answers st ->
  snd (setCacheByKey st k v false) = true /\
  env (fst (setCacheByKey st k v false)) = env st /\
  isRedisEnabled (fst (setCacheByKey st k v false)) = isRedisEnabled st /\
  redisHealthy (fst (setCacheByKey st k v false)) = redisHealthy st /\
  (if isRedisEnabled st
   then lru_find k (redisStore (fst (setCacheByKey st k v false)))
   else lru_find k (resultsCache (fst (setCacheByKey st k v false)))) = Some v.
Proof.
  intros Hoff Hans. unfold tier_answers in Hans.
  unfold setCacheByKey. rewrite Hoff. cbn [orb].
  destruct (isRedisEnabled st) eqn:E.
  - rewrite (Hans eq_refl). cbn [fst snd].
    split; [reflexivity|]. split; [reflexivity|]. split; [exact E|].
    split; [first [reflexivity | exact (Hans eq_refl)]|].
    cbn [redisStore set_redis lru_find]. rewrite String.eqb_refl. reflexivity.
  - cbn [fst snd].
    split; [reflexivity|]. split; [reflexivity|]. split; [exact E|].
    split; [reflexivity|].
    cbn [resultsCache set_lru]. apply lru_find_set.
Qed.

(** X8: while the master switch is not ['true'] and the tier in use answers,
    a write is acknowledged and the reads that follow return the written
    value (reading does not consume it); the entries under other keys are
    as before, in the shared tier always and in the in-process tier as long
    as it holds fewer than 1000 entries. *)
Theorem cache_round_trip {V} (st : State V) (k : string) (v : V) :
  DISABLE_ALL_CACHING (env st) <> Some "true" ->
  tier_answers st ->
  snd (setCacheByKey st k v false) = true /\
  snd (getCacheByKey (fst (setCacheByKey st k v false)) k) = Some v /\
  snd (getCacheByKey (fst (getCacheByKey (fst (setCacheByKey st k v false)) k)) k)
    = Some v /\
  (forall k', k' <> k ->
     isRedisEnabled st = true \/ length (resultsCache st) < LRU_MAX ->
     snd (getCacheByKey (fst (setCacheByKey st k v false)) k')
     = snd (getCacheByKey st k')).
Proof.
  intros Hsw Hans. apply env_is_neq in Hsw.
  destruct (setCacheByKey_stores st k v Hsw Hans) as (Hack & Henv & Hred & Hhealth & Hfind).
  set (st1 := fst (setCacheByKey st k v false)) in *.
  assert (Hsw1 : env_is (DISABLE_ALL_CACHING (env st1)) "true" = false)
    by (rewrite Henv; exact Hsw).
  assert (Hans1 : tier_answers st1).
  { unfold tier_answers. rewrite Hred, Hhealth. exact Hans. }
  assert (Hfind1 : (if isRedisEnabled st1 then lru_find k (redisStore st1)
                    else lru_find k (resultsCache st1)) = Some v).
  { rewrite Hred. exact Hfind. }
  destruct (getCacheByKey_found st1 k v Hsw1 Hans1 Hfind1) as [Hget Hfind2].
  destruct (getCacheByKey_frame st1 k) as (Henv2 & Hred2 & Hhealth2 & _).
  split; [exact Hack|]. split; [exact Hget|]. split.
  - apply getCacheByKey_found.
    + rewrite Henv2. exact Hsw1.
    + unfold tier_answers. rewrite Hred2, Hhealth2. exact Hans1.
    + exact Hfind2.
  - intros k' Hne Hroom.
    unfold st1, setCacheByKey, getCacheByKey, lru_has, lru_get.
    rewrite Hsw. cbn [orb].
    unfold tier_answers in Hans.
    destruct (isRedisEnabled st) eqn:E.
    + rewrite (Hans eq_refl). cbn [fst].
      assert (E' : isRedisEnabled (set_redis V st ((k, v) :: lru_remove k (redisStore st)))
                   = true) by exact E.
      cbn [env set_redis]. rewrite Hsw, E'.
      cbn [redisHealthy set_redis redisStore lru_find]. rewrite (Hans eq_refl).
      cbn [snd].
      destruct (k =? k') eqn:E2; [apply String.eqb_eq in E2; congruence|].
      apply lru_find_remove_other. exact Hne.
    + destruct Hroom as [Hroom | Hroom]; [discriminate|].
      cbn [fst].
      assert (E' : isRedisEnabled (set_lru V st (lru_set k v (resultsCache st))) = false)
        by exact E.
      cbn [env set_lru]. rewrite Hsw, E'. cbn [resultsCache set_lru].
      assert (Hset : lru_find k' (lru_set k v (resultsCache st))
                     = lru_find k' (resultsCache st)).
      { unfold lru_set. rewrite firstn_all2.
        - cbn [lru_find].
          destruct (k =? k') eqn:E2; [apply String.eqb_eq in E2; congruence|].
          apply lru_find_remove_other. exact Hne.
        - cbn [length]. pose proof (lru_remove_length k (resultsCache st)). lia. }
      rewrite Hset.
      destruct (lru_find k' (resultsCache st)); reflexivity.
Qed.

Lemma cache_round_trip_witness :
  snd (getCacheByKey (fst (setCacheByKey on_lru "k" 7 false)) "k") = Some 7.
Proof.
  refine (proj1 (proj2 (cache_round_trip on_lru "k" 7 _ _))).
  - discriminate.
  - unfold tier_answers. discriminate.
Defined.

End CacheFacts.

(** ** Properties of the worker group *)

Module WorkerFacts.
Import Js Worker WorkerSpec.

Section Tasks.
Context {I K : Type}.
Implicit Types (t : task I K) (pending : list (task I K)).

Lemma find_task_some (id : nat) pending t :
  find_task id pending = Some t -> In t pending /\ t_id t = id.
Proof.
  induction pending as [|x p IH]; simpl; [discriminate|].
  destruct (t_id x =? id) eqn:E.
  - intros [= <-]. apply Nat.eqb_eq in E. auto.
  - intros H. destruct (IH H). auto.
Qed.

Lemma in_remove_task (id : nat) pending t :
  In t (remove_task id pending) <-> In t pending /\ t_id t <> id.
Proof.
  unfold remove_task. rewrite filter_In, negb_true_iff, Nat.eqb_neq. tauto.
Qed.

Lemma NoDup_ids_filter (p : task I K -> bool) pending :
  NoDup (ids pending) -> NoDup (ids (filter p pending)).
Proof.
  unfold ids. induction pending as [|x l IH]; simpl; intros H; [constructor|].
  inversion H as [|? ? Hx Hl]; subst.
  destruct (p x); simpl; [|auto].
  constructor; [|auto].
  intros Hin. apply Hx. apply in_map_iff in Hin as [y [Hy Hin]].
  apply filter_In in Hin as [Hin _]. apply in_map_iff. eauto.
Qed.

Lemma in_remove_tasks (done : list (task I K)) pending t :
  In t (remove_tasks done pending) <-> In t pending /\ ~ In (t_id t) (ids done).
Proof.
  unfold remove_tasks. revert pending.
  induction done as [|d done IH]; intros pending; simpl; [tauto|].
  rewrite IH, in_remove_task. intuition congruence.
Qed.

Lemma NoDup_ids_remove_tasks (done : list (task I K)) pending :
  NoDup (ids pending) -> NoDup (ids (remove_tasks done pending)).
Proof.
  unfold remove_tasks. revert pending.
  induction done as [|d done IH]; intros pending H; simpl; [exact H|].
  apply IH. apply NoDup_ids_filter. exact H.
Qed.

Lemma chosen_in (l : list nat) pending t :
  In t (chosen l pending) -> In t pending.
Proof.
  revert pending. induction l as [|id l IH]; intros pending; simpl; [tauto|].
  destruct (find_task id pending) as [x|] eqn:F.
  - intros [<- | H].
    + apply (find_task_some _ _ _ F).
    + apply IH in H. apply in_remove_task in H. tauto.
  - apply IH.
Qed.

Lemma chosen_NoDup (l : list nat) pending :
  NoDup (ids (chosen l pending)).
Proof.
  revert pending. induction l as [|id l IH]; intros pending; simpl; [constructor|].
  destruct (find_task id pending) as [x|] eqn:F; [|apply IH].
  simpl. constructor; [|apply IH].
  intros Hin. apply in_map_iff in Hin as [y [Hy Hin]].
  apply chosen_in, in_remove_task in Hin.
  destruct (find_task_some _ _ _ F). intuition congruence.
Qed.

Lemma chosen_length (l : list nat) pending :
  length (chosen l pending) <= length l.
Proof.
  revert pending. induction l as [|id l IH]; intros pending; simpl; [lia|].
  destruct (find_task id pending); simpl; [specialize (IH (remove_task id pending))
                                          | specialize (IH pending)]; lia.
Qed.

(** Tasks with distinct numbers: a task is known by its number. *)
Lemma same_id_same_task pending t t' :
  NoDup (ids pending) -> In t pending -> In t' pending -> t_id t = t_id t' -> t = t'.
Proof.
  unfold ids. induction pending as [|x l IH]; simpl; [tauto|].
  intros H Ht Ht' E. inversion H as [|? ? Hx Hl]; subst.
  destruct Ht as [<- | Ht], Ht' as [<- | Ht']; auto.
  - exfalso. apply Hx. rewrite E. apply in_map. exact Ht'.
  - exfalso. apply Hx. rewrite <- E. apply in_map. exact Ht.
Qed.

Lemma remove_task_perm pending t :
  NoDup (ids pending) -> In t pending ->
  Permutation (t :: remove_task (t_id t) pending) pending.
Proof.
  unfold ids, remove_task. induction pending as [|x l IH]; simpl; [tauto|].
  intros H Ht. inversion H as [|? ? Hx Hl]; subst.
  destruct Ht as [<- | Ht].
  - rewrite Nat.eqb_refl. simpl. constructor.
    rewrite forallb_filter_id; [reflexivity|].
    apply forallb_forall. intros y Hy. apply negb_true_iff, Nat.eqb_neq.
    intros E. apply Hx. rewrite <- E. apply in_map. exact Hy.
  - destruct (t_id x =? t_id t) eqn:E.
    + apply Nat.eqb_eq in E. exfalso. apply Hx. rewrite E. apply in_map. exact Ht.
    + simpl. rewrite perm_swap. constructor. apply IH; assumption.
Qed.

Lemma finishing_in (sched : nat -> list nat) (wait : nat) pending t :
  In t (finishing sched wait pending) -> In t pending.
Proof.
  unfold finishing. destruct (chosen (sched wait) pending) as [|x l] eqn:C.
  - destruct pending; simpl; tauto.
  - rewrite <- C. apply chosen_in.
Qed.

End Tasks.

Section PureGroup.
Context {I : Type}.
Variable item_value : I -> value.
Variable f : I -> outcome.
Variable limit : Z.
Variable sched : nat -> list nat.

Local Abbreviation result_of := (WorkerSpec.result_of item_value f).
Local Abbreviation val := (WorkerSpec.val item_value).
Local Abbreviation tagged := (WorkerSpec.tagged item_value).

Lemma run_finish_pure (ts : list (task I outcome)) :
  run_finish item_value pure_finish tt ts = (tt, tagged ts).
Proof.
  induction ts as [|t ts IH]; simpl; [reflexivity|].
  rewrite IH. reflexivity.
Qed.

Lemma value_of_tagged (ts : list (task I outcome)) (t : task I outcome) :
  NoDup (ids ts) -> In t ts -> value_of (t_id t) (tagged ts) = val t.
Proof.
  unfold ids, tagged. induction ts as [|x l IH]; simpl; [tauto|].
  intros H Ht. inversion H as [|? ? Hx Hl]; subst.
  destruct Ht as [<- | Ht]; [rewrite Nat.eqb_refl; reflexivity|].
  destruct (t_id x =? t_id t) eqn:E; [|auto].
  apply Nat.eqb_eq in E. exfalso. apply Hx. rewrite E. apply in_map. exact Ht.
Qed.

(** At list exhaustion every pending task finishes, and [Promise.all]
    lists the values in the order of [pendingPromises]. *)
Lemma all_values_in_pending_order (wait : nat) (pending : list (task I outcome)) :
  NoDup (ids pending) ->
  let first := chosen (sched wait) pending in
  map (fun t => value_of (t_id t) (tagged (first ++ remove_tasks first pending)))
      pending
  = map val pending.
Proof.
  intros Hnd first. apply map_ext_in. intros t Ht.
  apply value_of_tagged; [|].
  - unfold ids. rewrite map_app.
    apply NoDup_app.
    + apply chosen_NoDup.
    + apply NoDup_ids_remove_tasks. exact Hnd.
    + intros id H1 H2. apply in_map_iff in H2 as [y [Hy H2]].
      apply in_remove_tasks in H2. subst id. tauto.
  - apply in_or_app.
    destruct (in_dec Nat.eq_dec (t_id t) (ids first)) as [Hin|Hout].
    + left. apply in_map_iff in Hin as [y [Hy Hin]].
      assert (y = t); [|subst; exact Hin].
      apply (same_id_same_task pending); auto.
      apply (chosen_in _ _ _ Hin).
    + right. apply in_remove_tasks. auto.
Qed.

(** When the schedule lets one task finish per wait, the driver sees
    every completion: nothing is lost at a race. *)
Lemma drive_pure_permutation (items : list I) :
  (forall wait, length (sched wait) <= 1) ->
  forall (id wait : nat) (pending : list (task I outcome)) (results : list value),
    NoDup (ids pending) ->
    Forall (fun t => t_id t < id) pending ->
    Forall (fun t => t_cont t = f (t_item t)) pending ->
    Permutation
      (snd (drive item_value (pure_start I f) pure_finish limit sched
                  items id wait tt pending results))
      (results ++ map val pending ++ map result_of items).
Proof.
  intros Hone. induction items as [|item items IH];
    intros id wait pending results Hnd Hlt Hf.
  - cbn [drive]. rewrite run_finish_pure. cbn [snd map].
    rewrite all_values_in_pending_order by exact Hnd.
    rewrite app_nil_r. reflexivity.
  - cbn [drive pure_start].
    set (new := mkTask id item (f item)).
    assert (Hnd1 : NoDup (ids (pending ++ [new]))).
    { unfold ids. rewrite map_app. apply NoDup_app; [exact Hnd | | ].
      - simpl. constructor; [tauto | constructor].
      - intros x H1 [<- | []]. apply in_map_iff in H1 as [y [Hy H1]].
        rewrite Forall_forall in Hlt. specialize (Hlt y H1).
        replace (t_id y) with id in Hlt by (symmetry; exact Hy).
        lia. }
    assert (Hlt1 : Forall (fun t => t_id t < S id) (pending ++ [new])).
    { apply Forall_app. split.
      - eapply Forall_impl; [|exact Hlt]. simpl. intros; lia.
      - constructor; [simpl; lia | constructor]. }
    assert (Hf1 : Forall (fun t => t_cont t = f (t_item t)) (pending ++ [new])).
    { apply Forall_app. split; [exact Hf | constructor; [reflexivity | constructor]]. }
    assert (Hval : map val (pending ++ [new]) = map val pending ++ [result_of item]).
    { rewrite map_app. reflexivity. }
    destruct (limit <=? Z.of_nat (length (pending ++ [new])))%Z.
    + rewrite run_finish_pure.
      assert (Hw : exists w, finishing sched wait (pending ++ [new]) = [w]
                             /\ In w (pending ++ [new])).
      { pose proof (finishing_in sched wait (pending ++ [new])) as Hin.
        unfold finishing in *.
        pose proof (chosen_length (sched wait) (pending ++ [new])) as Hlen.
        specialize (Hone wait).
        destruct (chosen (sched wait) (pending ++ [new])) as [|w [|w' l]].
        - destruct (pending ++ [new]) as [|w l] eqn:E.
          + destruct pending; discriminate.
          + exists w. split; [reflexivity | left; reflexivity].
        - exists w. split; [reflexivity | apply Hin; left; reflexivity].
        - simpl in Hlen. lia. }
      destruct Hw as [w [Hw Hin]]. rewrite Hw.
      cbn [tagged map firstn snd remove_tasks fold_left].
      rewrite IH.
      * rewrite <- app_assoc. apply Permutation_app_head.
        change (result_of item :: map result_of items)
          with ([result_of item] ++ map result_of items).
        rewrite (app_assoc (map val pending)), <- Hval.
        change ([val w] ++ map val (remove_task (t_id w) (pending ++ [new]))
                  ++ map result_of items)
          with (map val (w :: remove_task (t_id w) (pending ++ [new]))
                  ++ map result_of items).
        apply Permutation_app_tail, Permutation_map.
        apply remove_task_perm; assumption.
      * apply NoDup_ids_filter. exact Hnd1.
      * apply Forall_forall. intros t Ht. apply in_remove_task in Ht as [Ht _].
        rewrite Forall_forall in Hlt1. auto.
      * apply Forall_forall. intros t Ht. apply in_remove_task in Ht as [Ht _].
        rewrite Forall_forall in Hf1. auto.
    + rewrite IH; [|assumption..].
      rewrite Hval, <- app_assoc. reflexivity.
Qed.

End PureGroup.

(** An invariant of the shared state that every start and every completion
    keeps is kept by the whole group, whatever the schedule. *)
Section Invariant.
Context {I St K : Type}.
Variable item_value : I -> value.
Variable start : St -> I -> St * K.
Variable finish : St -> K -> St * outcome.
Variable limit : Z.
Variable sched : nat -> list nat.
Variable P : St -> Prop.
Variable Q : K -> Prop.
Variable R : I -> Prop.
Hypothesis start_keeps :
  forall st i, P st -> R i -> P (fst (start st i)) /\ Q (snd (start st i)).
Hypothesis finish_keeps : forall st k, P st -> Q k -> P (fst (finish st k)).

Lemma run_finish_invariant (ts : list (task I K)) :
  forall st, P st -> Forall (fun t => Q (t_cont t)) ts ->
             P (fst (run_finish item_value finish st ts)).
Proof.
  induction ts as [|t ts IH]; intros st Hp Hq; cbn [run_finish]; [exact Hp|].
  inversion Hq as [|? ? Ht Hts]; subst.
  pose proof (finish_keeps st (t_cont t) Hp Ht) as H1.
  destruct (finish st (t_cont t)) as [st1 o]. cbn [fst] in H1.
  specialize (IH st1 H1 Hts).
  destruct (run_finish item_value finish st1 ts) as [st2 vs]. exact IH.
Qed.

Lemma drive_invariant (items : list I) :
  forall (id wait : nat) (st : St) (pending : list (task I K)) (results : list value),
    Forall R items -> P st -> Forall (fun t => Q (t_cont t)) pending ->
    P (fst (drive item_value start finish limit sched items id wait st pending results)).
Proof.
  induction items as [|item items IH]; intros id wait st pending results Hr Hp Hq.
  - cbn [drive].
    set (first := chosen (sched wait) pending).
    assert (Hall : Forall (fun t => Q (t_cont t)) (first ++ remove_tasks first pending)).
    { rewrite Forall_forall in Hq. apply Forall_forall. intros t Ht.
      apply in_app_or in Ht as [Ht | Ht].
      - apply Hq. apply (chosen_in _ _ _ Ht).
      - apply in_remove_tasks in Ht. apply Hq, Ht. }
    pose proof (run_finish_invariant _ st Hp Hall) as H.
    destruct (run_finish item_value finish st (first ++ remove_tasks first pending)).
    exact H.
  - cbn [drive]. inversion Hr as [|? ? Hi His]; subst.
    destruct (start_keeps st item Hp Hi) as [Hp1 Hq1].
    destruct (start st item) as [st1 k]. cbn [fst snd] in Hp1, Hq1.
    assert (Hq' : Forall (fun t => Q (t_cont t)) (pending ++ [mkTask id item k])).
    { apply Forall_app. split; [exact Hq | constructor; [exact Hq1 | constructor]]. }
    destruct (limit <=? _)%Z.
    + set (done := finishing sched wait (pending ++ [mkTask id item k])).
      assert (Hdone : Forall (fun t => Q (t_cont t)) done).
      { rewrite Forall_forall in Hq'. apply Forall_forall. intros t Ht.
        apply Hq'. apply (finishing_in _ _ _ _ Ht). }
      pose proof (run_finish_invariant _ st1 Hp1 Hdone) as H.
      destruct (run_finish item_value finish st1 done) as [st2 vs]. cbn [fst] in H.
      apply IH; [exact His | exact H |].
      rewrite Forall_forall in Hq'. apply Forall_forall. intros t Ht.
      apply in_remove_tasks in Ht. apply Hq', Ht.
    + apply IH; assumption.
Qed.

Lemma processInBatches_invariant (items : list I) (st : St) :
  Forall R items -> P st ->
  P (fst (processInBatches item_value start finish limit sched items st)).
Proof.
  intros Hr Hp. unfold processInBatches, processInBatches_raw.
  pose proof (drive_invariant items 0 0 st [] [] Hr Hp (Forall_nil _)) as H.
  destruct (drive item_value start finish limit sched items 0 0 st [] []).
  exact H.
Qed.
End Invariant.

Lemma flat_no_array (l : list value) :
  Forall (fun v => is_array v = false) l -> flat l = l.
Proof.
  unfold flat. induction 1 as [|v l Hv _ IH]; simpl; [reflexivity|].
  rewrite IH. destruct v; try reflexivity; discriminate.
Qed.

Lemma filter_all_truthy (l : list value) :
  Forall (fun v => truthy v = true) l -> filter truthy l = l.
Proof.
  induction 1 as [|v l Hv _ IH]; simpl; [reflexivity|].
  rewrite Hv, IH. reflexivity.
Qed.

(** Below the limit the driver never waits on a race: the results come out
    of [Promise.all], in input order, whatever the order of completion. *)
Lemma drive_pure_below_limit {I} (item_value : I -> value) (f : I -> outcome)
      (limit : Z) (sched : nat -> list nat) (items : list I) :
  forall (id wait : nat) (pending : list (task I outcome)) (results : list value),
    (Z.of_nat (length pending + length items) < limit)%Z ->
    NoDup (ids pending) ->
    Forall (fun t => t_id t < id) pending ->
    snd (drive item_value (pure_start I f) pure_finish limit sched
               items id wait tt pending results)
    = results ++ map (val item_value) pending ++ map (result_of item_value f) items.
Proof.
  induction items as [|item items IH]; intros id wait pending results Hlim Hnd Hlt.
  - cbn [drive]. rewrite run_finish_pure. cbn [snd map].
    rewrite all_values_in_pending_order by exact Hnd.
    rewrite app_nil_r. reflexivity.
  - cbn [drive pure_start].
    assert (E : (limit <=? Z.of_nat (length (pending ++ [mkTask id item (f item)])))%Z
                = false).
    { apply Z.leb_gt. rewrite length_app. simpl in *. lia. }
    rewrite E. rewrite IH.
    + rewrite map_app, <- app_assoc. reflexivity.
    + rewrite length_app. simpl in *. lia.
    + unfold ids. rewrite map_app. apply NoDup_app; [exact Hnd | | ].
      * simpl. constructor; [tauto | constructor].
      * intros x H1 [<- | []]. apply in_map_iff in H1 as [y [Hy H1]].
        rewrite Forall_forall in Hlt. specialize (Hlt y H1).
        replace (t_id y) with id in Hlt by (symmetry; exact Hy). lia.
    + apply Forall_app. split.
      * eapply Forall_impl; [|exact Hlt]. simpl. intros; lia.
      * constructor; [simpl; lia | constructor].
Qed.

Local Open Scope string_scope.

(** C5 (counterexample): one item gives two results when the function returns
    an array; an item whose result is [null] gives none; and with the limit
    above the number of items the results are in input order although the
    second task finished first. *)
Lemma processInBatches_not_one_per_item :
  processInBatches_pure VStr two_urls 5 (fun _ => []) ["https://a.example/sitemap.xml"]
    = [VStr "https://a.example/1"; VStr "https://a.example/2"] /\
  processInBatches_pure VStr nothing 5 (fun _ => []) ["a"; "b"] = [] /\
  processInBatches_pure VStr echo 5 second_first ["a"; "b"] = [VStr "a"; VStr "b"].
Proof. repeat split. Qed.

(** When two tasks finish during one wait on [Promise.race], only the value
    of the first reaches [results]: the other has left [pendingPromises] in
    its [finally] and is not awaited again. *)
Example processInBatches_result_lost :
  processInBatches_pure VStr echo 2 (fun wait => [0; 1]) ["a"; "b"; "c"]
    = [VStr "a"; VStr "c"].
Proof. reflexivity. Qed.

(** C5 (amended): for a processing function whose returned values are truthy
    and are not arrays, and a schedule in which at most one task finishes
    during each wait of the driver, the results are a permutation of the
    per-item results: exactly one per input item, where the result of an
    item on which the function throws is the record [{error, item}] (the
    exception is not re-raised and the other tasks run on).  The results of
    the tasks still in flight at list exhaustion are appended in input
    order: below the concurrency limit the whole result is in input order. *)
Theorem processInBatches_one_result_per_item {I} (item_value : I -> value)
        (f : I -> outcome) (limit : Z) (sched : nat -> list nat) (items : list I) :
  (forall wait, length (sched wait) <= 1) ->
  (forall item v, In item items -> f item = Returned v ->
                  truthy v = true /\ is_array v = false) ->
  Permutation (processInBatches_pure item_value f limit sched items)
              (map (result_of item_value f) items) /\
  (forall item message, f item = Threw message ->
     result_of item_value f item
     = VObj [("error", VStr message); ("item", item_value item)]) /\
  ((Z.of_nat (length items) < limit)%Z ->
     processInBatches_pure item_value f limit sched items
     = map (result_of item_value f) items).
Proof.
  intros Hone Hplain.
  assert (Hall : Forall (fun v => truthy v = true /\ is_array v = false)
                        (map (result_of item_value f) items)).
  { apply Forall_forall. intros v Hv. apply in_map_iff in Hv as [item [<- Hin]].
    unfold result_of. destruct (f item) as [w|m] eqn:E; simpl.
    - apply (Hplain item w Hin E).
    - split; reflexivity. }
  assert (Hraw : Permutation
                   (processInBatches_pure_raw item_value f limit sched items)
                   (map (result_of item_value f) items)).
  { unfold processInBatches_pure_raw, processInBatches_raw.
    rewrite (drive_pure_permutation item_value f limit sched items Hone);
      [reflexivity | constructor | constructor | constructor]. }
  assert (Hsame : processInBatches_pure item_value f limit sched items
                  = processInBatches_pure_raw item_value f limit sched items).
  { unfold processInBatches_pure, processInBatches_pure_raw, processInBatches.
    destruct (processInBatches_raw item_value (pure_start I f) pure_finish limit sched
                                   items tt) as [st raw] eqn:E.
    cbn [snd].
    assert (Hr : Forall (fun v => truthy v = true /\ is_array v = false) raw).
    { unfold processInBatches_pure_raw in Hraw. rewrite E in Hraw. cbn [snd] in Hraw.
      eapply Permutation_Forall; [symmetry; exact Hraw | exact Hall]. }
    rewrite flat_no_array, filter_all_truthy; [reflexivity | | ].
    - eapply Forall_impl; [|exact Hr]. simpl. tauto.
    - eapply Forall_impl; [|exact Hr]. simpl. tauto. }
  split; [rewrite Hsame; exact Hraw|].
  split; [intros item message E; unfold result_of; rewrite E; reflexivity|].
  intros Hlim. rewrite Hsame.
  unfold processInBatches_pure_raw, processInBatches_raw.
  rewrite drive_pure_below_limit; [reflexivity | simpl; lia | constructor | constructor].
Qed.

Lemma processInBatches_one_result_per_item_witness :
  Permutation (processInBatches_pure VStr echo 2 (fun wait => [wait + 1]) ["a"; "b"; "c"])
              [VStr "a"; VStr "b"; VStr "c"].
Proof.
  refine (proj1 (processInBatches_one_result_per_item
                   VStr echo 2 (fun wait => [wait + 1]) ["a"; "b"; "c"] _ _)).
  - intros wait. simpl. lia.
  - intros item v Hin H. injection H as <-.
    destruct Hin as [<- | [<- | [<- | []]]]; split; reflexivity.
Defined.

(** *** The concurrency bound *)

Local Open Scope list_scope.

Section Bound.
Context {I : Type}.
Variable item_value : I -> value.
Variable f : I -> outcome.
Variable limit : Z.
Variable sched : nat -> list nat.

Lemma remove_task_length (pending : list (task I I)) (t : task I I) :
  NoDup (ids pending) -> In t pending ->
  S (length (remove_task (t_id t) pending)) = length pending.
Proof.
  intros Hnd Hin.
  apply (Permutation_length (remove_task_perm pending t Hnd Hin)).
Qed.

Lemma remove_tasks_length (done pending : list (task I I)) :
  NoDup (ids pending) -> NoDup (ids done) -> incl done pending ->
  length (remove_tasks done pending) + length done = length pending.
Proof.
  unfold remove_tasks. revert pending.
  induction done as [|t done IH]; intros pending Hnd Hd Hincl; simpl; [lia|].
  inversion Hd as [|? ? Ht Hd']; subst.
  assert (Hin : In t pending) by (apply Hincl; left; reflexivity).
  pose proof (remove_task_length pending t Hnd Hin) as Hlen.
  assert (H : length (fold_left (fun p x => remove_task (t_id x) p) done
                                (remove_task (t_id t) pending)) + length done
              = length (remove_task (t_id t) pending)).
  { apply IH.
    - apply NoDup_ids_filter. exact Hnd.
    - exact Hd'.
    - intros x Hx. apply in_remove_task. split.
      + apply Hincl. right. exact Hx.
      + intros E. apply Ht. rewrite <- E. apply in_map. exact Hx. }
  lia.
Qed.

Lemma run_finish_load (ts : list (task I I)) (l : Load I) :
  length ts <= running l ->
  fst (run_finish item_value (load_finish f) l ts)
  = mkLoad (running l - length ts) (peak l) (begun l) (ended l + length ts).
Proof.
  revert l. induction ts as [|t ts IH]; intros l Hle; cbn [run_finish length].
  - destruct l. cbn. f_equal; lia.
  - cbn [load_finish].
    specialize (IH (mkLoad (running l - 1) (peak l) (begun l) (S (ended l)))).
    destruct (run_finish item_value (load_finish f)
                         (mkLoad (running l - 1) (peak l) (begun l) (S (ended l))) ts)
      as [l2 vs].
    cbn [fst] in *. rewrite IH by (cbn; simpl in Hle; lia).
    cbn. f_equal; simpl in Hle; lia.
Qed.

Lemma finishing_NoDup (wait : nat) (pending : list (task I I)) :
  NoDup (ids pending) -> NoDup (ids (finishing sched wait pending)).
Proof.
  intros Hnd. unfold finishing.
  destruct (chosen (sched wait) pending) as [|x l] eqn:C.
  - destruct pending as [|t p]; simpl; [constructor|].
    constructor; [tauto | constructor].
  - rewrite <- C. apply chosen_NoDup.
Qed.

Lemma finishing_nonempty (wait : nat) (pending : list (task I I)) :
  pending <> [] -> 0 < length (finishing sched wait pending).
Proof.
  intros Hne. unfold finishing.
  destruct (chosen (sched wait) pending) as [|x l]; [|simpl; lia].
  destruct pending; [congruence | simpl; lia].
Qed.

(** The invariant of the driver: the tasks in [pendingPromises] are the
    tasks in flight, and before a task is added there is room for it. *)
Lemma drive_load (items : list I) :
  forall (id wait : nat) (l : Load I) (pending : list (task I I)) (results : list value),
    NoDup (ids pending) ->
    Forall (fun t => t_id t < id) pending ->
    running l = length pending ->
    (Z.of_nat (length pending) < Z.max 1 limit)%Z ->
    (Z.of_nat (peak l) <= Z.max 1 limit)%Z ->
    let l' := fst (drive item_value load_start (load_finish f) limit sched
                         items id wait l pending results) in
    running l' = 0 /\
    (Z.of_nat (peak l') <= Z.max 1 limit)%Z /\
    begun l' = begun l ++ items /\
    ended l' = ended l + length pending + length items.
Proof.
  induction items as [|item items IH];
    intros id wait l pending results Hnd Hlt Hrun Hroom Hpeak.
  - cbn [drive].
    set (first := chosen (sched wait) pending).
    assert (Hlen : length (first ++ remove_tasks first pending) = length pending).
    { rewrite length_app.
      pose proof (remove_tasks_length first pending Hnd (chosen_NoDup _ _)) as H.
      rewrite Nat.add_comm. apply H.
      intros x Hx. apply (chosen_in _ _ _ Hx). }
    pose proof (run_finish_load (first ++ remove_tasks first pending) l) as H.
    destruct (run_finish item_value (load_finish f) l (first ++ remove_tasks first pending))
      as [l2 vs].
    cbn [fst] in *. rewrite H by lia. cbn.
    rewrite Hlen, app_nil_r. repeat split; first [exact Hpeak | lia | reflexivity].
  - cbn [drive load_start].
    set (new := mkTask id item item).
    set (l1 := mkLoad (S (running l)) (Nat.max (peak l) (S (running l)))
                      (begun l ++ [item]) (ended l)).
    assert (Hnd1 : NoDup (ids (pending ++ [new]))).
    { unfold ids. rewrite map_app. apply NoDup_app; [exact Hnd | | ].
      - simpl. constructor; [tauto | constructor].
      - intros x H1 [<- | []]. apply in_map_iff in H1 as [y [Hy H1]].
        rewrite Forall_forall in Hlt. specialize (Hlt y H1).
        replace (t_id y) with id in Hlt by (symmetry; exact Hy).
        lia. }
    assert (Hlt1 : Forall (fun t => t_id t < S id) (pending ++ [new])).
    { apply Forall_app. split.
      - eapply Forall_impl; [|exact Hlt]. simpl. intros; lia.
      - constructor; [simpl; lia | constructor]. }
    assert (Hlen1 : length (pending ++ [new]) = S (length pending)).
    { rewrite length_app. simpl. lia. }
    assert (Hpeak1 : (Z.of_nat (peak l1) <= Z.max 1 limit)%Z).
    { unfold l1. cbn [peak]. rewrite Hrun. lia. }
    destruct (limit <=? Z.of_nat (length (pending ++ [new])))%Z eqn:E.
    + set (done := finishing sched wait (pending ++ [new])).
      assert (Hdone : length (remove_tasks done (pending ++ [new])) + length done
                      = length (pending ++ [new])).
      { apply remove_tasks_length; [exact Hnd1 | apply finishing_NoDup; exact Hnd1 |].
        intros x Hx. apply (finishing_in _ _ _ _ Hx). }
      assert (Hpos : 0 < length done).
      { apply finishing_nonempty. destruct pending; discriminate. }
      pose proof (run_finish_load done l1) as H.
      destruct (run_finish item_value (load_finish f) l1 done) as [l2 vs].
      cbn [fst] in H. rewrite H by (unfold l1; cbn [running]; lia).
      unfold l1. cbn [running peak begun ended].
      specialize (IH (S id) (S wait)
                     (mkLoad (S (running l) - length done)
                             (Nat.max (peak l) (S (running l)))
                             (begun l ++ [item]) (ended l + length done))
                     (remove_tasks done (pending ++ [new]))
                     (results ++ map snd (firstn 1 vs))).
      cbn [running peak begun ended] in IH.
      destruct IH as (H1 & H2 & H3 & H4).
      * apply NoDup_ids_remove_tasks. exact Hnd1.
      * apply Forall_forall. intros t Ht. apply in_remove_tasks in Ht as [Ht _].
        rewrite Forall_forall in Hlt1. auto.
      * lia.
      * lia.
      * exact Hpeak1.
      * repeat split; [exact H1 | exact H2 | rewrite H3, <- app_assoc; reflexivity |].
        rewrite H4. simpl. lia.
    + apply Z.leb_gt in E.
      specialize (IH (S id) wait l1 (pending ++ [new]) results).
      destruct IH as (H1 & H2 & H3 & H4);
        [exact Hnd1 | exact Hlt1 | unfold l1; cbn [running]; lia | lia | exact Hpeak1 |].
      unfold l1 in *. cbn [running peak begun ended] in *.
      repeat split; [exact H1 | exact H2 | rewrite H3, <- app_assoc; reflexivity |].
      rewrite H4, Hlen1. simpl. lia.
Qed.

End Bound.

(** *** What the calls of the processing function leave behind *)

Lemma Subseq_nil_l {A} (l : list A) : Subseq [] l.
Proof. induction l; constructor; assumption. Qed.

Lemma Subseq_refl {A} (l : list A) : Subseq l l.
Proof. induction l; constructor; assumption. Qed.

Lemma Subseq_app {A} (l1 l1' l2 l2' : list A) :
  Subseq l1 l1' -> Subseq l2 l2' -> Subseq (l1 ++ l2) (l1' ++ l2').
Proof.
  intros H1 H2. induction H1; simpl; [exact H2 | constructor; assumption..].
Qed.

Lemma Subseq_count {A} (dec : forall x y : A, {x = y} + {x <> y}) (l l' : list A) (a : A) :
  Subseq l l' -> count_occ dec l a <= count_occ dec l' a.
Proof.
  induction 1 as [|x l l' _ IH|x l l' _ IH]; simpl; [lia | |];
    destruct (dec x a); lia.
Qed.

Lemma Subseq_in {A} (l l' : list A) (a : A) : Subseq l l' -> In a l -> In a l'.
Proof.
  induction 1 as [|x l l' _ IH|x l l' _ IH]; simpl; [tauto | tauto |].
  intros [-> | H]; auto.
Qed.

Lemma Subseq_length {A} (l l' : list A) : Subseq l l' -> length l <= length l'.
Proof. induction 1; simpl; lia. Qed.

(** A record of calls that a start extends by its item, or leaves as it
    is, and that a completion does not touch, ends as the record at the
    start followed by some of the items, in their order. *)
Section Log.
Context {I St K : Type}.
Variable item_value : I -> value.
Variable start : St -> I -> St * K.
Variable finish : St -> K -> St * outcome.
Variable limit : Z.
Variable sched : nat -> list nat.
Variable calls : St -> list I.
Hypothesis start_calls :
  forall st i, calls (fst (start st i)) = calls st \/
               calls (fst (start st i)) = calls st ++ [i].
Hypothesis finish_calls : forall st k, calls (fst (finish st k)) = calls st.

Lemma run_finish_calls (ts : list (task I K)) :
  forall st, calls (fst (run_finish item_value finish st ts)) = calls st.
Proof.
  induction ts as [|t ts IH]; intros st; cbn [run_finish]; [reflexivity|].
  pose proof (finish_calls st (t_cont t)) as H1.
  destruct (finish st (t_cont t)) as [st1 o]. cbn [fst] in H1.
  specialize (IH st1).
  destruct (run_finish item_value finish st1 ts) as [st2 vs]. cbn [fst] in *.
  congruence.
Qed.

Lemma drive_calls (items : list I) :
  forall (id wait : nat) (st : St) (pending : list (task I K)) (results : list value),
  exists l,
    Subseq l items /\
    calls (fst (drive item_value start finish limit sched items id wait st pending results))
    = calls st ++ l.
Proof.
  induction items as [|item items IH]; intros id wait st pending results.
  - cbn [drive].
    pose proof (run_finish_calls
                  (chosen (sched wait) pending
                     ++ remove_tasks (chosen (sched wait) pending) pending) st) as H.
    destruct (run_finish item_value finish st _) as [st' vs]. cbn [fst] in *.
    exists []. split; [constructor | rewrite app_nil_r; exact H].
  - cbn [drive].
    pose proof (start_calls st item) as Hs.
    destruct (start st item) as [st1 k]. cbn [fst] in Hs.
    assert (Hrest : forall st2 id' wait' pending' results',
               calls st2 = calls st1 ->
               exists l,
                 Subseq l (item :: items) /\
                 calls (fst (drive item_value start finish limit sched items
                                   id' wait' st2 pending' results'))
                 = calls st ++ l).
    { intros st2 id' wait' pending' results' E.
      destruct (IH id' wait' st2 pending' results') as [l [Hl El]].
      rewrite El, E. destruct Hs as [-> | ->].
      - exists l. split; [constructor; exact Hl | reflexivity].
      - exists (item :: l). split; [constructor; exact Hl|].
        rewrite <- app_assoc. reflexivity. }
    destruct (limit <=? _)%Z.
    + pose proof (run_finish_calls
                    (finishing sched wait (pending ++ [mkTask id item k])) st1) as H.
      destruct (run_finish item_value finish st1 _) as [st2 vs]. cbn [fst] in H.
      apply Hrest. exact H.
    + apply Hrest. reflexivity.
Qed.

Lemma processInBatches_calls (items : list I) (st : St) :
  exists l,
    Subseq l items /\
    calls (fst (processInBatches item_value start finish limit sched items st))
    = calls st ++ l.
Proof.
  unfold processInBatches, processInBatches_raw.
  destruct (drive_calls items 0 0 st [] []) as [l [Hl El]].
  destruct (drive item_value start finish limit sched items 0 0 st [] []) as [st' raw].
  exists l. split; assumption.
Qed.

End Log.

(** *** A limit of one *)

Section Sequential.
Context {I St K : Type}.
Variable item_value : I -> value.
Variable start : St -> I -> St * K.
Variable finish : St -> K -> St * outcome.
Variable limit : Z.
Variable sched : nat -> list nat.
Hypothesis limit_one : (limit <= 1)%Z.

Lemma chosen_nil (l : list nat) : chosen l (@nil (task I K)) = [].
Proof. induction l as [|id l IH]; simpl; [reflexivity | exact IH]. Qed.

Lemma chosen_single (l : list nat) (t : task I K) :
  chosen l [t] = [] \/ chosen l [t] = [t].
Proof.
  induction l as [|id l IH]; simpl; [left; reflexivity|].
  destruct (t_id t =? id)%nat eqn:E.
  - right. unfold remove_task. simpl. rewrite ?E. simpl.
    rewrite chosen_nil. reflexivity.
  - exact IH.
Qed.

(** With a limit of 1 or below the driver waits after every start, and the
    only task in flight is the one that finishes. *)
Lemma drive_one_by_one (items : list I) :
  forall (id wait : nat) (st : St) (results : list value),
    fst (drive item_value start finish limit sched items id wait st [] results)
    = one_by_one start finish items st.
Proof.
  induction items as [|item items IH]; intros id wait st results.
  - cbn [drive one_by_one fold_left]. rewrite chosen_nil. reflexivity.
  - cbn [drive one_by_one fold_left]. fold (one_by_one start finish items).
    destruct (start st item) as [st1 k]. cbn [app length].
    assert (E : (limit <=? Z.of_nat 1)%Z = true) by (apply Z.leb_le; lia).
    rewrite E.
    assert (F : finishing sched wait [mkTask id item k] = [mkTask id item k]).
    { unfold finishing.
      destruct (chosen_single (sched wait) (mkTask id item k)) as [-> | ->]; reflexivity. }
    rewrite F. cbn [run_finish t_cont].
    destruct (finish st1 k) as [st2 o]. cbn [fst].
    assert (R : remove_tasks [mkTask id item k] [mkTask id item k] = []).
    { unfold remove_tasks, remove_task. simpl. rewrite Nat.eqb_refl. reflexivity. }
    rewrite R. apply IH.
Qed.

Lemma processInBatches_one_by_one (items : list I) (st : St) :
  fst (processInBatches item_value start finish limit sched items st)
  = one_by_one start finish items st.
Proof.
  unfold processInBatches, processInBatches_raw.
  pose proof (drive_one_by_one items 0 0 st []) as H.
  destruct (drive item_value start finish limit sched items 0 0 st [] []) as [st' raw].
  exact H.
Qed.

End Sequential.

(** X6: for a [concurrencyLimit] that is an integer, whatever the
    processing function returns or throws and whatever the order in which
    the tasks finish, [processInBatches] never has more than
    [concurrencyLimit] tasks in flight (one task when the limit is below 1);
    it calls the processing function once on every item, in input order; and
    when it returns every task has finished. *)
Theorem processInBatches_bounded {I} (item_value : I -> value) (f : I -> outcome)
        (limit : Z) (sched : nat -> list nat) (items : list I) :
  let l := fst (processInBatches item_value load_start (load_finish f) limit sched
                                 items idle) in
  (Z.of_nat (peak l) <= Z.max 1 limit)%Z /\
  begun l = items /\
  ended l = length items /\
  running l = 0.
Proof.
  unfold processInBatches, processInBatches_raw.
  pose proof (drive_load item_value f limit sched items 0 0 idle [] []) as H.
  destruct (drive item_value load_start (load_finish f) limit sched items 0 0 idle [] [])
    as [l raw].
  cbn [fst] in *.
  destruct H as (H1 & H2 & H3 & H4).
  - cbn. constructor.
  - constructor.
  - reflexivity.
  - cbn. lia.
  - cbn. lia.
  - cbn in H3, H4. repeat split; [exact H2 | exact H3 | lia | exact H1].
Qed.

End WorkerFacts.

(** ** Properties of [processUrl] *)

Module RetryFacts.
Import Crawler RetrySpec.
Local Open Scope string_scope.

Section Retry.
Variable browse : nat -> string -> PageOutcome.
Variable u : string.
Variable c : Config.

Local Abbreviation retried_at := (RetrySpec.retried_at browse u c).
Local Abbreviation last_attempt := (RetrySpec.last_attempt browse u c).
Local Abbreviation settled_by := (RetrySpec.settled_by browse u c).
Local Abbreviation answered := (RetrySpec.answered browse u c).

Lemma retried_at_below (i : nat) :
  retried_at i = true -> (Z.of_nat i < retry_limit c)%Z.
Proof.
  unfold RetrySpec.retried_at. destruct (browse i u); try discriminate.
  intros H. apply andb_true_iff in H as [H _]. apply Z.ltb_lt, H.
Qed.

Lemma retried_within_limit (n : nat) :
  (forall i, i < n -> retried_at i = true) ->
  (Z.of_nat n <= Z.max 0 (retry_limit c))%Z.
Proof.
  intros H. destruct n as [|n]; [lia|].
  pose proof (retried_at_below n (H n (Nat.lt_succ_diag_r n))). lia.
Qed.

(** A miss, or a job that bypasses the cache: the read leaves the cache as
    it was and finds nothing. *)
Lemma cached_none (cs : Cache.State ProcessingResult) :
  cached u c cs = None ->
  (if nocache c then (cs, None)
   else Cache.getCacheByKey cs
          (Cache.createCacheKey u (targetSelectors c) (removeSelectors c)))
  = (cs, None).
Proof.
  unfold cached, key_of. destruct (nocache c); [reflexivity|].
  destruct (Cache.getCacheByKey cs _) as [cs1 o] eqn:G. cbn [snd]. intros ->.
  apply CacheFacts.getCacheByKey_miss in G. subst cs1. reflexivity.
Qed.

(** The call that makes the attempt [n], the attempts before it having
    been retried. *)
Lemma processUrl_from_settled (fuel : nat) :
  forall cs m n retried,
    cached u c cs = None ->
    Z.to_nat (retry_limit c) < n + fuel ->
    length retried = n ->
    (forall i, i < n -> retried_at i = true) ->
    (forall i, i < n -> browse i u = PageErr (nth i retried "")) ->
    exists run,
      processUrl_from browse fuel cs m u c n retried = Some run /\
      exists k,
        last_attempt k /\
        (Z.of_nat k <= Z.max 0 (retry_limit c))%Z /\
        length (ur_retried run) = k /\
        (forall i, i < k -> browse i u = PageErr (nth i (ur_retried run) "")) /\
        settled_by cs m k run.
Proof.
  induction fuel as [|fuel IH]; intros cs m n retried Hmiss Hfuel Hlen Hprev Hlog.
  - exfalso. pose proof (retried_within_limit n Hprev). lia.
  - cbn [processUrl_from]. cbv zeta. rewrite (cached_none cs Hmiss).
    assert (Hlast : retried_at n = false -> last_attempt n) by (intros H; split; assumption).
    pose proof (retried_within_limit n Hprev) as Hbound.
    destruct (browse n u) as [meta md | message | v] eqn:B.
    + eexists. split; [reflexivity|]. exists n.
      split; [apply Hlast; unfold RetrySpec.retried_at; rewrite B; reflexivity|].
      split; [exact Hbound|]. split; [exact Hlen|]. split; [exact Hlog|].
      unfold RetrySpec.settled_by. rewrite B. cbn. repeat split.
    + destruct ((Z.of_nat n <? retry_limit c)%Z && transient message) eqn:R.
      * apply IH.
        -- exact Hmiss.
        -- lia.
        -- rewrite length_app, Hlen. cbn. lia.
        -- intros i Hi. destruct (Nat.eq_dec i n) as [-> | Hne].
           ++ unfold RetrySpec.retried_at. rewrite B. exact R.
           ++ apply Hprev. lia.
        -- intros i Hi. destruct (Nat.eq_dec i n) as [-> | Hne].
           ++ rewrite app_nth2 by lia. rewrite Hlen, Nat.sub_diag. exact B.
           ++ rewrite app_nth1 by lia. apply Hlog. lia.
      * eexists. split; [reflexivity|]. exists n.
        split; [apply Hlast; unfold RetrySpec.retried_at; rewrite B; exact R|].
        split; [exact Hbound|]. split; [exact Hlen|]. split; [exact Hlog|].
        unfold RetrySpec.settled_by. rewrite B. cbn. repeat split.
    + assert (Hn : last_attempt n)
        by (apply Hlast; unfold RetrySpec.retried_at; rewrite B; reflexivity).
      destruct ((Z.of_nat n <? retry_limit c)%Z || is_nullish v) eqn:T;
        (eexists; split; [reflexivity|]; exists n;
         split; [exact Hn|]; split; [exact Hbound|]; split; [exact Hlen|];
         split; [exact Hlog|];
         unfold RetrySpec.settled_by; rewrite B, T; cbn; repeat split).
Qed.

Lemma processUrl_answered (cs : Cache.State ProcessingResult) (m : Metrics) :
  exists run, processUrl browse cs m u c = Some run /\ answered cs m run.
Proof.
  unfold processUrl, RetrySpec.answered.
  destruct (cached u c cs) as [r|] eqn:Hc.
  - cbn [processUrl_from]. cbv zeta. unfold cached, key_of in *.
    destruct (nocache c); [discriminate|].
    destruct (Cache.getCacheByKey cs _) as [cs1 o]. cbn [snd] in Hc. subst o.
    eexists. split; [reflexivity|]. cbn. repeat split.
  - apply processUrl_from_settled;
      [exact Hc | lia | reflexivity | intros i Hi; lia | intros i Hi; lia].
Qed.

(** X9: every call of [processUrl] settles, and what it hands back is read
    off the cache and the attempts of the pipeline.  A record found in the
    cache is returned as it is, the pipeline is not run and the metrics are
    not touched.  Otherwise the attempts are retried as long as they throw
    a transient error below the limit, and the first attempt that does not
    is the last: a conversion returns the success record, an error the
    failure record with its message, and each adds exactly one to
    [totalProcessed] and one to [successCount] or [failCount], whatever the
    number of retries.  A thrown value that is no [Error] makes the [catch]
    block throw a [TypeError] (below the limit, and for [null] and
    [undefined] always): the promise rejects and the metrics are not
    touched. *)
Theorem processUrl_settles (cs : Cache.State ProcessingResult) (m : Metrics) :
  exists run, processUrl browse cs m u c = Some run /\ answered cs m run.
Proof. apply processUrl_answered. Qed.

End Retry.

(** C7 (the code at the failing input): the job is configured with 0
    retries ([DEFAULT_RETRY_COUNT=0], no [retryCount] in the request), and
    on a site that resets every connection [processUrl] retries twice
    before it returns the failure record. *)
Theorem retries_exceed_configured_zero :
  retryCount (createJob_config no_retry_defaults one_url_request) = 0%Z /\
  option_map (fun run => (ur_retried run, ur_result run))
             (processUrl always_reset fresh_cache (mkMetrics 0 0 0) "https://a.example/"
                         (createJob_config no_retry_defaults one_url_request))
  = Some (["net::ERR_CONNECTION_RESET"; "net::ERR_CONNECTION_RESET"],
          Resolved (failure_result "https://a.example/" "net::ERR_CONNECTION_RESET")).
Proof. split; reflexivity. Qed.

(** *** The cache and the metrics *)

Section CacheUse.
Variable browse : nat -> string -> PageOutcome.

Lemma processUrl_from_accounted (fuel : nat) :
  forall cs m u c n retried run,
    processUrl_from browse fuel cs m u c n retried = Some run ->
    accounted cs m u c run.
Proof.
  induction fuel as [|fuel IH]; intros cs m u c n retried run; [discriminate|].
  cbn [processUrl_from]. fold (key_of u c).
  assert (Hrest : forall cs1,
             cs1 = cs ->
             match browse n u with
             | PageOk formattedMetadata markdown =>
                 Some (mkUrlRun
                         (if nocache c then cs1
                          else fst (Cache.setCacheByKey cs1 (key_of u c)
                                      (mkResult u true (Some formattedMetadata)
                                                (Some markdown) None) false))
                         (mkMetrics (S (totalProcessed m)) (S (successCount m)) (failCount m))
                         (Resolved (mkResult u true (Some formattedMetadata)
                                             (Some markdown) None))
                         Converted retried)
             | PageErr message =>
                 if (Z.of_nat n <? retry_limit c)%Z && transient message
                 then processUrl_from browse fuel cs1 m u c (S n) (retried ++ [message])
                 else Some (mkUrlRun cs1
                              (mkMetrics (S (totalProcessed m)) (successCount m)
                                         (S (failCount m)))
                              (Resolved (failure_result u message)) (GaveUp (Some message))
                              retried)
             | PageThrew v =>
                 if (Z.of_nat n <? retry_limit c)%Z || is_nullish v
                 then Some (mkUrlRun cs1 m Rejected Crashed retried)
                 else Some (mkUrlRun cs1
                              (mkMetrics (S (totalProcessed m)) (successCount m)
                                         (S (failCount m)))
                              (Resolved (failure_without_message u)) (GaveUp None) retried)
             end = Some run ->
             accounted cs m u c run).
  { intros cs1 ->.
    destruct (browse n u) as [meta md | message | v].
    - intros [= <-]. unfold accounted. cbn. split; [reflexivity|].
      eexists. split; reflexivity.
    - destruct ((Z.of_nat n <? retry_limit c)%Z && transient message).
      + intros H. apply IH in H. exact H.
      + intros [= <-]. unfold accounted. cbn. auto.
    - destruct ((Z.of_nat n <? retry_limit c)%Z || is_nullish v);
        intros [= <-]; unfold accounted; cbn; auto. }
  destruct (nocache c) eqn:Hno.
  - apply Hrest. reflexivity.
  - destruct (Cache.getCacheByKey cs (key_of u c)) as [cs1 [r|]] eqn:G.
    + intros [= <-]. unfold accounted. cbn. auto.
    + apply CacheFacts.getCacheByKey_miss in G. apply Hrest, G.
Qed.

(** X10: a call that gives up leaves the cache exactly as it found it: a
    failure is never cached; and a job with [nocache] neither reads nor
    writes the cache, whatever the outcome. *)
Theorem processUrl_failure_not_cached (cs : Cache.State ProcessingResult) (m : Metrics)
        (u : string) (c : Config) :
  exists run,
    processUrl browse cs m u c = Some run /\
    (nocache c = true -> ur_cache run = cs /\ ur_ending run <> FromCache) /\
    (forall message, ur_ending run = GaveUp message -> ur_cache run = cs).
Proof.
  destruct (processUrl_answered browse u c cs m) as [run [Hrun _]].
  exists run. split; [exact Hrun|].
  pose proof (processUrl_from_accounted _ _ _ _ _ _ _ _ Hrun) as Hacc.
  unfold accounted in Hacc. split.
  - intros Hno. rewrite Hno in Hacc.
    destruct (ur_ending run).
    + destruct Hacc; discriminate.
    + destruct Hacc as (_ & result & _ & H). split; [exact H | discriminate].
    + split; [apply Hacc | discriminate].
    + split; [apply Hacc | discriminate].
  - intros message E. rewrite E in Hacc. apply Hacc.
Qed.

End CacheUse.

(** X11: when a job that uses the cache has converted a URL, and the master
    switch is not ['true'] and the tier in use answers, the next call of
    [processUrl] for that URL by a job with the same selectors is served
    from the cache: it returns the same result without running the browser
    pipeline and without touching the metrics. *)
Theorem converted_then_cached (browse browse' : nat -> string -> PageOutcome)
        (cs : Cache.State ProcessingResult) (m m' : Metrics) (u : string)
        (c c' : Config) (run : UrlRun) :
  nocache c = false -> nocache c' = false ->
  targetSelectors c' = targetSelectors c ->
  removeSelectors c' = removeSelectors c ->
  Cache.DISABLE_ALL_CACHING (Cache.env cs) <> Some "true" ->
  CacheSpec.tier_answers cs ->
  processUrl browse cs m u c = Some run ->
  ur_ending run = Converted ->
  exists run',
    processUrl browse' (ur_cache run) m' u c' = Some run' /\
    ur_ending run' = FromCache /\
    ur_result run' = ur_result run /\
    ur_metrics run' = m' /\
    ur_retried run' = [].
Proof.
  intros Hno Hno' Ht Hr Hsw Hans Hrun Hend.
  pose proof (processUrl_from_accounted _ _ _ _ _ _ _ _ _ Hrun) as Hacc.
  unfold accounted in Hacc. rewrite Hend, Hno in Hacc.
  destruct Hacc as (_ & result & Hres & Hcache).
  apply CacheFacts.env_is_neq in Hsw.
  destruct (CacheFacts.setCacheByKey_stores cs (key_of u c) result Hsw Hans)
    as (_ & Henv & Hred & Hhealth & Hfind).
  rewrite <- Hcache in Henv, Hred, Hhealth, Hfind.
  assert (Hget : snd (Cache.getCacheByKey (ur_cache run) (key_of u c))
                 = Some result).
  { apply CacheFacts.getCacheByKey_found.
    - rewrite Henv. exact Hsw.
    - unfold CacheSpec.tier_answers. rewrite Hred, Hhealth. exact Hans.
    - rewrite Hred. exact Hfind. }
  unfold processUrl. cbn [processUrl_from]. rewrite Hno', Ht, Hr.
  fold (key_of u c).
  destruct (Cache.getCacheByKey (ur_cache run) (key_of u c)) as [cs1 cached].
  cbn [snd] in Hget. subst cached.
  eexists. split; [reflexivity|]. cbn. rewrite Hres. auto.
Qed.

Lemma converted_then_cached_witness :
  exists run,
    processUrl always_ok fresh_cache (mkMetrics 0 0 0) "https://a.example/"
               (createJob_config no_retry_defaults cached_request) = Some run /\
    exists run',
      processUrl unreachable (ur_cache run) (mkMetrics 1 1 0) "https://a.example/"
                 (createJob_config no_retry_defaults cached_request) = Some run' /\
      ur_result run' = ur_result run.
Proof.
  eexists. split; [reflexivity|].
  destruct (converted_then_cached
              always_ok unreachable fresh_cache (mkMetrics 0 0 0) (mkMetrics 1 1 0)
              "https://a.example/"
              (createJob_config no_retry_defaults cached_request)
              (createJob_config no_retry_defaults cached_request) _
              eq_refl eq_refl eq_refl eq_refl
              ltac:(discriminate) ltac:(unfold CacheSpec.tier_answers; discriminate)
              eq_refl eq_refl)
    as [run' (H1 & _ & H2 & _)].
  exists run'. split; [exact H1 | exact H2].
Defined.

End RetryFacts.

(** ** Properties of the server *)

Module ServerFacts.
Import JsStr Server ServerSpec.

(** *** [parseSelectors] *)

Lemma has_comma_app (a b : jsstring) :
  has_comma (a ++ b) = has_comma a || has_comma b.
Proof. apply existsb_app. Qed.

Lemma split_from_no_comma (s piece : jsstring) :
  has_comma piece = false ->
  Forall (fun x => has_comma x = false) (split_from piece s).
Proof.
  revert piece. induction s as [|c s IH]; intros piece Hp; cbn [split_from].
  - constructor; [exact Hp | constructor].
  - destruct (c =? COMMA)%N eqn:E.
    + constructor; [exact Hp | apply IH; reflexivity].
    + apply IH. rewrite has_comma_app, Hp. cbn. rewrite E. reflexivity.
Qed.

Lemma trim_no_comma (x : jsstring) :
  has_comma x = false -> has_comma (Converter.trim x) = false.
Proof.
  intros H. destruct (CleanerFacts.trim_infix x) as (p & q & E).
  rewrite E, !has_comma_app in H.
  apply orb_false_iff in H as [_ H]. apply orb_false_iff in H as [H _]. exact H.
Qed.

Lemma trimmed_trim (x : jsstring) : CleanerSpec.trimmed x -> Converter.trim x = x.
Proof.
  intros [H1 H2]. unfold Converter.trim. rewrite H1, H2. apply rev_involutive.
Qed.

Lemma parse_text (s : jsstring) :
  parseSelectors (Text s) = filter truthy (map Converter.trim (split_commas s)).
Proof. destruct s; reflexivity. Qed.

Lemma filter_trim_clean (l : list jsstring) :
  Forall (fun x => has_comma x = false) l ->
  Forall clean_selector (filter truthy (map Converter.trim l)).
Proof.
  induction 1 as [|x l Hx _ IH]; cbn [map filter]; [constructor|].
  destruct (truthy (Converter.trim x)) eqn:T; [|exact IH].
  constructor; [|exact IH]. repeat split.
  - intros E. rewrite E in T. discriminate.
  - apply trim_no_comma, Hx.
  - apply CleanerFacts.trim_trimmed.
  - apply CleanerFacts.trim_trimmed.
Qed.

Lemma split_from_app (x piece r : jsstring) :
  has_comma x = false -> split_from piece (x ++ r) = split_from (piece ++ x) r.
Proof.
  revert piece. induction x as [|c x IH]; intros piece H.
  - rewrite app_nil_r. reflexivity.
  - cbn in H. apply orb_false_iff in H as [Hc Hx].
    cbn [app split_from]. rewrite Hc, (IH _ Hx), <- app_assoc. reflexivity.
Qed.

Lemma split_join (l : list jsstring) :
  l <> [] -> Forall (fun x => has_comma x = false) l ->
  split_commas (join_commas l) = l.
Proof.
  unfold split_commas. induction l as [|x l IH]; intros Hne H; [congruence|].
  inversion H as [|? ? Hx Hl]; subst.
  destruct l as [|y l].
  - cbn [join_commas]. rewrite <- (app_nil_r x) at 1.
    rewrite (split_from_app x [] [] Hx). reflexivity.
  - change (join_commas (x :: y :: l)) with (x ++ COMMA :: join_commas (y :: l)).
    rewrite (split_from_app x [] _ Hx). cbn [app split_from].
    rewrite N.eqb_refl, IH; [reflexivity | discriminate | exact Hl].
Qed.

Lemma clean_fixed (l : list jsstring) :
  Forall clean_selector l -> filter truthy (map Converter.trim l) = l.
Proof.
  induction 1 as [|x l (Hne & _ & Ht) _ IH]; [reflexivity|].
  cbn [map filter]. rewrite (trimmed_trim x Ht), IH.
  destruct x; [congruence | reflexivity].
Qed.

(** X25: the selectors that [parseSelectors] reads from a string are
    never empty, hold no comma and neither start nor end with whitespace;
    and a list of such selectors, joined by commas, is read back as it
    was. *)
Theorem parseSelectors_round_trip :
  (forall s, Forall clean_selector (parseSelectors (Text s))) /\
  (forall l, Forall clean_selector l ->
             parseSelectors (Text (join_commas l)) = l).
Proof.
  split.
  - intros s. rewrite parse_text. apply filter_trim_clean.
    apply split_from_no_comma. reflexivity.
  - intros l H. rewrite parse_text.
    destruct l as [|x l]; [reflexivity|].
    rewrite split_join; [apply clean_fixed, H | discriminate |].
    eapply Forall_impl; [|exact H]. intros a (_ & Ha & _). exact Ha.
Qed.

(** *** [convertUrlToMarkdown] *)

Local Open Scope string_scope.

Lemma lookup_miss (cs cs' : Store) (k : string) :
  lookup cs k = (cs', None) -> cs' = cs.
Proof.
  unfold lookup, Cache.lru_has, Cache.lru_get.
  destruct (Cache.isRedisEnabled cs).
  - destruct (Cache.redisHealthy cs); intros H; inversion H; reflexivity.
  - destruct (Cache.lru_find k (Cache.resultsCache cs));
      [discriminate | intros H; inversion H; reflexivity].
Qed.

(** With the master switch not ['true'], the reads and writes written out
    in [index.js] are those of [getCacheByKey] and [setCacheByKey]. *)
Lemma lookup_getCacheByKey (cs : Store) (k : string) :
  Cache.env_is (Cache.DISABLE_ALL_CACHING (Cache.env cs)) "true" = false ->
  lookup cs k = Cache.getCacheByKey cs k.
Proof. intros H. unfold lookup, Cache.getCacheByKey. rewrite H. reflexivity. Qed.

Lemma store_setCacheByKey (cs : Store) (k : string) (v : Crawler.ProcessingResult) :
  Cache.env_is (Cache.DISABLE_ALL_CACHING (Cache.env cs)) "true" = false ->
  store cs k v = fst (Cache.setCacheByKey cs k v false).
Proof.
  intros H. unfold store, Cache.setCacheByKey. rewrite H. cbn [orb].
  destruct (Cache.isRedisEnabled cs); [destruct (Cache.redisHealthy cs)|]; reflexivity.
Qed.

Lemma effective_nocache (cs : Store) (o : Options) :
  nocache (effective cs o) = bypasses cs o.
Proof.
  unfold effective, bypasses.
  destruct (Cache.env_is _ _); cbn; [rewrite orb_true_r | rewrite orb_false_r];
    reflexivity.
Qed.

Lemma effective_key (cs : Store) (url : string) (o : Options) :
  cache_key url (effective cs o) = cache_key url o.
Proof. unfold effective. destruct (Cache.env_is _ _); reflexivity. Qed.

Lemma effective_min (cs : Store) (o : Options) (env_min : option Z) :
  min_length (effective cs o) env_min = min_length o env_min.
Proof. unfold effective. destruct (Cache.env_is _ _); reflexivity. Qed.

Lemma effective_bypasses (cs : Store) (o : Options) :
  bypasses cs (effective cs o) = bypasses cs o.
Proof.
  unfold bypasses at 1. rewrite effective_nocache. unfold bypasses.
  destruct (nocache o), (Cache.env_is _ _); reflexivity.
Qed.

Lemma effective_idempotent (cs : Store) (o : Options) :
  effective cs (effective cs o) = effective cs o.
Proof. unfold effective. destruct (Cache.env_is _ _); reflexivity. Qed.

Lemma last_cons {A} (b d : A) (l : list A) : last (b :: l) d = last l b.
Proof.
  revert b d. induction l as [|x l IH]; intros b d; [reflexivity|].
  change (last (b :: x :: l) d) with (last (x :: l) d).
  rewrite (IH x d), (IH x b). reflexivity.
Qed.

Section Convert.
Variable browse : nat -> nat -> string -> Crawler.PageOutcome.
Variable text_length : string -> Z.
Variable env_min : option Z.

Lemma ended_effective (cs : Store) (url : string) (o : Options) (run : Conversion) :
  ended browse text_length env_min cs url (effective cs o) run ->
  ended browse text_length env_min cs url o run.
Proof.
  unfold ended.
  rewrite effective_bypasses, effective_key, effective_min. exact (fun H => H).
Qed.

(** The read of a call that bypasses the cache or misses: nothing found,
    the cache as it was. *)
Lemma bypass_or_miss (cs cs1 : Store) (url : string) (o : Options) :
  (if bypasses cs o then (cs, None) else lookup cs (cache_key url o)) = (cs1, None) ->
  cs1 = cs.
Proof.
  destruct (bypasses cs o); [intros [= <-]; reflexivity | apply lookup_miss].
Qed.

Lemma convertUrlToMarkdown_from_ended (url : string) (fuel : nat) :
  forall cs o retryCount fallbackStage runs,
    retryCount <= 2 -> fallbackStage <= 2 ->
    calls_left retryCount fallbackStage <= fuel ->
    exists run,
      convertUrlToMarkdown_from browse text_length env_min fuel cs url o
                                retryCount fallbackStage runs = Some run /\
      ended browse text_length env_min cs url o run.
Proof.
  induction fuel as [|fuel IH]; intros cs o r s runs Hr Hs Hfuel;
    [unfold calls_left in Hfuel; lia|].
  cbn [convertUrlToMarkdown_from]. cbv zeta.
  fold (effective cs o). fold (cache_key url (effective cs o)).
  rewrite effective_nocache, effective_key, effective_min.
  assert (Hrec : forall r' s',
             r' <= 2 -> s' <= 2 -> calls_left r' s' < calls_left r s ->
             exists run,
               convertUrlToMarkdown_from browse text_length env_min fuel cs url
                 (effective cs o) r' s' (runs ++ [(r, s)])%list = Some run /\
               ended browse text_length env_min cs url o run).
  { intros r' s' Hr' Hs' Hlt.
    destruct (IH cs (effective cs o) r' s' (runs ++ [(r, s)])%list Hr' Hs')
      as (run & E & Hend); [lia|].
    exists run. split; [exact E | apply ended_effective, Hend]. }
  destruct (if bypasses cs o then (cs, None) else lookup cs (cache_key url o))
    as [cs1 [cachedResult|]] eqn:Hl.
  { eexists. split; [reflexivity|]. unfold ended. cbn.
    destruct (bypasses cs o); [discriminate Hl | reflexivity]. }
  apply bypass_or_miss in Hl as Hcs. subst cs1. rewrite Hl.
  destruct (browse r s url) as [meta md | message | v] eqn:Hb.
  - destruct ((text_length md <? min_length o env_min)%Z) eqn:Hshort; cbn [andb].
    + destruct (s =? 0)%nat eqn:S0.
      { apply Nat.eqb_eq in S0. subst s.
        apply Hrec; [lia | lia | unfold calls_left; lia]. }
      destruct (s =? 1)%nat eqn:S1.
      { apply Nat.eqb_eq in S1. subst s.
        apply Hrec; [lia | lia | unfold calls_left; lia]. }
      apply Nat.eqb_neq in S0, S1.
      eexists. split; [reflexivity|].
      unfold ended. cbn. exists r, meta, md.
      repeat split; [exact Hb | right; lia].
    + eexists. split; [reflexivity|].
      unfold ended. cbn. exists r, meta, md.
      apply Z.ltb_ge in Hshort.
      repeat split; [exact Hb | left; exact Hshort].
  - destruct ((r <? MAX_RETRIES)%nat && Crawler.transient message) eqn:Hre.
    + apply andb_true_iff in Hre as [Hlt _].
      apply Nat.ltb_lt in Hlt. unfold MAX_RETRIES in Hlt.
      apply Hrec; [lia | lia | unfold calls_left; lia].
    + eexists. split; [reflexivity|]. reflexivity.
  - destruct (r <? MAX_RETRIES)%nat;
      (eexists; split; [reflexivity|]; reflexivity).
Qed.

Section Call.
Variable cs : Store.
Variable url : string.
Variable o : Options.

Local Abbreviation next_run := (ServerSpec.next_run browse text_length env_min url o).
Local Abbreviation follows := (ServerSpec.follows browse text_length env_min url o).
Local Abbreviation settles := (ServerSpec.settles browse cs url o).

(** The call that makes the run [(retryCount, fallbackStage)], the cache
    holding nothing under the key or being bypassed. *)
Lemma convertUrlToMarkdown_from_explained (fuel : nat) :
  forall o' r s runs,
    effective cs o' = effective cs o ->
    found cs url o = None ->
    r <= 2 -> s <= 2 ->
    calls_left r s <= fuel ->
    exists run,
      convertUrlToMarkdown_from browse text_length env_min fuel cs url o' r s runs
      = Some run /\
      exists rest,
        cv_runs run = (runs ++ (r, s) :: rest)%list /\
        follows (r, s) rest /\
        settles (last rest (r, s)) run /\
        length rest < calls_left r s.
Proof.
  induction fuel as [|fuel IH]; intros o' r s runs Heff Hmiss Hr Hs Hfuel;
    [unfold calls_left in Hfuel; lia|].
  cbn [convertUrlToMarkdown_from]. cbv zeta.
  fold (effective cs o'). rewrite Heff. fold (cache_key url (effective cs o)).
  rewrite effective_nocache, effective_key, effective_min.
  assert (Hlook : (if bypasses cs o then (cs, None) else lookup cs (cache_key url o))
                  = (cs, None)).
  { unfold found in Hmiss. destruct (bypasses cs o); [reflexivity|].
    destruct (lookup cs (cache_key url o)) as [cs1 x] eqn:L. cbn [snd] in Hmiss.
    subst x. apply lookup_miss in L as E. subst cs1. reflexivity. }
  rewrite Hlook. cbv beta iota. rewrite ?Hlook.
  assert (Hrec : forall r' s',
             r' <= 2 -> s' <= 2 -> calls_left r' s' < calls_left r s ->
             next_run (r, s) = Some (r', s') ->
             exists run,
               convertUrlToMarkdown_from browse text_length env_min fuel cs url
                 (effective cs o) r' s' (runs ++ [(r, s)])%list = Some run /\
               exists rest,
                 cv_runs run = (runs ++ (r, s) :: rest)%list /\
                 follows (r, s) rest /\
                 settles (last rest (r, s)) run /\
                 length rest < calls_left r s).
  { intros r' s' Hr' Hs' Hlt Hnext.
    destruct (IH (effective cs o) r' s' (runs ++ [(r, s)])%list)
      as (run & E & rest & Hruns & Hfol & Hset & Hlen);
      [apply effective_idempotent | exact Hmiss | exact Hr' | exact Hs' | lia |].
    exists run. split; [exact E|]. exists ((r', s') :: rest).
    split; [rewrite Hruns, <- app_assoc; reflexivity|].
    split; [split; [exact Hnext | exact Hfol]|].
    split; [rewrite last_cons; exact Hset | cbn [length]; lia]. }
  assert (Hend : forall run,
             next_run (r, s) = None ->
             cv_runs run = (runs ++ [(r, s)])%list ->
             settles (r, s) run ->
             exists rest,
               cv_runs run = (runs ++ (r, s) :: rest)%list /\
               follows (r, s) rest /\
               settles (last rest (r, s)) run /\
               length rest < calls_left r s).
  { intros run Hnext Hruns Hset. exists [].
    split; [exact Hruns|]. split; [exact Hnext|]. split; [exact Hset|].
    unfold calls_left. cbn. lia. }
  destruct (browse r s url) as [meta md | message | v] eqn:Hb.
  - destruct ((text_length md <? min_length o env_min)%Z) eqn:Hshort; cbn [andb].
    + destruct (s =? 0)%nat eqn:S0.
      { apply Nat.eqb_eq in S0. subst s.
        apply Hrec; [lia | lia | unfold calls_left; lia|].
        unfold ServerSpec.next_run. cbn [fst snd]. rewrite Hb, Hshort. reflexivity. }
      destruct (s =? 1)%nat eqn:S1.
      { apply Nat.eqb_eq in S1. subst s.
        apply Hrec; [lia | lia | unfold calls_left; lia|].
        unfold ServerSpec.next_run. cbn [fst snd]. rewrite Hb, Hshort. reflexivity. }
      apply Nat.eqb_neq in S0, S1.
      eexists. split; [reflexivity|]. apply Hend; [|reflexivity|].
      * unfold ServerSpec.next_run. cbn [fst snd]. rewrite Hb, Hshort.
        replace (s <? 2)%nat with false; [reflexivity|].
        symmetry. apply Nat.ltb_ge. lia.
      * unfold ServerSpec.settles. cbn [fst snd]. rewrite Hb. cbn. split; reflexivity.
    + eexists. split; [reflexivity|]. apply Hend; [|reflexivity|].
      * unfold ServerSpec.next_run. cbn [fst snd]. rewrite Hb, Hshort. reflexivity.
      * unfold ServerSpec.settles. cbn [fst snd]. rewrite Hb. cbn. split; reflexivity.
  - destruct ((r <? MAX_RETRIES)%nat && Crawler.transient message) eqn:Hre.
    + apply andb_true_iff in Hre as Hre'. destruct Hre' as [Hlt _].
      apply Nat.ltb_lt in Hlt. unfold MAX_RETRIES in Hlt.
      apply Hrec; [lia | lia | unfold calls_left; lia|].
      unfold ServerSpec.next_run. cbn [fst snd]. rewrite Hb, Hre. reflexivity.
    + eexists. split; [reflexivity|]. apply Hend; [|reflexivity|].
      * unfold ServerSpec.next_run. cbn [fst snd]. rewrite Hb, Hre. reflexivity.
      * unfold ServerSpec.settles. cbn [fst snd]. rewrite Hb. cbn. split; reflexivity.
  - assert (Hnext : next_run (r, s) = None)
      by (unfold ServerSpec.next_run; cbn [fst snd]; rewrite Hb; reflexivity).
    destruct (r <? MAX_RETRIES)%nat eqn:Hlt;
      (eexists; split; [reflexivity|]; apply Hend; [exact Hnext | reflexivity|];
       unfold ServerSpec.settles; cbn [fst snd]; rewrite Hb, Hlt; cbn;
       split; reflexivity).
Qed.

(** X26: every call of [convertUrlToMarkdown] settles after at most five
    runs of the browser pipeline, and what it hands back is read off the
    cache and the runs.  The [content] of a record found in the cache is
    returned and the pipeline is not run.  Otherwise the runs start at
    attempt 0 of stage 0; a page whose Markdown is shorter than the minimum
    is followed by the next stage, below stage 2, and a transient error by
    the next attempt, below attempt 2; the run that is followed by none is
    the last: its page is returned as the document of the template, and
    cached unless the cache is bypassed, or its error is thrown again and
    the cache left as it was.  A thrown value that is no [Error] makes the
    test of the [catch] block throw a [TypeError] below attempt 2. *)
Theorem convertUrlToMarkdown_settles :
  exists run,
    convertUrlToMarkdown browse text_length env_min cs url o = Some run /\
    length (cv_runs run) <= 5 /\
    explained browse text_length env_min cs url o run.
Proof.
  unfold convertUrlToMarkdown, explained.
  destruct (found cs url o) as [record|] eqn:Hf.
  - cbn [convertUrlToMarkdown_from]. cbv zeta.
    fold (effective cs o). fold (cache_key url (effective cs o)).
    rewrite effective_nocache, effective_key.
    unfold found in Hf. destruct (bypasses cs o); [discriminate Hf|].
    destruct (lookup cs (cache_key url o)) as [cs1 x]. cbn [snd] in Hf. subst x.
    eexists. split; [reflexivity|]. cbn. repeat split. lia.
  - destruct (convertUrlToMarkdown_from_explained 5 o 0 0 [])
      as (run & E & rest & Hruns & Hfol & Hset & Hlen);
      [reflexivity | exact Hf | lia | lia | reflexivity|].
    exists run. split; [exact E|]. cbn [app] in Hruns.
    split; [rewrite Hruns; cbn [length]; unfold calls_left in Hlen; cbn in Hlen; lia|].
    exists rest. auto.
Qed.

End Call.

End Convert.

(** *** The cache shared with the crawler *)

Lemma processUrl_from_converted (browse : nat -> string -> Crawler.PageOutcome)
      (fuel : nat) :
  forall cs m u c n retried run,
    Crawler.processUrl_from browse fuel cs m u c n retried = Some run ->
    Crawler.ur_ending run = Crawler.Converted ->
    exists attempt meta md,
      browse attempt u = Crawler.PageOk meta md /\
      Crawler.ur_result run
      = Crawler.Resolved (Crawler.mkResult u true (Some meta) (Some md) None).
Proof.
  induction fuel as [|fuel IH]; intros cs m u c n retried run; [discriminate|].
  cbn [Crawler.processUrl_from].
  destruct (if Crawler.nocache c then (cs, None)
            else Cache.getCacheByKey cs
                   (Cache.createCacheKey u (Crawler.targetSelectors c)
                                         (Crawler.removeSelectors c)))
    as [cs1 [r|]].
  - intros [= <-]. discriminate.
  - destruct (browse n u) as [meta md | message | v] eqn:Hb.
    + intros [= <-] _. exists n, meta, md. split; [exact Hb | reflexivity].
    + destruct ((Z.of_nat n <? Crawler.retry_limit c)%Z && Crawler.transient message).
      * apply IH.
      * intros [= <-]. discriminate.
    + destruct ((Z.of_nat n <? Crawler.retry_limit c)%Z || Crawler.is_nullish v);
        intros [= <-]; discriminate.
Qed.

Lemma length_append (a b : string) :
  String.length (a ++ b) = String.length a + String.length b.
Proof. induction a as [|x a IH]; cbn; [reflexivity | rewrite IH; reflexivity]. Qed.

Lemma document_not_markdown (url meta md : string) : md <> document url meta md.
Proof.
  intros E. apply (f_equal String.length) in E. unfold document in E.
  rewrite !length_append in E. cbn in E. lia.
Qed.

(** What the cache holds under a key once an entry was written there. *)
Lemma written_then_found (cs : Store) (k : string) (v : Crawler.ProcessingResult) :
  Cache.env_is (Cache.DISABLE_ALL_CACHING (Cache.env cs)) "true" = false ->
  CacheSpec.tier_answers cs ->
  Cache.env (fst (Cache.setCacheByKey cs k v false)) = Cache.env cs /\
  snd (Cache.getCacheByKey (fst (Cache.setCacheByKey cs k v false)) k) = Some v.
Proof.
  intros Hsw Hans.
  destruct (CacheFacts.setCacheByKey_stores cs k v Hsw Hans)
    as (_ & Henv & Hred & Hhealth & Hfind).
  split; [exact Henv|].
  apply CacheFacts.getCacheByKey_found.
  - rewrite Henv. exact Hsw.
  - unfold CacheSpec.tier_answers. rewrite Hred, Hhealth. exact Hans.
  - rewrite Hred. exact Hfind.
Qed.

(** X27: when [convertUrlToMarkdown] has freshly converted a URL with the
    cache in use, a crawl job with the same selectors that comes to this
    URL is served the cached record: its result has no metadata, and its
    content is the whole document of the server, [URL:] header and metadata
    included, not the Markdown that [processUrl] produces itself. *)
Theorem crawl_after_convert
        (browse : nat -> nat -> string -> Crawler.PageOutcome)
        (text_length : string -> Z) (env_min : option Z)
        (browse' : nat -> string -> Crawler.PageOutcome)
        (cs : Store) (m : Crawler.Metrics) (url : string) (o : Options)
        (c : Crawler.Config) (conv : Conversion) (stage : nat) :
  nocache o = false -> Crawler.nocache c = false ->
  Crawler.targetSelectors c = targetSelectors o ->
  Crawler.removeSelectors c = removeSelectors o ->
  Cache.DISABLE_ALL_CACHING (Cache.env cs) <> Some "true" ->
  CacheSpec.tier_answers cs ->
  convertUrlToMarkdown browse text_length env_min cs url o = Some conv ->
  cv_ending conv = Fresh stage ->
  exists meta md,
    cv_outcome conv = Returned (Some (document url meta md)) /\
    exists run',
      Crawler.processUrl browse' (cv_cache conv) m url c = Some run' /\
      Crawler.ur_ending run' = Crawler.FromCache /\
      Crawler.ur_result run'
      = Crawler.Resolved
          (Crawler.mkResult url true None (Some (document url meta md)) None) /\
      Crawler.ur_metrics run' = m.
Proof.
  intros Hno Hno' Ht Hr Hsw Hans Hconv Hend.
  apply CacheFacts.env_is_neq in Hsw.
  destruct (convertUrlToMarkdown_from_ended browse text_length env_min url 5 cs o 0 0 [])
    as (run & E & Hrun); [lia | lia | reflexivity|].
  unfold convertUrlToMarkdown in Hconv. rewrite Hconv in E.
  injection E as <-. unfold ended in Hrun. rewrite Hend in Hrun.
  destruct Hrun as (retry & meta & md & _ & Hout & _ & Hcache).
  unfold bypasses in Hcache. rewrite Hno, Hsw in Hcache. cbn [orb] in Hcache.
  rewrite (store_setCacheByKey _ _ _ Hsw) in Hcache.
  exists meta, md. split; [exact Hout|].
  destruct (written_then_found cs (cache_key url o)
              (cacheData url (document url meta md)) Hsw Hans) as [_ Hget].
  rewrite <- Hcache in Hget.
  unfold Crawler.processUrl. cbn [Crawler.processUrl_from].
  rewrite Hno', Ht, Hr. fold (cache_key url o).
  destruct (Cache.getCacheByKey (cv_cache conv) (cache_key url o)) as [cs1 cached].
  cbn [snd] in Hget. subst cached.
  eexists. split; [reflexivity|]. cbn. auto.
Qed.

Lemma crawl_after_convert_witness :
  exists conv,
    convertUrlToMarkdown short_page (fun s => Z.of_nat (String.length s)) None
                         RetrySpec.fresh_cache "https://a.example/" plain_options
    = Some conv /\
    exists run',
      Crawler.processUrl RetrySpec.unreachable (cv_cache conv)
                         (Crawler.mkMetrics 0 0 0) "https://a.example/"
                         (Crawler.createJob_config RetrySpec.no_retry_defaults
                                                   RetrySpec.cached_request)
      = Some run' /\
      exists r, Crawler.ur_result run' = Crawler.Resolved r /\ Crawler.metadata r = None.
Proof.
  eexists. split; [reflexivity|].
  destruct (crawl_after_convert
              short_page (fun s => Z.of_nat (String.length s)) None
              RetrySpec.unreachable RetrySpec.fresh_cache (Crawler.mkMetrics 0 0 0)
              "https://a.example/" plain_options
              (Crawler.createJob_config RetrySpec.no_retry_defaults
                                        RetrySpec.cached_request)
              _ 2 eq_refl eq_refl eq_refl eq_refl
              ltac:(discriminate) ltac:(unfold CacheSpec.tier_answers; discriminate)
              eq_refl eq_refl)
    as (meta & md & _ & run' & H1 & _ & H2 & _).
  exists run'. split; [exact H1|]. eexists. split; [exact H2 | reflexivity].
Defined.

(** X28: when a crawl job that uses the cache has converted a URL,
    [convertUrlToMarkdown] with the same selectors returns, without running
    the browser pipeline, the Markdown alone: not a document of its
    template, which starts with the [URL:] header and the metadata. *)
Theorem convert_after_crawl
        (browse0 : nat -> string -> Crawler.PageOutcome)
        (browse : nat -> nat -> string -> Crawler.PageOutcome)
        (text_length : string -> Z) (env_min : option Z)
        (cs : Store) (m : Crawler.Metrics) (url : string) (c : Crawler.Config)
        (o : Options) (run : Crawler.UrlRun) :
  Crawler.nocache c = false -> nocache o = false ->
  targetSelectors o = Crawler.targetSelectors c ->
  removeSelectors o = Crawler.removeSelectors c ->
  Cache.DISABLE_ALL_CACHING (Cache.env cs) <> Some "true" ->
  CacheSpec.tier_answers cs ->
  Crawler.processUrl browse0 cs m url c = Some run ->
  Crawler.ur_ending run = Crawler.Converted ->
  exists attempt meta md,
    browse0 attempt url = Crawler.PageOk meta md /\
    (forall meta', md <> document url meta' md) /\
    exists conv,
      convertUrlToMarkdown browse text_length env_min (Crawler.ur_cache run) url o
      = Some conv /\
      cv_outcome conv = Returned (Some md) /\
      cv_ending conv = Hit /\
      cv_runs conv = [].
Proof.
  intros Hno Hno' Ht Hr Hsw Hans Hrun Hend.
  apply CacheFacts.env_is_neq in Hsw.
  destruct (processUrl_from_converted _ _ _ _ _ _ _ _ _ Hrun Hend)
    as (attempt & meta & md & Hb & Hres).
  exists attempt, meta, md. split; [exact Hb|].
  split; [intros meta'; apply document_not_markdown|].
  pose proof (RetryFacts.processUrl_from_accounted _ _ _ _ _ _ _ _ _ Hrun) as Hacc.
  unfold RetrySpec.accounted in Hacc. rewrite Hend, Hno in Hacc.
  destruct Hacc as (_ & result & Hres' & Hcache).
  rewrite Hres in Hres'. injection Hres' as <-.
  destruct (written_then_found cs (RetrySpec.key_of url c)
              (Crawler.mkResult url true (Some meta) (Some md) None)
              Hsw Hans) as [Henv Hget].
  rewrite <- Hcache in Henv, Hget.
  unfold convertUrlToMarkdown. cbn [convertUrlToMarkdown_from]. cbv zeta.
  rewrite Henv, Hsw, Hno', Ht, Hr.
  rewrite lookup_getCacheByKey by (rewrite Henv; exact Hsw).
  fold (RetrySpec.key_of url c).
  destruct (Cache.getCacheByKey (Crawler.ur_cache run) (RetrySpec.key_of url c))
    as [cs1 cached].
  cbn [snd] in Hget. subst cached.
  eexists. split; [reflexivity|]. cbn. auto.
Qed.

Lemma convert_after_crawl_witness :
  exists run,
    Crawler.processUrl RetrySpec.always_ok RetrySpec.fresh_cache
                       (Crawler.mkMetrics 0 0 0) "https://a.example/"
                       (Crawler.createJob_config RetrySpec.no_retry_defaults
                                                 RetrySpec.cached_request)
    = Some run /\
    exists conv,
      convertUrlToMarkdown short_page (fun s => Z.of_nat (String.length s)) None
                           (Crawler.ur_cache run) "https://a.example/" plain_options
      = Some conv /\
      cv_outcome conv = Returned (Some "# A").
Proof.
  eexists. split; [reflexivity|].
  destruct (convert_after_crawl
              RetrySpec.always_ok short_page (fun s => Z.of_nat (String.length s)) None
              RetrySpec.fresh_cache (Crawler.mkMetrics 0 0 0) "https://a.example/"
              (Crawler.createJob_config RetrySpec.no_retry_defaults
                                        RetrySpec.cached_request)
              plain_options _ eq_refl eq_refl eq_refl eq_refl
              ltac:(discriminate) ltac:(unfold CacheSpec.tier_answers; discriminate)
              eq_refl eq_refl)
    as (attempt & meta & md & Hb & _ & conv & H1 & H2 & _).
  exists conv. split; [exact H1|].
  unfold RetrySpec.always_ok in Hb. injection Hb as _ <-. exact H2.
Defined.

End ServerFacts.

(** ** Properties of [JSMap] *)

Module JSMapFacts.
Import JSMap.

Section Facts.
Context {V : Type}.
Implicit Types (m : JSMap.t V) (k : string) (v : V).

Lemma get_in k m v : get k m = Some v -> In (k, v) m.
Proof.
  induction m as [|[k' v'] m IH]; simpl; [discriminate|].
  destruct (k' =? k)%string eqn:E.
  - apply String.eqb_eq in E. intros [= ->]. left. congruence.
  - intros H. right. apply IH, H.
Qed.

Lemma get_none k m : get k m = None <-> ~ In k (keys m).
Proof.
  unfold keys. induction m as [|[k' v'] m IH]; simpl; [tauto|].
  destruct (k' =? k)%string eqn:E.
  - apply String.eqb_eq in E. split; [discriminate | intros H; exfalso; apply H; auto].
  - apply String.eqb_neq in E. rewrite IH. tauto.
Qed.

Lemma has_in k m : has k m = true <-> In k (keys m).
Proof.
  unfold has. destruct (get k m) as [v|] eqn:E.
  - split; [intros _ | reflexivity].
    apply get_in in E. unfold keys. apply in_map_iff. exists (k, v). auto.
  - split; [discriminate|]. intros H. apply get_none in E. contradiction.
Qed.

Lemma set_absent k v m : ~ In k (keys m) -> set k v m = m ++ [(k, v)].
Proof.
  unfold keys. induction m as [|[k' v'] m IH]; simpl; intros H; [reflexivity|].
  destruct (k' =? k)%string eqn:E.
  - apply String.eqb_eq in E. exfalso. apply H. auto.
  - f_equal. apply IH. tauto.
Qed.

Lemma keys_set_present k v m : In k (keys m) -> keys (set k v m) = keys m.
Proof.
  unfold keys. induction m as [|[k' v'] m IH]; simpl; intros H; [tauto|].
  destruct (k' =? k)%string eqn:E.
  - apply String.eqb_eq in E. simpl. congruence.
  - apply String.eqb_neq in E. simpl. f_equal. apply IH.
    destruct H as [H|H]; [contradiction | exact H].
Qed.

Lemma in_set k v m (kv : string * V) :
  In kv (set k v m) -> kv = (k, v) \/ In kv m.
Proof.
  induction m as [|[k' v'] m IH]; simpl.
  - intros [<- | []]. auto.
  - destruct (k' =? k)%string; simpl.
    + intros [<- | H]; auto.
    + intros [<- | H]; auto. destruct (IH H); auto.
Qed.

Lemma in_keys_set k v m : In k (keys (set k v m)).
Proof.
  destruct (in_dec string_dec k (keys m)) as [H | H].
  - rewrite keys_set_present; assumption.
  - rewrite set_absent by exact H. unfold keys. rewrite map_app.
    apply in_or_app. right. left. reflexivity.
Qed.

Lemma keys_set_incl k v m (k' : string) : In k' (keys m) -> In k' (keys (set k v m)).
Proof.
  intros H'. destruct (in_dec string_dec k (keys m)) as [H | H].
  - rewrite keys_set_present; assumption.
  - rewrite set_absent by exact H. unfold keys in *. rewrite map_app.
    apply in_or_app. left. exact H'.
Qed.

Lemma NoDup_keys_set k v m : NoDup (keys m) -> NoDup (keys (set k v m)).
Proof.
  intros Hnd. destruct (in_dec string_dec k (keys m)) as [H | H].
  - rewrite keys_set_present; assumption.
  - rewrite set_absent by exact H. unfold keys in *. rewrite map_app. simpl.
    apply NoDup_app; [exact Hnd | constructor; [tauto | constructor] |].
    intros x Hx [<- | []]. contradiction.
Qed.

Lemma keys_set_either k v m (k' : string) :
  In k' (keys (set k v m)) -> k' = k \/ In k' (keys m).
Proof.
  unfold keys. intros H. apply in_map_iff in H as [[a b] [<- H]].
  apply in_set in H as [[= -> ->] | H]; [left; reflexivity|].
  right. apply in_map_iff. exists (a, b). auto.
Qed.

End Facts.
End JSMapFacts.

(** ** Properties of the orchestrator *)

Module OrchestratorFacts.
Import Js Crawler Orchestrator OrchestratorSpec.

(** *** Reporting *)

(** C10: for a job whose status is [completed], the state written by
    [saveJobState] and the report of [getJobStatus] carry a [total] equal to
    [processed], the number of processed entries, whatever the number of
    enumerated URLs was; [saveJobState] also overwrites [job.total]. *)
Theorem completed_total_is_processed (j : Job) :
  job_status j = Completed ->
  total (saved_summary (snd (saveJobState j))) = job_processed j /\
  processed (saved_summary (snd (saveJobState j))) = job_processed j /\
  job_total (fst (saveJobState j)) = job_processed j /\
  total (rep_summary (getJobStatus j)) = job_processed j /\
  processed (rep_summary (getJobStatus j)) = job_processed j.
Proof.
  intros H. unfold saveJobState, getJobStatus. rewrite H. cbn [is_completed andb].
  cbn [summary_of total processed].
  destruct (job_total j =? job_processed j) eqn:E; cbn [negb].
  - apply Nat.eqb_eq in E. cbn. rewrite E. repeat split.
  - cbn. repeat split.
Qed.

Lemma completed_total_is_processed_witness :
  job_total finished_job = 3 /\ job_processed finished_job = 2 /\
  total (saved_summary (snd (saveJobState finished_job))) = 2 /\
  total (rep_summary (getJobStatus finished_job)) = 2.
Proof.
  split; [reflexivity|]. split; [reflexivity|].
  pose proof (completed_total_is_processed finished_job eq_refl) as H.
  split; [exact (proj1 H) | exact (proj1 (proj2 (proj2 (proj2 H))))].
Defined.

(** *** Enumeration *)

Lemma distinct_length (l seen : list string) :
  length (distinct seen l) <= length l.
Proof.
  revert seen. induction l as [|u l IH]; intros seen; simpl; [lia|].
  destruct (existsb (String.eqb u) seen); simpl.
  - specialize (IH seen). lia.
  - specialize (IH (u :: seen)). lia.
Qed.

Lemma existsb_eqb_In (u : string) (l : list string) :
  existsb (String.eqb u) l = true <-> In u l.
Proof.
  rewrite existsb_exists. split.
  - intros [x [Hx E]]. apply String.eqb_eq in E. subst. exact Hx.
  - intros H. exists u. split; [exact H | apply String.eqb_refl].
Qed.

Lemma distinct_NoDup_id (l seen : list string) :
  NoDup l -> (forall x, In x seen -> ~ In x l) -> distinct seen l = l.
Proof.
  revert seen. induction l as [|u l IH]; intros seen Hnd Hs; simpl; [reflexivity|].
  inversion Hnd as [|? ? Hu Hl]; subst.
  destruct (existsb (String.eqb u) seen) eqn:E.
  - apply existsb_eqb_In in E. exfalso. apply (Hs u E). left. reflexivity.
  - f_equal. apply IH; [exact Hl|].
    intros x [<- | Hx] Hin; [exact (Hu Hin)|].
    apply (Hs x Hx). right. exact Hin.
Qed.

Lemma distinct_full_length (l seen : list string) :
  length (distinct seen l) = length l ->
  NoDup l /\ (forall x, In x seen -> ~ In x l).
Proof.
  revert seen. induction l as [|u l IH]; intros seen H; simpl in *.
  - split; [constructor | tauto].
  - destruct (existsb (String.eqb u) seen) eqn:E.
    + pose proof (distinct_length l seen). lia.
    + simpl in H. injection H as H. destruct (IH _ H) as [Hnd Hs]. split.
      * constructor; [|exact Hnd]. intros Hin. apply (Hs u); [left; reflexivity | exact Hin].
      * intros x Hx [<- | Hin].
        -- apply existsb_eqb_In in Hx. congruence.
        -- apply (Hs x); [right; exact Hx | exact Hin].
Qed.

Lemma batches_from_concat (urls : list string) (batchSize : nat) (fuel : nat) :
  forall i, 0 < batchSize -> length urls <= i + fuel ->
            concat (batches_from fuel urls batchSize i) = skipn i urls.
Proof.
  induction fuel as [|fuel IH]; intros i Hb Hf; cbn [batches_from].
  - rewrite skipn_all2 by lia. reflexivity.
  - destruct (i <? length urls) eqn:E.
    + cbn [concat]. rewrite IH by lia.
      rewrite (Nat.add_comm i batchSize), <- skipn_skipn.
      apply firstn_skipn.
    + apply Nat.ltb_ge in E. rewrite skipn_all2 by lia. reflexivity.
Qed.

(** The batches are the enumerated list cut into pieces, in order: the loop
    that cuts them is not stopped by its fuel. *)
Lemma make_batches_concat (batchSize : Z) (urls : list string) (bs : list (list string)) :
  make_batches batchSize urls = Some bs -> concat bs = urls.
Proof.
  unfold make_batches. destruct (batchSize <=? 0)%Z eqn:E; [discriminate|].
  apply Z.leb_gt in E. intros [= <-].
  rewrite batches_from_concat; [reflexivity | lia | lia].
Qed.

Lemma make_batches_returns (batchSize : Z) (urls : list string) :
  (0 < batchSize)%Z -> exists bs, make_batches batchSize urls = Some bs.
Proof.
  intros H. unfold make_batches.
  destruct (batchSize <=? 0)%Z eqn:E; [apply Z.leb_le in E; lia | eexists; reflexivity].
Qed.

(** C4 (counterexample): the list [u, u] holds one distinct URL, and the
    job enters the loop over the batches with [total = 2]. *)
Lemma total_counts_duplicates :
  match prepare plain_world (new_job no_defaults (request_for ["u"; "u"]%string 10 5)) with
  | Ready d urls _ => job_total (d_job d) = 2 /\ length (distinct [] urls) = 1
  | _ => False
  end.
Proof. cbn. split; reflexivity. Qed.

(** C4 (amended): when the loop over the batches is reached, [total] is the
    length of the enumerated list of URLs, repeated URLs counted as often as
    they occur (the batches are that list cut into pieces); it is at least
    the number of distinct URLs, and equal to it exactly when no URL is
    repeated. *)
Theorem total_is_enumerated_length (w : World) (j : Job) (d : Driver)
        (urls : list string) (bs : list (list string)) :
  prepare w j = Ready d urls bs ->
  enumerate w j = inr urls /\
  concat bs = urls /\
  job_total (d_job d) = length urls /\
  length (distinct [] urls) <= job_total (d_job d) /\
  (job_total (d_job d) = length (distinct [] urls) <-> NoDup urls).
Proof.
  unfold prepare. intros H.
  destruct (enumerate w j) as [message | [|u us]]; [discriminate.. |].
  destruct (make_batches (batchSize (job_cfg j)) (u :: us)) eqn:B; [|discriminate].
  injection H as <- <- <-.
  split; [reflexivity|].
  split; [exact (make_batches_concat _ _ _ B)|].
  assert (E : forall d0, job_total (d_job (on_job (fun j0 => set_batches l (start_job (u :: us) j0)) d0))
                         = length (u :: us)) by reflexivity.
  rewrite E. split; [reflexivity|].
  split; [apply distinct_length|].
  split.
  - intros Hlen. symmetry in Hlen. apply (distinct_full_length _ _ Hlen).
  - intros Hnd. rewrite distinct_NoDup_id; [reflexivity | exact Hnd | intros x []].
Qed.

Lemma total_is_enumerated_length_witness :
  match prepare plain_world (new_job no_defaults (request_for ["u"; "v"]%string 10 5)) with
  | Ready d urls _ => job_total (d_job d) = length urls
  | _ => False
  end.
Proof.
  destruct (prepare plain_world (new_job no_defaults (request_for ["u"; "v"]%string 10 5)))
    as [d urls bs | |] eqn:E; [|discriminate E..].
  exact (proj1 (proj2 (proj2 (total_is_enumerated_length _ _ _ _ _ E)))).
Defined.

(** *** Count closure *)

Lemma filter_split_length {A} (p : A -> bool) (l : list A) :
  length l = length (filter p l) + length (filter (fun x => negb (p x)) l).
Proof.
  induction l as [|x l IH]; simpl; [reflexivity|].
  destruct (p x); simpl; lia.
Qed.

Lemma recount_counted (j : Job) : Counted (recount j) /\ Mapped (recount j).
Proof.
  unfold Counted, Mapped, recount. cbn.
  unfold JSMap.size, JSMap.values.
  rewrite <- filter_split_length, length_map. split; reflexivity.
Qed.

Lemma good_observed_running (p : AwaitPoint) (j : Job) :
  Counted j -> Running j -> Good (Observed p j).
Proof.
  intros Hc [Hr1 Hr2]. unfold Good, getJobStatus, summary_ok. cbn [rep_status rep_summary].
  destruct (job_status j) eqn:E; try congruence; cbn; (split; [exact Hc|]);
    intros [H|H]; discriminate H.
Qed.

Lemma good_observed_closed (p : AwaitPoint) (j : Job) :
  Counted j -> job_total j = job_processed j -> Good (Observed p j).
Proof.
  intros Hc Ht. unfold Good, getJobStatus, summary_ok. cbn [rep_status rep_summary].
  cbn [summary_of total processed]. rewrite Ht, Nat.eqb_refl, andb_false_r.
  cbn. split; [exact Hc | intros _; exact Ht].
Qed.

Lemma await_job (w : World) (p : AwaitPoint) (d : Driver) :
  d_job (await w p d) = d_job d \/ d_job (await w p d) = set_status Cancelled (d_job d).
Proof. unfold await. destruct (cancel_at w p); cbn; auto. Qed.

Lemma await_trace (w : World) (p : AwaitPoint) (d : Driver) :
  d_trace (await w p d) = d_trace d ++ [Observed p (d_job d)] \/
  d_trace (await w p d)
  = d_trace d ++ [Observed p (d_job d); CancelReturned (snd (cancelJob (d_job d)));
                  Observed p (set_status Cancelled (d_job d))].
Proof. unfold await. destruct (cancel_at w p); cbn; auto. Qed.

Lemma await_loop_inv (w : World) (p : AwaitPoint) (d : Driver) :
  LoopInv d -> LoopInv (await w p d).
Proof.
  intros (Ht & Hc & Hm & Hr).
  assert (Hcancel : Counted (set_status Cancelled (d_job d)) /\
                    Mapped (set_status Cancelled (d_job d)) /\
                    Running (set_status Cancelled (d_job d))).
  { repeat split; try assumption; cbn; discriminate. }
  destruct Hcancel as (Hc' & Hm' & Hr').
  unfold LoopInv.
  destruct (await_trace w p d) as [-> | ->];
    (split; [apply Forall_app; split; [exact Ht|]|]).
  - constructor; [apply good_observed_running; assumption | constructor].
  - destruct (await_job w p d) as [-> | ->]; auto.
  - repeat constructor; apply good_observed_running; assumption.
  - destruct (await_job w p d) as [-> | ->]; auto.
Qed.

Lemma await_closed_inv (w : World) (p : AwaitPoint) (d : Driver) :
  ClosedInv d -> ClosedInv (await w p d).
Proof.
  intros (Ht & Hc & Hm & Hcl).
  unfold ClosedInv.
  destruct (await_trace w p d) as [-> | ->];
    (split; [apply Forall_app; split; [exact Ht|]|]).
  - constructor; [apply good_observed_closed; assumption | constructor].
  - destruct (await_job w p d) as [-> | ->]; auto.
  - repeat constructor; apply good_observed_closed; assumption.
  - destruct (await_job w p d) as [-> | ->]; auto.
Qed.

Lemma run_batch_frame (w : World) (k : nat) (batch : list string) (d : Driver) :
  d_trace (run_batch w k batch d) = d_trace d /\
  exists m, d_job (run_batch w k batch d) = set_map m (d_job d).
Proof.
  unfold run_batch.
  destruct (Worker.processInBatches _ _ _ _ _ _ _) as [st rs].
  cbn. split; [reflexivity | eexists; reflexivity].
Qed.

Lemma batch_step_inv (w : World) (k : nat) (batch : list string) (d : Driver) :
  LoopInv d ->
  LoopInv (on_job (fun j => recount (results_from_map j)) (run_batch w k batch d)).
Proof.
  intros (Ht & Hc & Hm & Hr).
  destruct (run_batch_frame w k batch d) as [Etr [m Ej]].
  unfold LoopInv, on_job. cbn [d_trace d_job]. rewrite Etr, Ej.
  split; [exact Ht|].
  destruct (recount_counted (results_from_map (set_map m (d_job d)))) as [H1 H2].
  split; [exact H1|]. split; [exact H2|]. exact Hr.
Qed.

Lemma save_loop_inv (d : Driver) : LoopInv d -> LoopInv (save d).
Proof.
  intros (Ht & Hc & Hm & Hr).
  assert (E : saveJobState (d_job d)
              = (d_job d, mkSaved (job_status (d_job d)) (summary_of (d_job d))
                                  (job_results (d_job d)) (job_error (d_job d)))).
  { unfold saveJobState. destruct Hr as [Hr _].
    assert (Hn : is_completed (job_status (d_job d)) = false)
      by (destruct (job_status (d_job d)); try reflexivity; congruence).
    rewrite Hn. reflexivity. }
  unfold save. rewrite E. unfold LoopInv. cbn.
  split; [|auto].
  apply Forall_app. split; [exact Ht|]. constructor; [|constructor].
  cbn. split; [|exact Hm]. split; [exact Hc|].
  destruct Hr as [Hr1 Hr2]. intros [H|H]; congruence.
Qed.

Lemma send_progress_loop_inv (k : nat) (d : Driver) :
  LoopInv d -> LoopInv (send_progress k d).
Proof.
  intros H. pose proof H as (Ht & Hc & Hm & Hr). unfold send_progress.
  destruct (webhook (job_cfg (d_job d))) as [wh|]; [|exact H].
  destruct (wh_url wh) as [[|a s]|]; try exact H.
  unfold LoopInv. cbn. split; [|auto].
  apply Forall_app. split; [exact Ht|]. constructor; [exact Hc | constructor].
Qed.

Lemma run_batches_loop_inv (w : World) (bs : list (list string)) :
  forall (k : nat) (d : Driver), LoopInv d -> LoopInv (run_batches w k bs d).
Proof.
  induction bs as [|batch bs IH]; intros k d H; cbn [run_batches]; [exact H|].
  assert (H0 : LoopInv (on_job (set_currentBatch (k + 1)) d)).
  { destruct H as (Ht & Hc & Hm & Hr). repeat split; try assumption; apply Hr. }
  destruct (is_cancelled _); [exact H0|].
  apply IH.
  set (d1 := await w (AwSave k)
               (save (on_job (fun j => recount (results_from_map j))
                             (run_batch w k batch (await w (AwBatch k)
                                (on_job (set_currentBatch (k + 1)) d)))))).
  assert (H1 : LoopInv d1).
  { apply await_loop_inv, save_loop_inv, batch_step_inv, await_loop_inv, H0. }
  set (d2 := if wants_progress (d_job d1)
             then await w (AwProgress k) (send_progress k d1) else d1).
  assert (H2 : LoopInv d2).
  { unfold d2. destruct (wants_progress _); [|exact H1].
    apply await_loop_inv, send_progress_loop_inv, H1. }
  destruct (_ && _); [apply await_loop_inv|]; exact H2.
Qed.

Lemma add_skipped_status (j : Job) (u : string) :
  job_status (add_skipped j u) = job_status j.
Proof. reflexivity. Qed.

Lemma reconcile_status (urls : list string) (j : Job) :
  job_status (reconcile urls j) = job_status j.
Proof.
  unfold reconcile. destruct (_ =? _); [reflexivity|].
  generalize (filter (fun u => negb (existsb (String.eqb u) (map url (job_results j))))
                     (distinct [] urls)).
  intros l. revert j. induction l as [|u l IH]; intros j; simpl; [reflexivity|].
  rewrite IH. apply add_skipped_status.
Qed.

Lemma save_completed (d : Driver) :
  Forall Good (d_trace d) -> Counted (d_job d) -> Mapped (d_job d) ->
  job_status (d_job d) = Completed ->
  ClosedInv (save d) /\ job_status (d_job (save d)) = Completed.
Proof.
  intros Ht Hc Hm Hs. unfold save, saveJobState. rewrite Hs. cbn [is_completed andb].
  unfold ClosedInv, Counted, Mapped in *.
  destruct (job_total (d_job d) =? job_processed (d_job d)) eqn:E; cbn.
  - apply Nat.eqb_eq in E. rewrite Hs.
    repeat split; try assumption.
    apply Forall_app. split; [exact Ht|]. constructor; [|constructor].
    cbn. repeat split; try assumption. intros _. exact E.
  - repeat split; try assumption.
    apply Forall_app. split; [exact Ht|]. constructor; [|constructor].
    cbn. repeat split; assumption.
Qed.

Lemma send_final_closed_inv (d : Driver) : ClosedInv d -> ClosedInv (send_final d).
Proof.
  intros H. pose proof H as (Ht & Hc & Hm & Hcl). unfold send_final.
  destruct (webhook (job_cfg (d_job d))) as [wh|]; [|exact H].
  destruct (wh_url wh) as [[|a s]|]; try exact H.
  unfold ClosedInv. cbn. split; [|auto].
  apply Forall_app. split; [exact Ht|]. constructor; [|constructor].
  cbn. split; assumption.
Qed.

Lemma finalize_closed_inv (w : World) (urls : list string) (d : Driver) :
  LoopInv d -> ClosedInv (finalize w urls d).
Proof.
  intros (Ht & Hc & Hm & Hr). unfold finalize.
  set (d1 := on_job (fun j => recount (reconcile urls (set_status Completed j))) d).
  assert (H1 : ClosedInv (save d1)).
  { apply save_completed.
    - exact Ht.
    - apply recount_counted.
    - apply recount_counted.
    - unfold d1. cbn. apply reconcile_status. }
  set (d2 := await w AwFinalSave (save d1)).
  assert (H2 : ClosedInv d2) by (apply await_closed_inv, H1).
  destruct (webhook (job_cfg (d_job d2))); [|exact H2].
  apply await_closed_inv, send_final_closed_inv, H2.
Qed.

Lemma fail_job_closed_inv (w : World) (message : string) (d : Driver) :
  ClosedInv d -> ClosedInv (fail_job w message d).
Proof.
  intros (Ht & Hc & Hm & Hcl). unfold fail_job. apply await_closed_inv.
  unfold save, saveJobState. cbn.
  unfold ClosedInv. cbn. repeat split; try assumption.
  apply Forall_app. split; [exact Ht|]. constructor; [|constructor].
  cbn. repeat split; try assumption. intros _. exact Hcl.
Qed.

Lemma fresh_counted (j : Job) :
  Fresh j -> Counted j /\ Mapped j /\ job_total j = job_processed j.
Proof.
  intros (H1 & H2 & H3 & H4 & H5). unfold Counted, Mapped.
  rewrite H1, H2, H3, H4, H5. repeat split.
Qed.

Lemma await_pre_inv (w : World) (p : AwaitPoint) (d : Driver) :
  PreInv d -> PreInv (await w p d).
Proof.
  intros (Ht & Hf & Hr).
  destruct (fresh_counted _ Hf) as (Hc & Hm & Hcl).
  assert (Hloop : LoopInv (await w p d))
    by (apply await_loop_inv; exact (conj Ht (conj Hc (conj Hm Hr)))).
  destruct Hloop as (Ht' & _ & _ & Hr').
  split; [exact Ht'|]. split; [|exact Hr'].
  destruct (await_job w p d) as [-> | ->]; exact Hf.
Qed.

Lemma prepare_inv (w : World) (j : Job) :
  Fresh j ->
  match prepare w j with
  | Ready d _ _ => LoopInv d
  | Fails d _ => ClosedInv d
  | Diverges => True
  end.
Proof.
  intros Hf. unfold prepare.
  set (d0 := mkDriver (set_status Processing j) [] [] 0).
  assert (H0 : PreInv d0).
  { split; [constructor|]. split; [exact Hf|]. split; cbn; discriminate. }
  set (d1 := if fetches_sitemap j then await w AwSitemap d0 else d0).
  assert (H1 : PreInv d1).
  { unfold d1. destruct (fetches_sitemap j); [apply await_pre_inv|]; exact H0. }
  destruct H1 as (Ht & Hfresh & Hr).
  destruct (fresh_counted _ Hfresh) as (Hc & Hm & Hcl).
  assert (Hclosed : ClosedInv d1) by (repeat split; assumption).
  destruct (enumerate w j) as [message | [|u us]]; try exact Hclosed.
  destruct (make_batches _ _) as [bs|]; [|exact I].
  destruct Hfresh as (_ & Hp & _).
  unfold LoopInv, Counted, Mapped in *. cbn.
  repeat split; try assumption; apply Hr.
Qed.

(** C1 (amended): a job made by [createJob] with a positive batch size runs
    to its end, and in its run every summary written by [saveJobState],
    reported by [getJobStatus] while the driver is suspended, or sent by a
    webhook satisfies [processed = successful + failed]; under the status
    [completed] or [failed] it also satisfies [total = processed]; every
    written summary has [processed] equal to the number of entries of the map
    of results at the time of the write; and the final webhook carries
    [total = processed].  Of a summary under the status [cancelled] only
    [processed = successful + failed] is stated. *)
Theorem count_closure (w : World) (defaults : Defaults) (rq : Request) :
  (0 < batchSize (createJob_config defaults rq))%Z ->
  exists d, createJob w defaults rq = Some d /\ Forall Good (d_trace d).
Proof.
  intros Hb. unfold createJob, processJob.
  assert (Hf : Fresh (new_job defaults rq)) by (repeat split).
  pose proof (prepare_inv w _ Hf) as Hp.
  destruct (prepare w (new_job defaults rq)) as [d0 urls bs | d0 message |] eqn:P.
  - eexists. split; [reflexivity|].
    apply (finalize_closed_inv w urls), run_batches_loop_inv, Hp.
  - eexists. split; [reflexivity|]. apply (fail_job_closed_inv w message), Hp.
  - exfalso. unfold prepare in P.
    destruct (enumerate w (new_job defaults rq)) as [message | [|u us]];
      try discriminate P.
    destruct (make_batches_returns _ (u :: us) Hb) as [bs B].
    change (batchSize (job_cfg (new_job defaults rq)))
      with (batchSize (createJob_config defaults rq)) in P.
    rewrite B in P. discriminate P.
Qed.

Lemma count_closure_witness :
  exists d, createJob cancel_in_first_batch no_defaults three_urls = Some d /\
            Forall Good (d_trace d).
Proof.
  apply (count_closure cancel_in_first_batch no_defaults three_urls).
  reflexivity.
Defined.

(** C1 (counterexample): three URLs in batches of one, [cancelJob] called
    during the first batch.  The state saved at the end of that batch has
    the terminal status [cancelled] with [total = 3] and [processed = 1]. *)
Lemma cancelled_summary_not_closed :
  option_map (fun d => persisted_summaries (d_trace d))
             (createJob cancel_in_first_batch no_defaults three_urls)
  = Some [(Cancelled, (3, 1, 1, 0)); (Completed, (3, 3, 1, 2))].
Proof. vm_compute. reflexivity. Qed.

(** C2 (the code at the failing input): the cancellation is seen at the
    boundary of the second batch and no further batch starts (only [a] was
    processed); then the status is overwritten with [completed], the two
    other URLs are recorded as skipped, and the final webhook is sent. *)
Theorem cancelled_job_ends_completed :
  option_map (fun d => (job_status (d_job d), d_invoked d,
                        persisted_summaries (d_trace d), final_webhooks (d_trace d)))
             (createJob cancel_in_first_batch no_defaults three_urls)
  = Some (Completed, ["a"%string],
          [(Cancelled, (3, 1, 1, 0)); (Completed, (3, 3, 1, 2))],
          [(Completed, (3, 3, 1, 2))]).
Proof. vm_compute. reflexivity. Qed.

(** The URL [u] twice in one batch with two workers.  Both workers pass the
    test [processedUrlsMap.has(url)] before either has stored its result:
    [processUrl] is called twice on [u], and the map and [job.results] end
    with one entry, the second result in the place of the first. *)
Example duplicate_in_batch_called_twice :
  option_map (fun d => (d_invoked d, JSMap.keys (job_map (d_job d)),
                        map url (job_results (d_job d))))
             (createJob plain_world no_defaults (request_for ["u"; "u"]%string 10 5))
  = Some (["u"; "u"]%string, ["u"%string], ["u"%string]).
Proof. vm_compute. reflexivity. Qed.

(** *** One entry per URL *)

Lemma mapok_set (urls : list string) (m : JSMap.t ProcessingResult)
      (u : string) (r : ProcessingResult) :
  MapOK urls m -> In u urls -> url r = u -> MapOK urls (JSMap.set u r m).
Proof.
  intros (Hnd & Hincl & Hurl) Hu Hr. repeat split.
  - apply JSMapFacts.NoDup_keys_set, Hnd.
  - intros k Hk. apply JSMapFacts.keys_set_either in Hk as [-> | Hk]; auto.
  - apply Forall_forall. intros kv Hkv.
    apply JSMapFacts.in_set in Hkv as [-> | Hkv]; [exact Hr|].
    rewrite Forall_forall in Hurl. auto.
Qed.

Lemma urls_of_values (m : JSMap.t ProcessingResult) :
  Forall (fun kv => url (snd kv) = fst kv) m ->
  map url (JSMap.values m) = JSMap.keys m.
Proof.
  unfold JSMap.values, JSMap.keys. induction 1 as [|kv m H _ IH]; simpl; [reflexivity|].
  rewrite H, IH. reflexivity.
Qed.

Lemma run_batch_mapok (w : World) (k : nat) (batch urls : list string) (d : Driver) :
  faithful w -> incl batch urls ->
  MapOK urls (job_map (d_job d)) ->
  MapOK urls (job_map (d_job (run_batch w k batch d))).
Proof.
  intros Hw Hb Hm. unfold run_batch.
  pose proof (WorkerFacts.processInBatches_invariant
                VStr start_url (finish_url w)
                (maxConcurrent (job_cfg (d_job d))) (sched w k)
                (fun st => MapOK urls (b_map st)) (cont_in urls) (fun u => In u urls))
    as Hinv.
  assert (Hstart : forall st u, MapOK urls (b_map st) -> In u urls ->
                                MapOK urls (b_map (fst (start_url st u))) /\
                                cont_in urls (snd (start_url st u))).
  { intros st u Hp Hu. unfold start_url.
    destruct (JSMap.get u (b_map st)); cbn; auto. }
  specialize (Hinv Hstart).
  assert (Hfin : forall st c, MapOK urls (b_map st) -> cont_in urls c ->
                              MapOK urls (b_map (fst (finish_url w st c)))).
  { intros st [r | u call] Hp Hc; cbn [finish_url]; [exact Hp|].
    destruct (processUrl_outcome w call u) as [r | message] eqn:E; cbn; [|exact Hp].
    apply mapok_set; [exact Hp | exact Hc | exact (Hw _ _ _ E)]. }
  specialize (Hinv Hfin batch (mkBatch (job_map (d_job d)) (d_invoked d) (d_calls d))).
  assert (Hr : Forall (fun u => In u urls) batch) by (apply Forall_forall; exact Hb).
  specialize (Hinv Hr Hm).
  destruct (Worker.processInBatches _ _ _ _ _ _ _) as [st rs]. exact Hinv.
Qed.

Lemma await_tracked (w : World) (p : AwaitPoint) (urls : list string) (d : Driver) :
  Tracked urls (d_job d) -> Tracked urls (d_job (await w p d)).
Proof. intros H. destruct (await_job w p d) as [-> | ->]; exact H. Qed.

Lemma saveJobState_running (j : Job) :
  Running j ->
  saveJobState j = (j, mkSaved (job_status j) (summary_of j) (job_results j) (job_error j)).
Proof.
  intros [Hr _]. unfold saveJobState.
  assert (Hn : is_completed (job_status j) = false)
    by (destruct (job_status j); try reflexivity; congruence).
  rewrite Hn. reflexivity.
Qed.

Lemma send_progress_job (k : nat) (d : Driver) : d_job (send_progress k d) = d_job d.
Proof.
  unfold send_progress. destruct (webhook _) as [wh|]; [|reflexivity].
  destruct (wh_url wh) as [[|a s]|]; reflexivity.
Qed.

Lemma run_batches_tracked (w : World) (urls : list string) (bs : list (list string)) :
  faithful w -> Forall (fun b => incl b urls) bs ->
  forall (k : nat) (d : Driver),
    LoopInv d -> Tracked urls (d_job d) ->
    LoopInv (run_batches w k bs d) /\ Tracked urls (d_job (run_batches w k bs d)).
Proof.
  intros Hw. induction bs as [|batch bs IH]; intros Hbs k d Hl Ht; cbn [run_batches];
    [split; assumption|].
  inversion Hbs as [|? ? Hb Hbs']; subst.
  set (da := on_job (set_currentBatch (k + 1)) d).
  assert (Hla : LoopInv da).
  { destruct Hl as (H1 & H2 & H3 & H4). repeat split; try assumption; apply H4. }
  assert (Hta : Tracked urls (d_job da)) by exact Ht.
  destruct (is_cancelled _); [split; assumption|].
  set (db := await w (AwBatch k) da).
  assert (Hlb : LoopInv db) by (apply await_loop_inv, Hla).
  assert (Htb : Tracked urls (d_job db)) by (apply await_tracked, Hta).
  set (dc := on_job (fun j => recount (results_from_map j)) (run_batch w k batch db)).
  assert (Hlc : LoopInv dc) by (apply batch_step_inv, Hlb).
  assert (Htc : Tracked urls (d_job dc)).
  { destruct Htb as (Hm & _ & Htot).
    pose proof (run_batch_mapok w k batch urls db Hw Hb Hm) as Hm'.
    destruct (run_batch_frame w k batch db) as [_ [m Ej]].
    unfold dc, on_job. cbn [d_job]. rewrite Ej in *.
    repeat split; try apply Hm'. exact Htot. }
  set (dd := await w (AwSave k) (save dc)).
  assert (Hld : LoopInv dd) by (apply await_loop_inv, save_loop_inv, Hlc).
  assert (Htd : Tracked urls (d_job dd)).
  { apply await_tracked. unfold save.
    rewrite (saveJobState_running (d_job dc)) by apply Hlc. exact Htc. }
  set (de := if wants_progress (d_job dd)
             then await w (AwProgress k) (send_progress k dd) else dd).
  assert (Hle : LoopInv de).
  { unfold de. destruct (wants_progress _); [|exact Hld].
    apply await_loop_inv, send_progress_loop_inv, Hld. }
  assert (Hte : Tracked urls (d_job de)).
  { unfold de. destruct (wants_progress _); [|exact Htd].
    apply await_tracked. rewrite send_progress_job. exact Htd. }
  apply (IH Hbs').
  - destruct (_ && _); [apply await_loop_inv|]; exact Hle.
  - destruct (_ && _); [apply await_tracked|]; exact Hte.
Qed.

Lemma distinct_in (l seen : list string) (u : string) :
  In u (distinct seen l) <-> In u l /\ ~ In u seen.
Proof.
  revert seen. induction l as [|x l IH]; intros seen; simpl; [tauto|].
  destruct (existsb (String.eqb x) seen) eqn:E.
  - apply existsb_eqb_In in E. rewrite IH. split.
    + tauto.
    + intros [[<- | H] Hn]; [contradiction | tauto].
  - assert (Hx : ~ In x seen).
    { intros H. apply existsb_eqb_In in H. congruence. }
    simpl. rewrite IH. simpl. split.
    + intros [<- | [H Hn]]; [tauto|]. split; [tauto|]. intros Hs. apply Hn. auto.
    + intros [[<- | H] Hn]; [tauto|].
      destruct (string_dec x u) as [-> | Hne]; [tauto|]. right. split; [exact H|].
      intros [Heq | Hs]; [contradiction | contradiction].
Qed.

Lemma distinct_NoDup (l seen : list string) : NoDup (distinct seen l).
Proof.
  revert seen. induction l as [|x l IH]; intros seen; simpl; [constructor|].
  destruct (existsb (String.eqb x) seen); [apply IH|].
  constructor; [|apply IH].
  intros H. apply distinct_in in H as [_ H]. apply H. left. reflexivity.
Qed.

Lemma fold_add_skipped (l : list string) :
  forall j : Job,
    NoDup l -> (forall u, In u l -> ~ In u (JSMap.keys (job_map j))) ->
    JSMap.keys (job_map (fold_left add_skipped l j)) = JSMap.keys (job_map j) ++ l /\
    map url (job_results (fold_left add_skipped l j)) = map url (job_results j) ++ l.
Proof.
  induction l as [|u l IH]; intros j Hnd Hout; cbn [fold_left].
  - rewrite !app_nil_r. split; reflexivity.
  - inversion Hnd as [|? ? Hu Hl]; subst.
    assert (Hku : JSMap.keys (job_map (add_skipped j u)) = JSMap.keys (job_map j) ++ [u]).
    { cbn. rewrite JSMapFacts.set_absent by (apply Hout; left; reflexivity).
      unfold JSMap.keys. rewrite map_app. reflexivity. }
    assert (Hru : map url (job_results (add_skipped j u)) = map url (job_results j) ++ [u]).
    { cbn. rewrite map_app. reflexivity. }
    destruct (IH (add_skipped j u) Hl) as [H1 H2].
    + intros x Hx. rewrite Hku. intros Hin. apply in_app_or in Hin as [Hin | [<- | []]].
      * apply (Hout x); [right; exact Hx | exact Hin].
      * exact (Hu Hx).
    + rewrite H1, H2, Hku, Hru, <- !app_assoc. split; reflexivity.
Qed.

Lemma reconcile_entries (urls : list string) (j : Job) :
  Tracked urls j -> Counted j -> Mapped j -> Entries urls (reconcile urls j).
Proof.
  intros ((Hnd & Hincl & Hurl) & Hres & Htot) Hc Hm.
  assert (Hru : map url (job_results j) = JSMap.keys (job_map j)).
  { rewrite Hres. apply urls_of_values, Hurl. }
  unfold reconcile. destruct (job_success j + job_failed j =? job_total j) eqn:E.
  - apply Nat.eqb_eq in E. repeat split; try assumption.
    + intros Hu. revert u Hu.
      apply (NoDup_length_incl Hnd); [|exact Hincl].
      unfold Counted, Mapped, JSMap.size, JSMap.keys in *.
      rewrite length_map. lia.
    + apply Hincl.
  - set (missing := filter (fun u => negb (existsb (String.eqb u) (map url (job_results j))))
                           (distinct [] urls)).
    assert (Hmnd : NoDup missing) by (apply NoDup_filter, distinct_NoDup).
    assert (Hmiss : forall u, In u missing <->
                              In u urls /\ ~ In u (JSMap.keys (job_map j))).
    { intros u. unfold missing. rewrite filter_In, distinct_in, negb_true_iff, Hru.
      split.
      - intros [[Hu _] Hn]. split; [exact Hu|]. intros Hk.
        apply existsb_eqb_In in Hk. congruence.
      - intros [Hu Hn]. split; [split; [exact Hu | intros []]|].
        destruct (existsb (String.eqb u) (JSMap.keys (job_map j))) eqn:X; [|reflexivity].
        apply existsb_eqb_In in X. contradiction. }
    destruct (fold_add_skipped missing j Hmnd) as [Hk Hr].
    { intros u Hu. apply Hmiss, Hu. }
    unfold Entries. rewrite Hk, Hr, Hru. repeat split.
    + apply NoDup_app; [exact Hnd | exact Hmnd |].
      intros u H1 H2. apply Hmiss in H2. tauto.
    + intros Hu. apply in_or_app.
      destruct (in_dec string_dec u (JSMap.keys (job_map j))); [left; assumption|].
      right. apply Hmiss. auto.
    + intros Hu. apply in_app_or in Hu as [Hu | Hu]; [apply Hincl, Hu | apply Hmiss, Hu].
Qed.

Lemma finalize_frame (w : World) (urls : list string) (d : Driver) :
  job_map (d_job (finalize w urls d))
  = job_map (reconcile urls (set_status Completed (d_job d))) /\
  job_results (d_job (finalize w urls d))
  = job_results (reconcile urls (set_status Completed (d_job d))).
Proof.
  unfold finalize.
  set (j1 := reconcile urls (set_status Completed (d_job d))).
  set (d1 := on_job (fun j => recount (reconcile urls (set_status Completed j))) d).
  assert (H1 : job_map (d_job (save d1)) = job_map j1 /\
               job_results (d_job (save d1)) = job_results j1).
  { unfold save, saveJobState, d1. cbn [on_job d_job].
    destruct (_ && _); cbn; split; reflexivity. }
  set (d2 := await w AwFinalSave (save d1)).
  assert (H2 : job_map (d_job d2) = job_map j1 /\ job_results (d_job d2) = job_results j1).
  { unfold d2. destruct (await_job w AwFinalSave (save d1)) as [-> | ->]; exact H1. }
  destruct (webhook (job_cfg (d_job d2))); [|exact H2].
  assert (H3 : d_job (send_final d2) = d_job d2).
  { unfold send_final. destruct (webhook _) as [wh|]; [|reflexivity].
    destruct (wh_url wh) as [[|a s]|]; reflexivity. }
  destruct (await_job w AwFinalWebhook (send_final d2)) as [-> | ->]; rewrite H3; exact H2.
Qed.

Lemma in_batches_from (urls : list string) (batchSize fuel : nat) :
  forall (i : nat) (b : list string),
    In b (batches_from fuel urls batchSize i) -> incl b urls.
Proof.
  induction fuel as [|fuel IH]; intros i b; cbn [batches_from]; [intros []|].
  destruct (i <? length urls); [|intros []].
  intros [<- | H]; [|exact (IH _ _ H)].
  intros u Hu.
  assert (Hs : In u (skipn i urls)).
  { rewrite <- (firstn_skipn batchSize (skipn i urls)). apply in_or_app. left. exact Hu. }
  rewrite <- (firstn_skipn i urls). apply in_or_app. right. exact Hs.
Qed.

Lemma make_batches_incl (batchSize : Z) (urls : list string) (bs : list (list string)) :
  make_batches batchSize urls = Some bs -> Forall (fun b => incl b urls) bs.
Proof.
  unfold make_batches. destruct (batchSize <=? 0)%Z; [discriminate|].
  intros [= <-]. apply Forall_forall. intros b Hb.
  exact (in_batches_from _ _ _ _ _ Hb).
Qed.

Lemma prepare_ready (w : World) (j : Job) (d : Driver)
      (urls : list string) (bs : list (list string)) :
  prepare w j = Ready d urls bs ->
  Forall (fun b => incl b urls) bs /\
  job_map (d_job d) = JSMap.empty /\ job_results (d_job d) = [] /\
  job_total (d_job d) = length urls.
Proof.
  unfold prepare. intros H.
  destruct (enumerate w j) as [message | [|u us]]; [discriminate.. |].
  destruct (make_batches (batchSize (job_cfg j)) (u :: us)) as [bs'|] eqn:B;
    [|discriminate].
  injection H as <- <- <-.
  split; [exact (make_batches_incl _ _ _ B) | repeat split].
Qed.

Lemma entries_at_end (w : World) (defaults : Defaults) (rq : Request)
        (d0 : Driver) (urls : list string) (bs : list (list string)) :
  faithful w ->
  prepare w (new_job defaults rq) = Ready d0 urls bs ->
  exists d,
    createJob w defaults rq = Some d /\
    NoDup (JSMap.keys (job_map (d_job d))) /\
    (forall u, In u urls <-> In u (JSMap.keys (job_map (d_job d)))) /\
    map url (job_results (d_job d)) = JSMap.keys (job_map (d_job d)) /\
    (forall u, In u urls ->
               count_occ string_dec (map url (job_results (d_job d))) u = 1).
Proof.
  intros Hw Hp. unfold createJob, processJob. rewrite Hp.
  eexists. split; [reflexivity|].
  assert (Hf : Fresh (new_job defaults rq)) by (repeat split).
  pose proof (prepare_inv w _ Hf) as Hl. rewrite Hp in Hl.
  destruct (prepare_ready _ _ _ _ _ Hp) as (Hbs & Hmap & Hres & Htot).
  assert (Ht : Tracked urls (d_job d0)).
  { unfold Tracked, MapOK. rewrite Hmap, Hres.
    repeat split; [constructor | intros u [] | constructor | exact Htot]. }
  destruct (run_batches_tracked w urls bs Hw Hbs 0 d0 Hl Ht) as [Hl' Ht'].
  set (d1 := run_batches w 0 bs d0) in *.
  destruct (finalize_frame w urls d1) as [Em Er].
  assert (He : Entries urls (reconcile urls (set_status Completed (d_job d1)))).
  { apply reconcile_entries; [exact Ht' | apply Hl' | apply Hl']. }
  destruct He as (H1 & H2 & H3).
  rewrite Em, Er. split; [exact H1|]. split; [exact H2|]. split; [exact H3|].
  intros u Hu. rewrite H3. apply NoDup_count_occ'; [exact H1 | apply H2, Hu].
Qed.

(** X1: at the end of a job whose URLs were enumerated, the map of results
    and [job.results] hold exactly one entry for every enumerated URL, and no
    other entry: also when a URL occurs more than once in the input, when a
    worker threw, and when the job was cancelled on the way. *)
Theorem one_entry_per_url (w : World) (defaults : Defaults) (rq : Request)
        (d0 : Driver) (urls : list string) (bs : list (list string)) :
  faithful w ->
  prepare w (new_job defaults rq) = Ready d0 urls bs ->
  exists d,
    createJob w defaults rq = Some d /\
    NoDup (JSMap.keys (job_map (d_job d))) /\
    (forall u, In u urls <-> In u (JSMap.keys (job_map (d_job d)))) /\
    map url (job_results (d_job d)) = JSMap.keys (job_map (d_job d)) /\
    (forall u, In u urls ->
               count_occ string_dec (map url (job_results (d_job d))) u = 1).
Proof. apply entries_at_end. Qed.

Lemma plain_world_faithful : faithful plain_world.
Proof. intros n u r H. injection H as <-. reflexivity. Qed.

Lemma cancel_in_first_batch_faithful : faithful cancel_in_first_batch.
Proof. intros n u r H. injection H as <-. reflexivity. Qed.

Lemma one_entry_per_url_witness :
  exists d, createJob cancel_in_first_batch no_defaults three_urls = Some d /\
            NoDup (JSMap.keys (job_map (d_job d))).
Proof.
  destruct (prepare cancel_in_first_batch (new_job no_defaults three_urls))
    as [d0 urls bs | d0 message |] eqn:P.
  - destruct (one_entry_per_url _ _ _ d0 urls bs cancel_in_first_batch_faithful P)
      as (d & H1 & H2 & _).
    exists d. split; assumption.
  - discriminate P.
  - discriminate P.
Defined.

(** *** Skipping and cancelling *)

Lemma await_invoked (w : World) (p : AwaitPoint) (d : Driver) :
  d_invoked (await w p d) = d_invoked d.
Proof. unfold await. destruct (cancel_at w p); reflexivity. Qed.

Lemma await_map (w : World) (p : AwaitPoint) (d : Driver) :
  job_map (d_job (await w p d)) = job_map (d_job d).
Proof. destruct (await_job w p d) as [-> | ->]; reflexivity. Qed.

Lemma save_frame (d : Driver) :
  job_map (d_job (save d)) = job_map (d_job d) /\ d_invoked (save d) = d_invoked d.
Proof. unfold save, saveJobState. destruct (_ && _); cbn; split; reflexivity. Qed.

Lemma send_progress_invoked (k : nat) (d : Driver) :
  d_invoked (send_progress k d) = d_invoked d.
Proof.
  unfold send_progress. destruct (webhook _) as [wh|]; [|reflexivity].
  destruct (wh_url wh) as [[|a s]|]; reflexivity.
Qed.

Lemma run_batch_skips_known (w : World) (k : nat) (batch : list string)
      (d : Driver) (u : string) :
  In u (JSMap.keys (job_map (d_job d))) ->
  In u (JSMap.keys (job_map (d_job (run_batch w k batch d)))) /\
  count_occ string_dec (d_invoked (run_batch w k batch d)) u
  = count_occ string_dec (d_invoked d) u.
Proof.
  intros Hu. unfold run_batch.
  set (c := count_occ string_dec (d_invoked d) u).
  pose proof (WorkerFacts.processInBatches_invariant
                VStr start_url (finish_url w)
                (maxConcurrent (job_cfg (d_job d))) (sched w k)
                (fun st => In u (JSMap.keys (b_map st)) /\
                           count_occ string_dec (b_invoked st) u = c)
                (fun _ => True) (fun _ => True))
    as Hinv.
  assert (Hstart : forall st (x : string),
             In u (JSMap.keys (b_map st)) /\ count_occ string_dec (b_invoked st) u = c ->
             True ->
             (In u (JSMap.keys (b_map (fst (start_url st x)))) /\
              count_occ string_dec (b_invoked (fst (start_url st x))) u = c) /\ True).
  { intros st x [Hin Hc] _. split; [|exact I]. unfold start_url.
    destruct (JSMap.get x (b_map st)) as [r|] eqn:G; cbn; [split; assumption|].
    split; [exact Hin|].
    rewrite count_occ_app, Hc. cbn.
    destruct (string_dec x u) as [-> | Hne]; [|lia].
    apply JSMapFacts.get_none in G. contradiction. }
  assert (Hfin : forall st (t : Cont),
             In u (JSMap.keys (b_map st)) /\ count_occ string_dec (b_invoked st) u = c ->
             True ->
             In u (JSMap.keys (b_map (fst (finish_url w st t)))) /\
             count_occ string_dec (b_invoked (fst (finish_url w st t))) u = c).
  { intros st [r | x call] [Hin Hc] _; cbn [finish_url]; [split; assumption|].
    destruct (processUrl_outcome w call x); cbn; [|split; assumption].
    split; [apply JSMapFacts.keys_set_incl, Hin | exact Hc]. }
  specialize (Hinv Hstart Hfin batch (mkBatch (job_map (d_job d)) (d_invoked d) (d_calls d))).
  assert (Hr : Forall (fun _ : string => True) batch) by (apply Forall_forall; auto).
  specialize (Hinv Hr (conj Hu eq_refl)).
  destruct (Worker.processInBatches _ _ _ _ _ _ _) as [st rs]. exact Hinv.
Qed.

Lemma known_url_calls (w : World) (bs : list (list string)) (u : string) :
  forall (k : nat) (d : Driver),
    In u (JSMap.keys (job_map (d_job d))) ->
    count_occ string_dec (d_invoked (run_batches w k bs d)) u
    = count_occ string_dec (d_invoked d) u.
Proof.
  induction bs as [|batch bs IH]; intros k d Hu; cbn [run_batches]; [reflexivity|].
  destruct (is_cancelled _); [reflexivity|].
  set (da := await w (AwBatch k) (on_job (set_currentBatch (k + 1)) d)).
  assert (Hua : In u (JSMap.keys (job_map (d_job da)))).
  { unfold da. rewrite await_map. exact Hu. }
  assert (Hia : d_invoked da = d_invoked d).
  { unfold da. rewrite await_invoked. reflexivity. }
  destruct (run_batch_skips_known w k batch da u Hua) as [Hub Hib].
  set (db := on_job (fun j => recount (results_from_map j)) (run_batch w k batch da)).
  assert (Hmb : job_map (d_job db) = job_map (d_job (run_batch w k batch da)))
    by reflexivity.
  assert (Hib' : d_invoked db = d_invoked (run_batch w k batch da)) by reflexivity.
  set (dc := await w (AwSave k) (save db)).
  assert (Hmc : job_map (d_job dc) = job_map (d_job db)).
  { unfold dc. rewrite await_map. apply save_frame. }
  assert (Hic : d_invoked dc = d_invoked db).
  { unfold dc. rewrite await_invoked. apply save_frame. }
  set (dd := if wants_progress (d_job dc)
             then await w (AwProgress k) (send_progress k dc) else dc).
  assert (Hmd : job_map (d_job dd) = job_map (d_job dc)).
  { unfold dd. destruct (wants_progress _); [|reflexivity].
    rewrite await_map, send_progress_job. reflexivity. }
  assert (Hid : d_invoked dd = d_invoked dc).
  { unfold dd. destruct (wants_progress _); [|reflexivity].
    rewrite await_invoked, send_progress_invoked. reflexivity. }
  set (de := if (k <? length (job_batches (d_job dd)) - 1)
                && (0 <? processingDelay (job_cfg (d_job dd)))%Z
             then await w (AwDelay k) dd else dd).
  assert (Hme : job_map (d_job de) = job_map (d_job dd)).
  { unfold de. destruct (_ && _); [apply await_map | reflexivity]. }
  assert (Hie : d_invoked de = d_invoked dd).
  { unfold de. destruct (_ && _); [apply await_invoked | reflexivity]. }
  rewrite (IH (S k) de).
  - rewrite Hie, Hid, Hic, Hib', Hib, Hia. reflexivity.
  - rewrite Hme, Hmd, Hmc, Hmb. exact Hub.
Qed.

(** X2: a URL that has an entry in the map of results at a batch boundary is
    never handed to [processUrl] again: a started worker that finds it
    returns the stored entry.  This covers a URL that recurs in a later
    batch. *)
Theorem known_url_not_reprocessed (w : World) (bs : list (list string)) (u : string) :
  forall (k : nat) (d : Driver),
    In u (JSMap.keys (job_map (d_job d))) ->
    count_occ string_dec (d_invoked (run_batches w k bs d)) u
    = count_occ string_dec (d_invoked d) u.
Proof. apply known_url_calls. Qed.

Lemma known_url_not_reprocessed_witness :
  count_occ string_dec
            (d_invoked (run_batches plain_world 0 [["u"%string]; ["v"%string]] known_driver))
            "u"%string
  = 1.
Proof.
  apply (known_url_not_reprocessed plain_world [["u"%string]; ["v"%string]]
                                   "u"%string 0 known_driver).
  left. reflexivity.
Defined.



(** Once the status [cancelled] is seen at a batch boundary the loop ends:
    nothing is called, saved or sent. *)
Lemma run_batches_cancelled (w : World) (k : nat) (bs : list (list string))
      (d : Driver) :
  job_status (d_job d) = Cancelled ->
  d_invoked (run_batches w k bs d) = d_invoked d /\
  d_trace (run_batches w k bs d) = d_trace d /\
  job_map (d_job (run_batches w k bs d)) = job_map (d_job d).
Proof.
  intros H. destruct bs as [|batch bs]; cbn [run_batches]; [repeat split|].
  cbn. rewrite H. repeat split.
Qed.


(** The defect behind C2 in general: whatever the status was when the loop
    was left, the end of [processJob] saves the job with the status
    [completed]. *)
Lemma finalize_saves_completed (w : World) (urls : list string) (d : Driver) :
  exists j s rest,
    d_trace (finalize w urls d) = d_trace d ++ Persisted j s :: rest /\
    saved_status s = Completed.
Proof.
  unfold finalize.
  set (d1 := on_job (fun j => recount (reconcile urls (set_status Completed j))) d).
  assert (Hs : job_status (d_job d1) = Completed).
  { unfold d1. cbn. apply reconcile_status. }
  assert (H1 : exists j s, d_trace (save d1) = d_trace d ++ [Persisted j s] /\
                           saved_status s = Completed).
  { unfold save, saveJobState. rewrite Hs. cbn [is_completed andb].
    destruct (negb _); cbn; do 2 eexists; (split; [reflexivity|]); cbn; auto. }
  destruct H1 as (j & s & Htr & Hst).
  set (d2 := await w AwFinalSave (save d1)).
  assert (H2 : exists rest, d_trace d2 = d_trace d ++ Persisted j s :: rest).
  { unfold d2. destruct (await_trace w AwFinalSave (save d1)) as [-> | ->];
      rewrite Htr, <- app_assoc; eexists; reflexivity. }
  destruct H2 as [rest2 H2].
  exists j, s.
  destruct (webhook (job_cfg (d_job d2))) as [wh|]; [|exists rest2; auto].
  assert (H3 : exists rest, d_trace (send_final d2) = d_trace d ++ Persisted j s :: rest).
  { unfold send_final. destruct (webhook _) as [wh'|]; [|eauto].
    destruct (wh_url wh') as [[|a x]|]; eauto.
    cbn. rewrite H2, <- app_assoc. eexists. reflexivity. }
  destruct H3 as [rest3 H3].
  destruct (await_trace w AwFinalWebhook (send_final d2)) as [-> | ->];
    rewrite H3, <- app_assoc; eexists; split; try reflexivity; exact Hst.
Qed.

(** *** The counts at the end of a job *)

Lemma NoDup_same_length (l l' : list string) :
  NoDup l -> NoDup l' -> (forall u, In u l <-> In u l') -> length l = length l'.
Proof.
  intros H1 H2 H. apply Permutation_length, NoDup_Permutation; assumption.
Qed.

(** The job at the end of a run that reached the loop over the batches. *)
Lemma ready_job_ends (w : World) (defaults : Defaults) (rq : Request)
      (d0 : Driver) (urls : list string) (bs : list (list string)) :
  faithful w ->
  prepare w (new_job defaults rq) = Ready d0 urls bs ->
  createJob w defaults rq = Some (finalize w urls (run_batches w 0 bs d0)) /\
  Entries urls (d_job (finalize w urls (run_batches w 0 bs d0))) /\
  ClosedInv (finalize w urls (run_batches w 0 bs d0)).
Proof.
  intros Hw Hp. unfold createJob, processJob. rewrite Hp.
  split; [reflexivity|].
  assert (Hf : Fresh (new_job defaults rq)) by (repeat split).
  pose proof (prepare_inv w _ Hf) as Hl. rewrite Hp in Hl.
  destruct (prepare_ready _ _ _ _ _ Hp) as (Hbs & Hmap & Hres & Htot).
  assert (Ht : Tracked urls (d_job d0)).
  { unfold Tracked, MapOK. rewrite Hmap, Hres.
    repeat split; [constructor | intros u [] | constructor | exact Htot]. }
  destruct (run_batches_tracked w urls bs Hw Hbs 0 d0 Hl Ht) as [Hl' Ht'].
  split; [|apply finalize_closed_inv, Hl'].
  destruct (finalize_frame w urls (run_batches w 0 bs d0)) as [Em Er].
  unfold Entries. rewrite Em, Er.
  apply reconcile_entries; [exact Ht' | apply Hl' | apply Hl'].
Qed.

Lemma ready_job_counts (w : World) (defaults : Defaults) (rq : Request)
      (d0 : Driver) (urls : list string) (bs : list (list string)) :
  faithful w ->
  prepare w (new_job defaults rq) = Ready d0 urls bs ->
  exists d,
    createJob w defaults rq = Some d /\
    job_total (d_job d) = length (distinct [] urls) /\
    job_processed (d_job d) = length (distinct [] urls) /\
    job_success (d_job d) + job_failed (d_job d) = length (distinct [] urls) /\
    length (job_results (d_job d)) = length (distinct [] urls).
Proof.
  intros Hw Hp.
  destruct (ready_job_ends w defaults rq d0 urls bs Hw Hp) as (Hd & He & Hc).
  exists (finalize w urls (run_batches w 0 bs d0)). split; [exact Hd|].
  set (d := finalize w urls (run_batches w 0 bs d0)) in *.
  destruct He as (Hnd & Hin & Hres).
  destruct Hc as (_ & Hcount & Hmapped & Hclosed).
  assert (Hsize : JSMap.size (job_map (d_job d)) = length (distinct [] urls)).
  { unfold JSMap.size. rewrite <- (length_map fst). fold (JSMap.keys (job_map (d_job d))).
    apply NoDup_same_length; [exact Hnd | apply distinct_NoDup |].
    intros u. rewrite <- Hin, distinct_in. simpl. tauto. }
  assert (Hlen : length (job_results (d_job d)) = length (distinct [] urls)).
  { rewrite <- (length_map url), Hres. unfold JSMap.keys. rewrite length_map.
    exact Hsize. }
  unfold Counted, Mapped in *.
  repeat split; try lia; exact Hlen.
Qed.

(** X12: at the end of a job that enumerated its URLs, the four counts are
    closed on the number of different URLs: [total], [processed] and
    [successful + failed] are the number of distinct URLs of the enumerated
    list, and [job.results] holds that many records. *)
Theorem final_counts_are_distinct_urls (w : World) (defaults : Defaults) (rq : Request)
        (d0 : Driver) (urls : list string) (bs : list (list string)) :
  faithful w ->
  prepare w (new_job defaults rq) = Ready d0 urls bs ->
  exists d,
    createJob w defaults rq = Some d /\
    job_total (d_job d) = length (distinct [] urls) /\
    job_processed (d_job d) = length (distinct [] urls) /\
    job_success (d_job d) + job_failed (d_job d) = length (distinct [] urls) /\
    length (job_results (d_job d)) = length (distinct [] urls).
Proof.
  intros Hw Hp.
  destruct (ready_job_counts w defaults rq d0 urls bs Hw Hp)
    as (d & H1 & H2 & H3 & H4 & H5).
  exists d. auto.
Qed.

Lemma final_counts_are_distinct_urls_witness :
  exists d, createJob plain_world no_defaults (request_for ["u"; "u"; "v"]%string 10 5)
            = Some d /\
            job_total (d_job d) = 2.
Proof.
  destruct (prepare plain_world
                    (new_job no_defaults (request_for ["u"; "u"; "v"]%string 10 5)))
    as [d0 urls bs | d0 message |] eqn:P.
  - destruct (final_counts_are_distinct_urls _ _ _ d0 urls bs plain_world_faithful P)
      as (d & H1 & H2 & _).
    exists d. split; [exact H1|].
    rewrite H2. cbn in P. injection P as _ <- _. reflexivity.
  - discriminate P.
  - discriminate P.
Defined.

(** *** One pass of the loop *)

Lemma run_batches_step (w : World) (k : nat) (batch : list string)
      (bs : list (list string)) (d : Driver) :
  run_batches w k (batch :: bs) d
  = if is_cancelled (job_status (d_job d))
    then on_job (set_currentBatch (k + 1)) d
    else run_batches w (S k) bs (round w k batch (on_job (set_currentBatch (k + 1)) d)).
Proof. reflexivity. Qed.

Lemma await_frame (w : World) (p : AwaitPoint) (d : Driver) :
  job_cfg (d_job (await w p d)) = job_cfg (d_job d) /\
  job_batches (d_job (await w p d)) = job_batches (d_job d).
Proof. destruct (await_job w p d) as [-> | ->]; split; reflexivity. Qed.

Lemma save_job_frame (d : Driver) :
  job_cfg (d_job (save d)) = job_cfg (d_job d) /\
  job_batches (d_job (save d)) = job_batches (d_job d).
Proof. unfold save, saveJobState. destruct (_ && _); cbn; split; reflexivity. Qed.

(** What a pass keeps of the job, and where its map and its calls of
    [processUrl] come from: the run of the batch. *)
Lemma round_frame (w : World) (k : nat) (batch : list string) (d : Driver) :
  job_cfg (d_job (round w k batch d)) = job_cfg (d_job d) /\
  job_batches (d_job (round w k batch d)) = job_batches (d_job d) /\
  job_map (d_job (round w k batch d))
  = job_map (d_job (run_batch w k batch (await w (AwBatch k) d))) /\
  d_invoked (round w k batch d)
  = d_invoked (run_batch w k batch (await w (AwBatch k) d)).
Proof.
  unfold round.
  set (da := await w (AwBatch k) d).
  destruct (await_frame w (AwBatch k) d) as [Ca Ba]. fold da in Ca, Ba.
  destruct (run_batch_frame w k batch da) as [_ [m Ej]].
  set (db := on_job (fun j => recount (results_from_map j)) (run_batch w k batch da)).
  assert (Hb : job_cfg (d_job db) = job_cfg (d_job d) /\
               job_batches (d_job db) = job_batches (d_job d) /\
               job_map (d_job db) = job_map (d_job (run_batch w k batch da)) /\
               d_invoked db = d_invoked (run_batch w k batch da)).
  { unfold db, on_job. cbn [d_job d_invoked]. rewrite Ej. cbn.
    rewrite Ca, Ba. repeat split. }
  set (dc := await w (AwSave k) (save db)).
  assert (Hc : job_cfg (d_job dc) = job_cfg (d_job d) /\
               job_batches (d_job dc) = job_batches (d_job d) /\
               job_map (d_job dc) = job_map (d_job (run_batch w k batch da)) /\
               d_invoked dc = d_invoked (run_batch w k batch da)).
  { destruct Hb as (H1 & H2 & H3 & H4).
    destruct (await_frame w (AwSave k) (save db)) as [C B].
    destruct (save_job_frame db) as [C' B'].
    destruct (save_frame db) as [M' I'].
    unfold dc. rewrite C, B, await_map, await_invoked, C', B', M', I'.
    repeat split; assumption. }
  set (dd := if wants_progress (d_job dc)
             then await w (AwProgress k) (send_progress k dc) else dc).
  assert (Hd : job_cfg (d_job dd) = job_cfg (d_job d) /\
               job_batches (d_job dd) = job_batches (d_job d) /\
               job_map (d_job dd) = job_map (d_job (run_batch w k batch da)) /\
               d_invoked dd = d_invoked (run_batch w k batch da)).
  { unfold dd. destruct (wants_progress _); [|exact Hc].
    destruct (await_frame w (AwProgress k) (send_progress k dc)) as [C B].
    rewrite C, B, await_map, await_invoked, send_progress_job, send_progress_invoked.
    exact Hc. }
  destruct (_ && _); [|exact Hd].
  destruct (await_frame w (AwDelay k) dd) as [C B].
  rewrite C, B, await_map, await_invoked. exact Hd.
Qed.

Lemma finalize_invoked (w : World) (urls : list string) (d : Driver) :
  d_invoked (finalize w urls d) = d_invoked d.
Proof.
  unfold finalize.
  set (d1 := on_job (fun j => recount (reconcile urls (set_status Completed j))) d).
  assert (H1 : d_invoked (await w AwFinalSave (save d1)) = d_invoked d).
  { rewrite await_invoked, (proj2 (save_frame d1)). reflexivity. }
  destruct (webhook _); [|exact H1].
  rewrite await_invoked.
  unfold send_final. destruct (webhook _) as [wh|]; [|exact H1].
  destruct (wh_url wh) as [[|a x]|]; exact H1.
Qed.

Lemma prepare_ready_start (w : World) (j : Job) (d : Driver)
      (urls : list string) (bs : list (list string)) :
  prepare w j = Ready d urls bs ->
  d_invoked d = [] /\ concat bs = urls /\
  job_batches (d_job d) = bs /\ job_cfg (d_job d) = job_cfg j.
Proof.
  unfold prepare. intros H.
  destruct (enumerate w j) as [message | [|u us]]; [discriminate.. |].
  destruct (make_batches (batchSize (job_cfg j)) (u :: us)) as [bs'|] eqn:B;
    [|discriminate].
  injection H as <- <- <-.
  split; [|split; [exact (make_batches_concat _ _ _ B) | split; [reflexivity|]]].
  - unfold on_job. cbn [d_invoked].
    destruct (fetches_sitemap j); [rewrite await_invoked|]; reflexivity.
  - unfold on_job. cbn [d_job job_cfg start_job set_batches set_map set_results set_total].
    destruct (fetches_sitemap j); [|reflexivity].
    apply (await_frame w AwSitemap).
Qed.

(** *** The calls of [processUrl] *)

Lemma run_batch_calls (w : World) (k : nat) (batch : list string) (d : Driver) :
  exists l,
    WorkerSpec.Subseq l batch /\
    d_invoked (run_batch w k batch d) = d_invoked d ++ l.
Proof.
  unfold run_batch.
  destruct (WorkerFacts.processInBatches_calls
              VStr start_url (finish_url w)
              (maxConcurrent (job_cfg (d_job d))) (sched w k) b_invoked)
    with (items := batch) (st := mkBatch (job_map (d_job d)) (d_invoked d) (d_calls d))
    as [l [Hl El]].
  - intros st u. unfold start_url.
    destruct (JSMap.get u (b_map st)); cbn; auto.
  - intros st [r | u call]; cbn [finish_url]; [reflexivity|].
    destruct (processUrl_outcome w call u); reflexivity.
  - destruct (Worker.processInBatches _ _ _ _ _ _ _) as [st rs].
    exists l. split; [exact Hl | exact El].
Qed.

Lemma run_batches_calls (w : World) (bs : list (list string)) :
  forall (k : nat) (d : Driver),
  exists l,
    WorkerSpec.Subseq l (concat bs) /\
    d_invoked (run_batches w k bs d) = d_invoked d ++ l.
Proof.
  induction bs as [|batch bs IH]; intros k d.
  - exists []. split; [constructor | rewrite app_nil_r; reflexivity].
  - rewrite run_batches_step. cbn [concat].
    destruct (is_cancelled _).
    + exists []. split; [apply WorkerFacts.Subseq_nil_l | rewrite app_nil_r; reflexivity].
    + destruct (IH (S k) (round w k batch (on_job (set_currentBatch (k + 1)) d)))
        as [l2 [Hl2 El2]].
      destruct (round_frame w k batch (on_job (set_currentBatch (k + 1)) d))
        as (_ & _ & _ & Ei).
      destruct (run_batch_calls w k batch
                  (await w (AwBatch k) (on_job (set_currentBatch (k + 1)) d)))
        as [l1 [Hl1 El1]].
      rewrite await_invoked in El1. cbn [on_job d_invoked] in El1.
      exists (l1 ++ l2). split; [apply WorkerFacts.Subseq_app; assumption|].
      rewrite El2, Ei, El1, app_assoc. reflexivity.
Qed.

(** X17: [processUrl] is called only on URLs of the enumerated list, in the
    order of the list, and on a URL at most as many times as it occurs in
    the list: whatever the concurrency, the schedule and the cancellations,
    the calls are a subsequence of the list. *)
Theorem processUrl_calls_follow_the_list (w : World) (defaults : Defaults)
        (rq : Request) (d0 : Driver) (urls : list string) (bs : list (list string)) :
  prepare w (new_job defaults rq) = Ready d0 urls bs ->
  exists d,
    createJob w defaults rq = Some d /\
    WorkerSpec.Subseq (d_invoked d) urls /\
    (forall u, count_occ string_dec (d_invoked d) u <= count_occ string_dec urls u) /\
    length (d_invoked d) <= length urls.
Proof.
  intros Hp. unfold createJob, processJob. rewrite Hp.
  eexists. split; [reflexivity|].
  destruct (prepare_ready_start _ _ _ _ _ Hp) as (Hi & Hcat & _ & _).
  destruct (run_batches_calls w bs 0 d0) as [l [Hl El]].
  assert (Hsub : WorkerSpec.Subseq (d_invoked (finalize w urls (run_batches w 0 bs d0)))
                                   urls).
  { rewrite finalize_invoked, El, Hi, <- Hcat. exact Hl. }
  split; [exact Hsub|]. split.
  - intros u. apply WorkerFacts.Subseq_count, Hsub.
  - apply WorkerFacts.Subseq_length, Hsub.
Qed.

Lemma processUrl_calls_follow_the_list_witness :
  exists d,
    createJob plain_world no_defaults (request_for ["u"; "u"; "v"]%string 10 5) = Some d /\
    length (d_invoked d) <= 3.
Proof.
  destruct (processUrl_calls_follow_the_list
              plain_world no_defaults (request_for ["u"; "u"; "v"]%string 10 5)
              _ _ _ eq_refl) as (d & H1 & _ & _ & H2).
  exists d. split; [exact H1 | exact H2].
Defined.

(** *** After a cancellation *)

Lemma await_status (w : World) (p : AwaitPoint) (d : Driver) :
  job_status (d_job (await w p d))
  = if cancel_at w p then Cancelled else job_status (d_job d).
Proof. unfold await. destruct (cancel_at w p); reflexivity. Qed.

Lemma save_status (d : Driver) : job_status (d_job (save d)) = job_status (d_job d).
Proof. unfold save, saveJobState. destruct (_ && _); reflexivity. Qed.

Lemma await_keeps_cancelled (w : World) (p : AwaitPoint) (d : Driver) :
  job_status (d_job d) = Cancelled -> job_status (d_job (await w p d)) = Cancelled.
Proof. intros H. rewrite await_status. destruct (cancel_at w p); [reflexivity | exact H]. Qed.

(** A pass during which [cancelJob] is called, while the batch is processed
    or while its results are saved, ends with the status [cancelled]. *)
Lemma round_cancelled (w : World) (k : nat) (batch : list string) (d : Driver) :
  cancel_at w (AwBatch k) = true \/ cancel_at w (AwSave k) = true ->
  job_status (d_job (round w k batch d)) = Cancelled.
Proof.
  intros Hc. unfold round.
  set (da := await w (AwBatch k) d).
  set (db := on_job (fun j => recount (results_from_map j)) (run_batch w k batch da)).
  assert (Hb : job_status (d_job db) = job_status (d_job da)).
  { unfold db. destruct (run_batch_frame w k batch da) as [_ [m Ej]].
    unfold on_job. cbn [d_job]. rewrite Ej. reflexivity. }
  set (dc := await w (AwSave k) (save db)).
  assert (Hs : job_status (d_job dc) = Cancelled).
  { unfold dc. rewrite await_status.
    destruct (cancel_at w (AwSave k)) eqn:C2; [reflexivity|].
    rewrite save_status, Hb. unfold da. rewrite await_status.
    destruct Hc as [-> | Hc]; [reflexivity | discriminate Hc]. }
  set (dd := if wants_progress (d_job dc)
             then await w (AwProgress k) (send_progress k dc) else dc).
  assert (Hd : job_status (d_job dd) = Cancelled).
  { unfold dd. destruct (wants_progress _); [|exact Hs].
    apply await_keeps_cancelled. rewrite send_progress_job. exact Hs. }
  destruct (_ && _); [apply await_keeps_cancelled|]; exact Hd.
Qed.

(** The calls of the loop from the batch [i] on, when [cancelJob] is called
    during the pass over the batch [k]. *)
Lemma run_batches_calls_until (w : World) (k : nat) :
  cancel_at w (AwBatch k) = true \/ cancel_at w (AwSave k) = true ->
  forall (bs : list (list string)) (i : nat) (d : Driver),
    i <= k ->
    exists l,
      WorkerSpec.Subseq l (concat (firstn (S k - i) bs)) /\
      d_invoked (run_batches w i bs d) = d_invoked d ++ l.
Proof.
  intros Hc. induction bs as [|batch bs IH]; intros i d Hi.
  - exists []. rewrite firstn_nil. split; [constructor | rewrite app_nil_r; reflexivity].
  - rewrite run_batches_step.
    destruct (is_cancelled _).
    + exists []. split; [apply WorkerFacts.Subseq_nil_l | rewrite app_nil_r; reflexivity].
    + set (d0 := on_job (set_currentBatch (i + 1)) d).
      destruct (round_frame w i batch d0) as (_ & _ & _ & Ei).
      destruct (run_batch_calls w i batch (await w (AwBatch i) d0)) as [l1 [Hl1 El1]].
      rewrite await_invoked in El1. change (d_invoked d0) with (d_invoked d) in El1.
      replace (S k - i) with (S (k - i)) by lia. cbn [firstn concat].
      destruct (Nat.eq_dec i k) as [-> | Hne].
      * exists l1. split.
        -- rewrite Nat.sub_diag. cbn [firstn concat]. rewrite app_nil_r. exact Hl1.
        -- rewrite (proj1 (run_batches_cancelled w (S k) bs _
                             (round_cancelled w k batch d0 Hc))).
           rewrite Ei. exact El1.
      * destruct (IH (S i) (round w i batch d0)) as [l2 [Hl2 El2]]; [lia|].
        replace (S k - S i) with (k - i) in Hl2 by lia.
        exists (l1 ++ l2). split; [apply WorkerFacts.Subseq_app; assumption|].
        rewrite El2, Ei, El1, app_assoc. reflexivity.
Qed.

(** X3: when [cancelJob] is called during the pass over the batch [k],
    while the batch is processed or while its results are saved,
    [processUrl] is called on no URL of a later batch: the calls of the
    whole job are a subsequence of the URLs of the batches up to [k]. *)
Theorem cancelled_job_starts_no_later_batch (w : World) (defaults : Defaults)
        (rq : Request) (d0 : Driver) (urls : list string) (bs : list (list string))
        (k : nat) :
  prepare w (new_job defaults rq) = Ready d0 urls bs ->
  cancel_at w (AwBatch k) = true \/ cancel_at w (AwSave k) = true ->
  exists d,
    createJob w defaults rq = Some d /\
    WorkerSpec.Subseq (d_invoked d) (concat (firstn (S k) bs)).
Proof.
  intros Hp Hc. unfold createJob, processJob. rewrite Hp.
  eexists. split; [reflexivity|].
  destruct (prepare_ready_start _ _ _ _ _ Hp) as (Hi & _).
  destruct (run_batches_calls_until w k Hc bs 0 d0) as [l [Hl El]]; [lia|].
  rewrite finalize_invoked, El, Hi. rewrite Nat.sub_0_r in Hl. exact Hl.
Qed.

Lemma cancelled_job_starts_no_later_batch_witness :
  exists d,
    createJob cancel_in_first_batch no_defaults three_urls = Some d /\
    WorkerSpec.Subseq (d_invoked d) ["a"%string].
Proof.
  exact (cancelled_job_starts_no_later_batch
           cancel_in_first_batch no_defaults three_urls _ _ _ 0 eq_refl
           (or_introl eq_refl)).
Defined.

(** *** One worker *)

Lemma one_by_one_once (w : World) (batch : list string) :
  never_throws w ->
  forall st : BatchState,
    Once (b_invoked st) (b_map st) ->
    Once (b_invoked (WorkerSpec.one_by_one start_url (finish_url w) batch st))
         (b_map (WorkerSpec.one_by_one start_url (finish_url w) batch st)).
Proof.
  intros Hw. unfold WorkerSpec.one_by_one.
  induction batch as [|u batch IH]; intros st Ho; cbn [fold_left]; [exact Ho|].
  apply IH. unfold start_url.
  destruct (JSMap.get u (b_map st)) as [r|] eqn:G; cbn [finish_url fst]; [exact Ho|].
  destruct (Hw (b_calls st) u) as [r ->]. cbn [fst b_invoked b_map].
  destruct Ho as [Hnd Hin]. apply JSMapFacts.get_none in G. split.
  - apply NoDup_app; [exact Hnd | constructor; [tauto | constructor] |].
    intros x Hx [<- | []]. apply G, Hin, Hx.
  - intros x Hx. apply in_app_or in Hx as [Hx | [<- | []]].
    + apply JSMapFacts.keys_set_incl, Hin, Hx.
    + apply JSMapFacts.in_keys_set.
Qed.

Lemma run_batch_once (w : World) (k : nat) (batch : list string) (d : Driver) :
  never_throws w ->
  (maxConcurrent (job_cfg (d_job d)) <= 1)%Z ->
  Once (d_invoked d) (job_map (d_job d)) ->
  Once (d_invoked (run_batch w k batch d)) (job_map (d_job (run_batch w k batch d))).
Proof.
  intros Hw Hone Ho. unfold run_batch.
  pose proof (WorkerFacts.processInBatches_one_by_one
                VStr start_url (finish_url w)
                (maxConcurrent (job_cfg (d_job d))) (sched w k) Hone batch
                (mkBatch (job_map (d_job d)) (d_invoked d) (d_calls d))) as E.
  pose proof (one_by_one_once w batch Hw
                (mkBatch (job_map (d_job d)) (d_invoked d) (d_calls d)) Ho) as H.
  destruct (Worker.processInBatches _ _ _ _ _ _ _) as [st rs].
  cbn [fst] in E. rewrite <- E in H. exact H.
Qed.

Lemma run_batches_once (w : World) (bs : list (list string)) :
  never_throws w ->
  forall (k : nat) (d : Driver),
    (maxConcurrent (job_cfg (d_job d)) <= 1)%Z ->
    Once (d_invoked d) (job_map (d_job d)) ->
    Once (d_invoked (run_batches w k bs d)) (job_map (d_job (run_batches w k bs d))).
Proof.
  intros Hw. induction bs as [|batch bs IH]; intros k d Hone Ho; [exact Ho|].
  rewrite run_batches_step. destruct (is_cancelled _); [exact Ho|].
  set (d1 := on_job (set_currentBatch (k + 1)) d).
  destruct (round_frame w k batch d1) as (Ec & _ & Em & Ei).
  apply IH.
  - rewrite Ec. exact Hone.
  - rewrite Em, Ei. apply run_batch_once; [exact Hw | |].
    + destruct (await_frame w (AwBatch k) d1) as [-> _]. exact Hone.
    + rewrite await_invoked, await_map. exact Ho.
Qed.

(** X18: a job with one worker ([maxConcurrent] 1 or below) never hands a
    URL to [processUrl] twice, however often the URL occurs in the list and
    in whichever batches: the test of the map of results is made after the
    worker before it has stored its result. *)
Theorem one_worker_processes_once (w : World) (defaults : Defaults) (rq : Request)
        (d0 : Driver) (urls : list string) (bs : list (list string)) :
  never_throws w ->
  (maxConcurrent (createJob_config defaults rq) <= 1)%Z ->
  prepare w (new_job defaults rq) = Ready d0 urls bs ->
  exists d,
    createJob w defaults rq = Some d /\
    NoDup (d_invoked d) /\
    (forall u, count_occ string_dec (d_invoked d) u <= 1).
Proof.
  intros Hw Hone Hp. unfold createJob, processJob. rewrite Hp.
  eexists. split; [reflexivity|].
  destruct (prepare_ready_start _ _ _ _ _ Hp) as (Hi & _ & _ & Hc).
  destruct (prepare_ready _ _ _ _ _ Hp) as (_ & Hm & _ & _).
  assert (Ho : Once (d_invoked (run_batches w 0 bs d0))
                    (job_map (d_job (run_batches w 0 bs d0)))).
  { apply run_batches_once; [exact Hw | rewrite Hc; exact Hone |].
    rewrite Hi, Hm. split; [constructor | intros x []]. }
  rewrite finalize_invoked. destruct Ho as [Hnd _].
  split; [exact Hnd|].
  intros u. apply (NoDup_count_occ string_dec). exact Hnd.
Qed.

Lemma plain_world_never_throws : never_throws plain_world.
Proof. intros n u. eexists. reflexivity. Qed.

Lemma one_worker_processes_once_witness :
  exists d,
    createJob plain_world no_defaults (one_worker ["u"; "u"; "v"; "u"]%string 2) = Some d /\
    NoDup (d_invoked d).
Proof.
  destruct (one_worker_processes_once
              plain_world no_defaults (one_worker ["u"; "u"; "v"; "u"]%string 2)
              _ _ _ plain_world_never_throws ltac:(cbn; lia) eq_refl)
    as (d & H1 & H2 & _).
  exists d. split; [exact H1 | exact H2].
Defined.

(** *** Progress reports *)

Lemma tracked_bounded (urls : list string) (j : Job) :
  Tracked urls j -> Mapped j -> job_processed j <= job_total j.
Proof.
  intros ((Hnd & Hincl & _) & _ & Htot) Hm. unfold Mapped, JSMap.size in Hm.
  rewrite Hm, Htot, <- (length_map fst). apply NoDup_incl_length; assumption.
Qed.

Lemma await_progress_ok (w : World) (p : AwaitPoint) (d : Driver) :
  Forall progress_ok (d_trace d) -> Forall progress_ok (d_trace (await w p d)).
Proof.
  intros H. destruct (await_trace w p d) as [-> | ->];
    apply Forall_app; (split; [exact H | repeat constructor]).
Qed.

Lemma save_progress_ok (d : Driver) :
  Forall progress_ok (d_trace d) -> Forall progress_ok (d_trace (save d)).
Proof.
  intros H. unfold save, saveJobState. destruct (_ && _); cbn;
    apply Forall_app; (split; [exact H | repeat constructor]).
Qed.

Lemma send_progress_ok (k : nat) (d : Driver) :
  Forall progress_ok (d_trace d) ->
  job_processed (d_job d) <= job_total (d_job d) ->
  k < length (job_batches (d_job d)) ->
  Forall progress_ok (d_trace (send_progress k d)).
Proof.
  intros H Hp Hk. unfold send_progress.
  destruct (webhook _) as [wh|]; [|exact H].
  destruct (wh_url wh) as [[|a x]|]; try exact H.
  cbn. apply Forall_app. split; [exact H|].
  constructor; [|constructor]. cbn. lia.
Qed.

Lemma round_progress_ok (w : World) (urls : list string) (k : nat)
      (batch : list string) (d : Driver) :
  faithful w -> incl batch urls ->
  LoopInv d -> Tracked urls (d_job d) ->
  k < length (job_batches (d_job d)) ->
  Forall progress_ok (d_trace d) ->
  LoopInv (round w k batch d) /\ Tracked urls (d_job (round w k batch d)) /\
  Forall progress_ok (d_trace (round w k batch d)).
Proof.
  intros Hw Hb Hl Ht Hk Hp. unfold round.
  set (da := await w (AwBatch k) d).
  assert (Hla : LoopInv da) by (apply await_loop_inv, Hl).
  assert (Hta : Tracked urls (d_job da)) by (apply await_tracked, Ht).
  assert (Hpa : Forall progress_ok (d_trace da)) by (apply await_progress_ok, Hp).
  assert (Hka : job_batches (d_job da) = job_batches (d_job d))
    by apply (await_frame w (AwBatch k) d).
  destruct (run_batch_frame w k batch da) as [Etr [m Ej]].
  set (db := on_job (fun j => recount (results_from_map j)) (run_batch w k batch da)).
  assert (Hlb : LoopInv db) by (apply batch_step_inv, Hla).
  assert (Htb : Tracked urls (d_job db)).
  { destruct Hta as (Hm & _ & Htot).
    pose proof (run_batch_mapok w k batch urls da Hw Hb Hm) as Hm'.
    unfold db, on_job. cbn [d_job]. rewrite Ej in *.
    repeat split; try apply Hm'. exact Htot. }
  assert (Hpb : Forall progress_ok (d_trace db)).
  { unfold db, on_job. cbn [d_trace]. rewrite Etr. exact Hpa. }
  assert (Hkb : job_batches (d_job db) = job_batches (d_job d)).
  { unfold db, on_job. cbn [d_job]. rewrite Ej. cbn. exact Hka. }
  set (dc := await w (AwSave k) (save db)).
  assert (Hlc : LoopInv dc) by (apply await_loop_inv, save_loop_inv, Hlb).
  assert (Htc : Tracked urls (d_job dc)).
  { apply await_tracked. unfold save.
    rewrite (saveJobState_running (d_job db)) by apply Hlb. exact Htb. }
  assert (Hpc : Forall progress_ok (d_trace dc))
    by (apply await_progress_ok, save_progress_ok, Hpb).
  assert (Hkc : job_batches (d_job dc) = job_batches (d_job d)).
  { unfold dc. destruct (await_frame w (AwSave k) (save db)) as [_ ->].
    destruct (save_job_frame db) as [_ ->]. exact Hkb. }
  set (dd := if wants_progress (d_job dc)
             then await w (AwProgress k) (send_progress k dc) else dc).
  assert (Hd : LoopInv dd /\ Tracked urls (d_job dd) /\
               Forall progress_ok (d_trace dd)).
  { unfold dd. destruct (wants_progress _); [|auto].
    split; [apply await_loop_inv, send_progress_loop_inv, Hlc|].
    split; [apply await_tracked; rewrite send_progress_job; exact Htc|].
    apply await_progress_ok, send_progress_ok; [exact Hpc | | rewrite Hkc; exact Hk].
    apply (tracked_bounded urls); [exact Htc | apply Hlc]. }
  destruct Hd as (Hld & Htd & Hpd).
  destruct (_ && _); [|auto].
  split; [apply await_loop_inv, Hld|].
  split; [apply await_tracked, Htd | apply await_progress_ok, Hpd].
Qed.

Lemma run_batches_progress_ok (w : World) (urls : list string) (bs : list (list string)) :
  faithful w -> Forall (fun b => incl b urls) bs ->
  forall (k : nat) (d : Driver),
    LoopInv d -> Tracked urls (d_job d) ->
    k + length bs <= length (job_batches (d_job d)) ->
    Forall progress_ok (d_trace d) ->
    Forall progress_ok (d_trace (run_batches w k bs d)).
Proof.
  intros Hw. induction bs as [|batch bs IH]; intros Hbs k d Hl Ht Hk Hp; [exact Hp|].
  inversion Hbs as [|? ? Hb Hbs']; subst.
  rewrite run_batches_step. destruct (is_cancelled _); [exact Hp|].
  set (d1 := on_job (set_currentBatch (k + 1)) d).
  assert (Hl1 : LoopInv d1).
  { destruct Hl as (H1 & H2 & H3 & H4). repeat split; try assumption; apply H4. }
  cbn [length] in Hk.
  destruct (round_progress_ok w urls k batch d1 Hw Hb Hl1 Ht) as (Hl2 & Ht2 & Hp2);
    [cbn; lia | exact Hp |].
  apply (IH Hbs'); try assumption.
  destruct (round_frame w k batch d1) as (_ & -> & _). cbn. lia.
Qed.

Lemma finalize_progress_ok (w : World) (urls : list string) (d : Driver) :
  Forall progress_ok (d_trace d) -> Forall progress_ok (d_trace (finalize w urls d)).
Proof.
  intros H. unfold finalize.
  set (d1 := on_job (fun j => recount (reconcile urls (set_status Completed j))) d).
  assert (H1 : Forall progress_ok (d_trace (await w AwFinalSave (save d1))))
    by (apply await_progress_ok, save_progress_ok, H).
  destruct (webhook _); [|exact H1].
  apply await_progress_ok. unfold send_final.
  destruct (webhook _) as [wh|]; [|exact H1].
  destruct (wh_url wh) as [[|a x]|]; try exact H1.
  cbn. apply Forall_app. split; [exact H1 | repeat constructor].
Qed.

Lemma prepare_ready_trace (w : World) (j : Job) (d : Driver)
      (urls : list string) (bs : list (list string)) :
  prepare w j = Ready d urls bs -> Forall progress_ok (d_trace d).
Proof.
  unfold prepare. intros H.
  destruct (enumerate w j) as [message | [|u us]]; [discriminate.. |].
  destruct (make_batches (batchSize (job_cfg j)) (u :: us)) as [bs'|]; [|discriminate].
  injection H as <- <- <-. unfold on_job. cbn [d_trace].
  destruct (fetches_sitemap j); [apply await_progress_ok|]; constructor.
Qed.

(** X19: every progress webhook of a job reports no more processed URLs
    than the total (the percentage it carries is at most 100), and a batch
    number between 1 and the number of batches.  ([processUrl] returning
    records of the URL it was called on.) *)
Theorem progress_reports_are_bounded (w : World) (defaults : Defaults) (rq : Request)
        (d0 : Driver) (urls : list string) (bs : list (list string)) :
  faithful w ->
  prepare w (new_job defaults rq) = Ready d0 urls bs ->
  exists d,
    createJob w defaults rq = Some d /\
    forall p, In (ProgressSent p) (d_trace d) ->
              processed p <= total p /\ 1 <= currentBatch p <= totalBatches p.
Proof.
  intros Hw Hp. unfold createJob, processJob. rewrite Hp.
  eexists. split; [reflexivity|].
  assert (Hf : Fresh (new_job defaults rq)) by (repeat split).
  pose proof (prepare_inv w _ Hf) as Hl. rewrite Hp in Hl.
  destruct (prepare_ready _ _ _ _ _ Hp) as (Hbs & Hmap & Hres & Htot).
  destruct (prepare_ready_start _ _ _ _ _ Hp) as (_ & _ & Hb & _).
  assert (Ht : Tracked urls (d_job d0)).
  { unfold Tracked, MapOK. rewrite Hmap, Hres.
    repeat split; [constructor | intros u [] | constructor | exact Htot]. }
  assert (Hall : Forall progress_ok
                        (d_trace (finalize w urls (run_batches w 0 bs d0)))).
  { apply finalize_progress_ok, (run_batches_progress_ok w urls); try assumption.
    - rewrite Hb. simpl. lia.
    - exact (prepare_ready_trace _ _ _ _ _ Hp). }
  intros p Hin. rewrite Forall_forall in Hall. exact (Hall _ Hin).
Qed.

Lemma progress_reports_are_bounded_witness :
  exists d,
    createJob plain_world no_defaults three_urls = Some d /\
    forall p, In (ProgressSent p) (d_trace d) -> processed p <= total p.
Proof.
  destruct (progress_reports_are_bounded
              plain_world no_defaults three_urls _ _ _ plain_world_faithful eq_refl)
    as (d & H1 & H2).
  exists d. split; [exact H1|]. intros p Hp. apply (H2 p Hp).
Defined.

(** *** The two reports of a job *)

Lemma settled_same_counts (p : AwaitPoint) (j : Job) :
  Settled j -> same_counts (Observed p j).
Proof.
  unfold Settled, same_counts, Results.getJobResults, getJobStatus, report_counts.
  intros H. cbn [Results.jr_summary rep_summary summary_of total processed].
  destruct (job_status j); cbn; try reflexivity.
  specialize (H eq_refl).
  destruct (job_total j =? job_processed j) eqn:X; cbn.
  - reflexivity.
  - apply Nat.eqb_neq in X. contradiction.
Qed.

Lemma await_same_counts (w : World) (p : AwaitPoint) (d : Driver) :
  Settled (d_job d) ->
  Forall same_counts (d_trace d) -> Forall same_counts (d_trace (await w p d)).
Proof.
  intros Hs H.
  assert (Hc : Settled (set_status Cancelled (d_job d))) by (intros E; discriminate E).
  destruct (await_trace w p d) as [-> | ->];
    apply Forall_app; (split; [exact H|]).
  - constructor; [apply settled_same_counts, Hs | constructor].
  - constructor; [apply settled_same_counts, Hs|].
    constructor; [exact I|].
    constructor; [apply settled_same_counts, Hc | constructor].
Qed.

Lemma running_settled (j : Job) : Running j -> Settled j.
Proof. intros [H _] E. contradiction. Qed.

Lemma save_same_counts (d : Driver) :
  Forall same_counts (d_trace d) -> Forall same_counts (d_trace (save d)).
Proof.
  intros H. unfold save, saveJobState. destruct (_ && _); cbn;
    apply Forall_app; (split; [exact H | repeat constructor]).
Qed.

Lemma round_same_counts (w : World) (k : nat) (batch : list string) (d : Driver) :
  LoopInv d -> Forall same_counts (d_trace d) ->
  LoopInv (round w k batch d) /\ Forall same_counts (d_trace (round w k batch d)).
Proof.
  intros Hl Hp. unfold round.
  set (da := await w (AwBatch k) d).
  assert (Hla : LoopInv da) by (apply await_loop_inv, Hl).
  assert (Hpa : Forall same_counts (d_trace da)).
  { apply await_same_counts; [apply running_settled, Hl | exact Hp]. }
  destruct (run_batch_frame w k batch da) as [Etr _].
  set (db := on_job (fun j => recount (results_from_map j)) (run_batch w k batch da)).
  assert (Hlb : LoopInv db) by (apply batch_step_inv, Hla).
  assert (Hpb : Forall same_counts (d_trace db)).
  { unfold db, on_job. cbn [d_trace]. rewrite Etr. exact Hpa. }
  set (dc := await w (AwSave k) (save db)).
  assert (Hlsave : LoopInv (save db)) by (apply save_loop_inv, Hlb).
  assert (Hlc : LoopInv dc) by (apply await_loop_inv, Hlsave).
  assert (Hpc : Forall same_counts (d_trace dc)).
  { apply await_same_counts; [apply running_settled, Hlsave|].
    apply save_same_counts, Hpb. }
  set (dd := if wants_progress (d_job dc)
             then await w (AwProgress k) (send_progress k dc) else dc).
  assert (Hd : LoopInv dd /\ Forall same_counts (d_trace dd)).
  { unfold dd. destruct (wants_progress _); [|auto].
    assert (Hls : LoopInv (send_progress k dc)) by (apply send_progress_loop_inv, Hlc).
    split; [apply await_loop_inv, Hls|].
    apply await_same_counts; [apply running_settled, Hls|].
    unfold send_progress. destruct (webhook _) as [wh|]; [|exact Hpc].
    destruct (wh_url wh) as [[|a x]|]; try exact Hpc.
    cbn. apply Forall_app. split; [exact Hpc | repeat constructor]. }
  destruct Hd as (Hld & Hpd).
  destruct (_ && _); [|auto].
  split; [apply await_loop_inv, Hld|].
  apply await_same_counts; [apply running_settled, Hld | exact Hpd].
Qed.

Lemma run_batches_same_counts (w : World) (bs : list (list string)) :
  forall (k : nat) (d : Driver),
    LoopInv d -> Forall same_counts (d_trace d) ->
    Forall same_counts (d_trace (run_batches w k bs d)).
Proof.
  induction bs as [|batch bs IH]; intros k d Hl Hp; [exact Hp|].
  rewrite run_batches_step. destruct (is_cancelled _); [exact Hp|].
  set (d1 := on_job (set_currentBatch (k + 1)) d).
  assert (Hl1 : LoopInv d1).
  { destruct Hl as (H1 & H2 & H3 & H4). repeat split; try assumption; apply H4. }
  destruct (round_same_counts w k batch d1 Hl1 Hp) as [Hl2 Hp2].
  apply IH; assumption.
Qed.

Lemma finalize_same_counts (w : World) (urls : list string) (d : Driver) :
  LoopInv d -> Forall same_counts (d_trace d) ->
  Forall same_counts (d_trace (finalize w urls d)).
Proof.
  intros (Ht & Hc & Hm & Hr) Hp. unfold finalize.
  set (d1 := on_job (fun j => recount (reconcile urls (set_status Completed j))) d).
  assert (H1 : ClosedInv (save d1)).
  { apply save_completed.
    - exact Ht.
    - apply recount_counted.
    - apply recount_counted.
    - unfold d1. cbn. apply reconcile_status. }
  assert (Hp1 : Forall same_counts (d_trace (save d1))) by (apply save_same_counts, Hp).
  set (d2 := await w AwFinalSave (save d1)).
  assert (H2 : ClosedInv d2) by (apply await_closed_inv, H1).
  assert (Hp2 : Forall same_counts (d_trace d2)).
  { apply await_same_counts; [|exact Hp1]. intros _. apply H1. }
  destruct (webhook (job_cfg (d_job d2))); [|exact Hp2].
  assert (H3 : ClosedInv (send_final d2)) by (apply send_final_closed_inv, H2).
  apply await_same_counts; [intros _; apply H3|].
  unfold send_final. destruct (webhook _) as [wh|]; [|exact Hp2].
  destruct (wh_url wh) as [[|a x]|]; try exact Hp2.
  cbn. apply Forall_app. split; [exact Hp2 | repeat constructor].
Qed.

Lemma prepare_same_counts (w : World) (j : Job) :
  match prepare w j with
  | Ready d _ _ | Fails d _ => Forall same_counts (d_trace d)
  | Diverges => True
  end.
Proof.
  unfold prepare.
  set (d0 := mkDriver (set_status Processing j) [] [] 0).
  assert (H1 : Forall same_counts
                      (d_trace (if fetches_sitemap j then await w AwSitemap d0 else d0))).
  { destruct (fetches_sitemap j); [|constructor].
    apply await_same_counts; [intros E; discriminate E | constructor]. }
  destruct (enumerate w j) as [message | [|u us]]; try exact H1.
  destruct (make_batches _ _) as [bs|]; [exact H1 | exact I].
Qed.

(** X20: whenever a client reads a running or finished job, at any
    suspension of [processJob] and before or after a cancellation,
    [getJobResults] and [getJobStatus] give the same four counts: the
    total that [getJobStatus] closes in its copy for a completed job has
    been closed in the job by [saveJobState] before anyone can look. *)
Theorem getJobResults_agrees_with_getJobStatus (w : World) (defaults : Defaults)
        (rq : Request) (d : Driver) :
  createJob w defaults rq = Some d ->
  forall p j, In (Observed p j) (d_trace d) ->
    Results.jr_summary (Results.getJobResults j)
    = report_counts (rep_summary (getJobStatus j)).
Proof.
  unfold createJob, processJob. intros Hd.
  assert (Hf : Fresh (new_job defaults rq)) by (repeat split).
  pose proof (prepare_inv w _ Hf) as Hl.
  pose proof (prepare_same_counts w (new_job defaults rq)) as Hp.
  assert (Hall : Forall same_counts (d_trace d)).
  { destruct (prepare w (new_job defaults rq)) as [d0 urls bs | d0 message |];
      [| |discriminate Hd]; injection Hd as <-.
    - apply finalize_same_counts.
      + apply run_batches_loop_inv, Hl.
      + apply run_batches_same_counts; assumption.
    - unfold fail_job. apply await_same_counts; [intros E; discriminate E|].
      apply save_same_counts. exact Hp. }
  intros p j Hin. rewrite Forall_forall in Hall. exact (Hall _ Hin).
Qed.

Lemma getJobResults_agrees_with_getJobStatus_witness :
  exists d,
    createJob cancel_in_first_batch no_defaults three_urls = Some d /\
    forall p j, In (Observed p j) (d_trace d) ->
      Results.c_total (Results.jr_summary (Results.getJobResults j))
      = total (rep_summary (getJobStatus j)).
Proof.
  eexists. split; [reflexivity|].
  intros p j Hin.
  rewrite (getJobResults_agrees_with_getJobStatus
             cancel_in_first_batch no_defaults three_urls _ eq_refl p j Hin).
  reflexivity.
Defined.

End OrchestratorFacts.

(** ** Properties of the loop that cuts the batches *)

Module BatchingFacts.
Import Orchestrator Batching BatchingSpec.

Lemma slice_batch (urls : list string) (batchSize : Z) (i : nat) :
  (0 < batchSize)%Z -> i < length urls ->
  slice urls (Z.of_nat i) (Z.of_nat i + batchSize)
  = firstn (Z.to_nat batchSize) (skipn i urls).
Proof.
  intros Hb Hi. unfold slice. cbv zeta.
  destruct (Z.of_nat i <? 0)%Z eqn:E1; [apply Z.ltb_lt in E1; lia|].
  destruct (Z.of_nat i + batchSize <? 0)%Z eqn:E2; [apply Z.ltb_lt in E2; lia|].
  rewrite (Z.min_l (Z.of_nat i)) by lia. rewrite Nat2Z.id.
  destruct (Z_le_gt_dec (Z.of_nat i + batchSize) (Z.of_nat (length urls))) as [Hle | Hgt].
  - rewrite Z.min_l by lia. f_equal. lia.
  - rewrite Z.min_r by lia.
    rewrite !firstn_all2; [reflexivity | |]; rewrite length_skipn; lia.
Qed.

(** With a positive batch size the loop ends, and it builds what
    [batches_from] lists. *)
Lemma batch_loop_ends (urls : list string) (batchSize : Z) :
  (0 < batchSize)%Z ->
  forall (fuel i : nat) (batches : list (list string)),
    length urls <= i + fuel ->
    batch_loop (S fuel) urls batchSize (Z.of_nat i) batches
    = Some (batches ++ batches_from fuel urls (Z.to_nat batchSize) i).
Proof.
  intros Hb. induction fuel as [|fuel IH]; intros i batches Hf.
  - cbn [batch_loop batches_from].
    destruct (Z.of_nat i <? Z.of_nat (length urls))%Z eqn:E;
      [apply Z.ltb_lt in E; lia|].
    rewrite app_nil_r. reflexivity.
  - remember (S fuel) as n eqn:En. cbn [batch_loop]. subst n. cbn [batches_from].
    destruct (Z.of_nat i <? Z.of_nat (length urls))%Z eqn:E.
    + apply Z.ltb_lt in E.
      assert (Hi : (i <? length urls) = true) by (apply Nat.ltb_lt; lia).
      rewrite Hi.
      assert (Hidx : Z.of_nat (i + Z.to_nat batchSize) = (Z.of_nat i + batchSize)%Z)
        by lia.
      specialize (IH (i + Z.to_nat batchSize)
                     (batches ++ [slice urls (Z.of_nat i) (Z.of_nat i + batchSize)])).
      rewrite Hidx in IH. rewrite IH by lia.
      rewrite slice_batch by lia.
      rewrite <- app_assoc. reflexivity.
    + apply Z.ltb_ge in E.
      assert (Hi : (i <? length urls) = false) by (apply Nat.ltb_ge; lia).
      rewrite Hi, app_nil_r.
      destruct fuel; cbn [batch_loop];
        (destruct (Z.of_nat i <? Z.of_nat (length urls))%Z eqn:E';
         [apply Z.ltb_lt in E'; lia | reflexivity]).
Qed.

Lemma batches_from_well_cut (urls : list string) (batchSize : nat) :
  0 < batchSize ->
  forall (fuel i : nat), well_cut batchSize (batches_from fuel urls batchSize i).
Proof.
  intros Hb. induction fuel as [|fuel IH]; intros i; cbn [batches_from].
  - split; constructor.
  - destruct (i <? length urls) eqn:E; [|split; constructor].
    apply Nat.ltb_lt in E.
    destruct (IH (i + batchSize)) as [H1 H2].
    assert (Hlen : length (firstn batchSize (skipn i urls))
                   = Nat.min batchSize (length urls - i)).
    { rewrite length_firstn, length_skipn. reflexivity. }
    split.
    + constructor; [rewrite Hlen; lia | exact H1].
    + destruct (batches_from fuel urls batchSize (i + batchSize)) as [|b rest] eqn:B.
      * constructor.
      * change (removelast (firstn batchSize (skipn i urls) :: b :: rest))
          with (firstn batchSize (skipn i urls) :: removelast (b :: rest)).
        constructor; [|exact H2].
        rewrite Hlen.
        destruct fuel; cbn [batches_from] in B; [discriminate|].
        destruct (i + batchSize <? length urls) eqn:E2; [|discriminate].
        apply Nat.ltb_lt in E2. lia.
Qed.

(** X13: with a batch size that is a positive integer the loop that cuts
    the batches ends; the batches, in order, are the enumerated list cut
    into pieces; every batch holds at least one URL and at most
    [batchSize]; and every batch except the last holds exactly
    [batchSize]. *)
Theorem batches_are_well_cut (urls : list string) (batchSize : Z) :
  (0 < batchSize)%Z ->
  exists bs,
    batch_loop (S (length urls)) urls batchSize 0 [] = Some bs /\
    make_batches batchSize urls = Some bs /\
    concat bs = urls /\
    well_cut (Z.to_nat batchSize) bs.
Proof.
  intros Hb.
  exists (batches_from (length urls) urls (Z.to_nat batchSize) 0).
  assert (Hm : make_batches batchSize urls
               = Some (batches_from (length urls) urls (Z.to_nat batchSize) 0)).
  { unfold make_batches.
    destruct (batchSize <=? 0)%Z eqn:E; [apply Z.leb_le in E; lia | reflexivity]. }
  split; [|split; [exact Hm | split]].
  - change 0%Z with (Z.of_nat 0).
    rewrite (batch_loop_ends urls batchSize Hb (length urls) 0 []) by lia.
    reflexivity.
  - apply (OrchestratorFacts.make_batches_concat batchSize). exact Hm.
  - apply batches_from_well_cut. lia.
Qed.

Lemma batches_are_well_cut_witness :
  exists bs, make_batches 2 ["a"; "b"; "c"]%string = Some bs /\
             concat bs = ["a"; "b"; "c"]%string.
Proof.
  destruct (batches_are_well_cut ["a"; "b"; "c"]%string 2 ltac:(lia))
    as (bs & _ & H1 & H2 & _).
  exists bs. split; assumption.
Defined.

Lemma batch_loop_index (urls : list string) (batchSize : Z) :
  (batchSize <= 0)%Z -> urls <> [] ->
  forall (passes : nat) (i : Z) (batches : list (list string)),
    (i <= 0)%Z -> batch_loop passes urls batchSize i batches = None.
Proof.
  intros Hb Hne. induction passes as [|passes IH]; intros i batches Hi;
    cbn [batch_loop]; [reflexivity|].
  assert (Hlen : 0 < length urls) by (destruct urls; [congruence | simpl; lia]).
  destruct (i <? Z.of_nat (length urls))%Z eqn:E; [|apply Z.ltb_ge in E; lia].
  apply IH. lia.
Qed.

(** X14: with a batch size of 0 or below, which [createJob] accepts, the
    loop that cuts the batches never ends for a job that has a URL: the
    index never reaches the length of the list, however many times the
    condition is tested. *)
Theorem batch_loop_never_ends (urls : list string) (batchSize : Z) (passes : nat) :
  (batchSize <= 0)%Z -> urls <> [] ->
  batch_loop passes urls batchSize 0 [] = None /\
  make_batches batchSize urls = None.
Proof.
  intros Hb Hne. split.
  - apply batch_loop_index; [exact Hb | exact Hne | lia].
  - unfold make_batches.
    destruct (batchSize <=? 0)%Z eqn:E; [reflexivity | apply Z.leb_gt in E; lia].
Qed.

Lemma batch_loop_never_ends_witness :
  batch_loop 1000 ["a"]%string (-1) 0 [] = None.
Proof.
  apply (batch_loop_never_ends ["a"]%string (-1) 1000); [lia | discriminate].
Defined.

End BatchingFacts.

(** ** Properties of the Firecrawl adapter *)

Module FirecrawlFacts.
Import Crawler Orchestrator OrchestratorSpec Firecrawl FirecrawlSpec.

Lemma getJobStatus_completed (j : Job) :
  job_status j = Completed ->
  rep_status (getJobStatus j) = Completed /\
  total (rep_summary (getJobStatus j)) = job_processed j /\
  processed (rep_summary (getJobStatus j)) = job_processed j /\
  rep_results (getJobStatus j)
  = (if job_processed j <=? 50 then Some (job_results j) else None).
Proof.
  intros Hs. unfold getJobStatus. rewrite Hs. cbn [is_completed andb rep_status].
  cbn [summary_of total processed].
  destruct (job_total j =? job_processed j) eqn:E; cbn.
  - apply Nat.eqb_eq in E. auto.
  - auto.
Qed.

(** X15: once a job with more than 50 different URLs is completed,
    [getCrawlStatus] cannot report it: [getJobStatus] leaves the results out
    of the report of a job with more than 50 processed URLs, and
    [getCrawlStatus] throws on [status.results.slice].  ([processUrl]
    returning records of the URL it was called on.) *)
Theorem getCrawlStatus_throws_on_large_job (w : World) (defaults : Defaults)
        (rq : Request) (d0 d : Driver) (urls : list string) (bs : list (list string)) :
  faithful w ->
  prepare w (new_job defaults rq) = Ready d0 urls bs ->
  createJob w defaults rq = Some d ->
  job_status (d_job d) = Completed ->
  50 < length (distinct [] urls) ->
  getCrawlStatus (Live (getJobStatus (d_job d))) = inl ResultsIsNull.
Proof.
  intros Hw Hp Hd Hs Hn.
  destruct (OrchestratorFacts.ready_job_counts
              w defaults rq d0 urls bs Hw Hp) as (d' & Hd' & _ & Hproc & _).
  rewrite Hd in Hd'. injection Hd' as <-.
  destruct (getJobStatus_completed (d_job d) Hs) as (H1 & H2 & H3 & H4).
  unfold getCrawlStatus, crawl_status. rewrite H1, H4. cbn [is_completed].
  assert (E : (job_processed (d_job d) <=? 50) = false) by (apply Nat.leb_gt; lia).
  rewrite E. reflexivity.
Qed.

Lemma getCrawlStatus_throws_on_large_job_witness :
  exists d,
    createJob plain_world no_defaults (many_urls 51) = Some d /\
    getCrawlStatus (Live (getJobStatus (d_job d))) = inl ResultsIsNull.
Proof.
  eexists. split; [reflexivity|].
  eapply (getCrawlStatus_throws_on_large_job plain_world no_defaults (many_urls 51)).
  - exact OrchestratorFacts.plain_world_faithful.
  - reflexivity.
  - reflexivity.
  - reflexivity.
  - vm_compute. lia.
Defined.

(** X16: for a completed job with at most 50 different URLs,
    [getCrawlStatus] answers with the status [completed], with [total] and
    [completed] both the number of different URLs, and with the first ten
    records of [job.results] as [data]; a link to a next page is given when
    there are more than ten, and it always asks for [skip=10]: the adapter
    reads no [skip], so the records after the tenth are not served.
    ([processUrl] returning records of the URL it was called on.) *)
Theorem getCrawlStatus_serves_first_ten (w : World) (defaults : Defaults)
        (rq : Request) (d0 d : Driver) (urls : list string) (bs : list (list string)) :
  faithful w ->
  prepare w (new_job defaults rq) = Ready d0 urls bs ->
  createJob w defaults rq = Some d ->
  job_status (d_job d) = Completed ->
  length (distinct [] urls) <= 50 ->
  exists r,
    getCrawlStatus (Live (getJobStatus (d_job d))) = inr r /\
    status r = "completed"%string /\
    cs_total r = length (distinct [] urls) /\
    completed r = length (distinct [] urls) /\
    data r = Some (map page_of (firstn 10 (job_results (d_job d)))) /\
    next r = (if 10 <? length (distinct [] urls) then Some 10 else None).
Proof.
  intros Hw Hp Hd Hs Hn.
  destruct (OrchestratorFacts.ready_job_counts
              w defaults rq d0 urls bs Hw Hp) as (d' & Hd' & _ & Hproc & _).
  rewrite Hd in Hd'. injection Hd' as <-.
  destruct (getJobStatus_completed (d_job d) Hs) as (H1 & H2 & H3 & H4).
  unfold getCrawlStatus, crawl_status. rewrite H1, H2, H3, H4, Hproc.
  cbn [is_completed].
  assert (E : (length (distinct [] urls) <=? 50) = true) by (apply Nat.leb_le; lia).
  rewrite E. eexists. split; [reflexivity|].
  cbn [status cs_total completed data next _mapStatus status_name skipn CHUNK_SIZE].
  rewrite Nat.sub_0_r. repeat split.
Qed.

Lemma getCrawlStatus_serves_first_ten_witness :
  exists d r,
    createJob plain_world no_defaults (many_urls 11) = Some d /\
    getCrawlStatus (Live (getJobStatus (d_job d))) = inr r /\
    option_map (@length PageData) (data r) = Some 10 /\
    next r = Some 10.
Proof.
  eexists.
  destruct (getCrawlStatus_serves_first_ten
              plain_world no_defaults (many_urls 11) _ _ _ _
              OrchestratorFacts.plain_world_faithful eq_refl eq_refl eq_refl
              ltac:(vm_compute; lia))
    as (r & H1 & _ & _ & _ & H2 & H3).
  exists r. split; [reflexivity|]. split; [exact H1|].
  split; [rewrite H2; reflexivity | rewrite H3; reflexivity].
Defined.

End FirecrawlFacts.
